(** * qmexmut: mutually exclusive Proxmox guests

    A shallow embedding of [qmexmut.go], the hookscript that shuts down the
    running guests which claim a passed-through host device of the guest
    about to start, together with the properties of its specification.

    Conventions of the embedding.
    - A Go [string] is a [string] (a sequence of bytes); a [[]byte] is an
      [option string], [None] being the nil slice.
    - The operating system is a [world]: for each argument vector the way
      the command behaves (what its pipe, its start, its output and its
      exit give).
    - A function with effects returns in [Eff]: its value and the list of
      external events it caused, or [None] when the Go code would panic
      (nil dereference, index out of range) or when a loop bound, computed
      from the remaining output, were not enough; every loop bound is
      proved sufficient.
    - The goroutines of [stopMutuals] are interleaved by a schedule, a list
      of numbers that picks the next thread among the enabled ones. *)

From Stdlib Require Import ZArith Ascii String Lia.
From stdpp Require Import base option list gmap strings.

Local Open Scope Z_scope.
Local Open Scope nat_scope.

(** ** Go strings and byte slices *)

Abbreviation bytes := (option string).

(** [string(b)] for a byte slice [b]: the nil slice converts to [""]. *)
Definition string_of (b : bytes) : string :=
  match b with
  | Some s => s
  | None => ""%string
  end.

(** [strings.IndexByte]: offset of the first [c] in [s], [-1] when absent. *)
Fixpoint IndexByte (s : string) (c : ascii) : Z :=
  match s with
  | EmptyString => (-1)%Z
  | String a s' =>
      if Ascii.eqb a c then 0%Z
      else let i := IndexByte s' c in
           if (0 <=? i)%Z then (i + 1)%Z else (-1)%Z
  end.

(** The slice expression [s[:i]] for an offset within the string. *)
Definition slice_to (s : string) (i : Z) : string := substring 0 (Z.to_nat i) s.

(** ** Errors and events *)

(** An operand of a [fmt] verb. *)
Inductive fmtarg :=
| FStr (s : string)
| FStrs (l : list string).

(** Go [error] values.  [Errorf] is [fmt.Errorf] without [%w], [Wrapf] is
    [fmt.Errorf] whose last verb [%w] wraps [cause]; messages are kept as
    format and operands.  [ExitError] is [*exec.ExitError] with the
    [syscall.WaitStatus] of its [ProcessState]. *)
Inductive error :=
| ErrorString (msg : string)
| ExitError (status : Z)
| Errorf (format : string) (args : list fmtarg)
| Wrapf (format : string) (args : list fmtarg) (cause : error).

(** What the program does to its environment: the calls that start, signal
    and reap the scanned commands, the start and the end of the commands
    that [maybeRun] runs, and the lines it logs.  [EvReturn] is the one
    event inside the program: a goroutine of a group has returned [r] and
    hands it to the group, which is where the order of the errors is
    decided. *)
Inductive event :=
| EvStart (args : list string)
| EvKill (args : list string)
| EvWait (args : list string)
| EvRun (args : list string)
| EvRunDone (args : list string) (r : option error)
| EvReturn (r : option error)
| EvLog (format : string) (args : list fmtarg).

(** [syscall.WaitStatus] on Linux. *)
Module WaitStatus.

Definition mask : Z := 0x7F.
Definition stopped : Z := 0x7F.
Definition exited : Z := 0x00.
Definition SIGKILL : Z := 9.

Definition Signaled (w : Z) : bool :=
  negb (Z.land w mask =? stopped)%Z && negb (Z.land w mask =? exited)%Z.

Definition Signal (w : Z) : Z :=
  if Signaled w then Z.land w mask else (-1)%Z.

End WaitStatus.

(** [errors.As(err, &xerr)] for [xerr : *exec.ExitError]: the first exit
    error on the chain of wrapped errors. *)
Fixpoint As_ExitError (e : error) : option Z :=
  match e with
  | ExitError w => Some w
  | Wrapf _ _ cause => As_ExitError cause
  | ErrorString _ | Errorf _ _ => None
  end.

Definition isKillError (err : option error) : bool :=
  match err with
  | None => false
  | Some e =>
      match As_ExitError e with
      | Some status =>
          WaitStatus.Signaled status
          && (WaitStatus.Signal status =? WaitStatus.SIGKILL)%Z
      | None => false
      end
  end.

(** ** The effect monad *)

Definition Eff (A : Type) : Type := option (A * list event).

Definition ret {A} (a : A) : Eff A := Some (a, []).

Definition bind {A B} (m : Eff A) (f : A → Eff B) : Eff B :=
  match m with
  | None => None
  | Some (a, t) =>
      match f a with
      | None => None
      | Some (b, t') => Some (b, t ++ t')
      end
  end.

Definition emit (e : event) : Eff unit := Some (tt, [e]).

Definition lift {A} (o : option A) : Eff A :=
  match o with
  | Some a => ret a
  | None => None
  end.

Declare Scope eff_scope.
Delimit Scope eff_scope with eff.
Notation "x <- m ; k" := (bind m (fun x => k))
  (at level 20, m at level 100, k at level 200, only parsing) : eff_scope.
Notation "' p <- m ; k" := (bind m (fun x => match x with p => k end))
  (at level 20, p pattern, m at level 100, k at level 200, only parsing)
  : eff_scope.
Local Open Scope eff_scope.

(** ** Regular expressions

    The four patterns of the program are concatenations of literal bytes,
    repeated byte classes, the ASCII word boundary and capture groups, so a
    [regexp] is a list of such nodes.  [exec] is the backtracking search
    whose first success Go's [regexp] package returns (leftmost, a greedy
    repetition trying more bytes first and a lazy one fewer).  The patterns
    only test ASCII bytes next to a repetition, so matching byte by byte
    and rune by rune agree. *)
Inductive node :=
| Lit (c : ascii)
| Rep (cls : ascii → bool) (min : nat) (greedy : bool)
| WordBoundary
| Open (g : nat)
| Close (g : nat).

Definition regexp := list node.

Definition is_word (c : ascii) : bool :=
  let n := N_of_ascii c in
  ((48 <=? n) && (n <=? 57) || (65 <=? n) && (n <=? 90)
   || (97 <=? n) && (n <=? 122) || (n =? 95))%N.

Definition is_word_at (c : option ascii) : bool :=
  match c with
  | Some c => is_word c
  | None => false
  end.

Definition next_byte (s : string) : option ascii :=
  match s with
  | String c _ => Some c
  | EmptyString => None
  end.

(** A repeated byte class, [n] bytes of it taken so far, followed by the
    rest [k] of the pattern. *)
Fixpoint rep (cls : ascii → bool) (min : nat) (greedy : bool)
    (k : string → option ascii → nat → option (gmap nat nat))
    (s : string) (n : nat) (prev : option ascii) (pos : nat)
    {struct s} : option (gmap nat nat) :=
  if greedy then
    match
      match s with
      | String c s' =>
          if cls c then rep cls min greedy k s' (S n) (Some c) (S pos)
          else None
      | EmptyString => None
      end
    with
    | Some r => Some r
    | None => if min <=? n then k s prev pos else None
    end
  else
    match (if min <=? n then k s prev pos else None) with
    | Some r => Some r
    | None =>
        match s with
        | String c s' =>
            if cls c then rep cls min greedy k s' (S n) (Some c) (S pos)
            else None
        | EmptyString => None
        end
    end.

(** [exec prog s prev pos cap] runs [prog] on the rest [s] of the input,
    which starts at offset [pos] after the byte [prev]; [cap] holds the
    offsets recorded so far, slot [2g] the start and [2g+1] the end of
    group [g]. *)
Fixpoint exec (prog : regexp) (s : string) (prev : option ascii) (pos : nat)
    (cap : gmap nat nat) {struct prog} : option (gmap nat nat) :=
  match prog with
  | [] => Some (<[1:=pos]> cap)
  | Lit c :: k =>
      match s with
      | String c' s' =>
          if Ascii.eqb c c' then exec k s' (Some c') (S pos) cap else None
      | EmptyString => None
      end
  | WordBoundary :: k =>
      if xorb (is_word_at prev) (is_word_at (next_byte s))
      then exec k s prev pos cap else None
  | Open g :: k => exec k s prev pos (<[2 * g:=pos]> cap)
  | Close g :: k => exec k s prev pos (<[2 * g + 1:=pos]> cap)
  | Rep cls min greedy :: k =>
      rep cls min greedy (λ s prev pos, exec k s prev pos cap) s 0 prev pos
  end.

(** The unanchored search: the first offset at which [exec] succeeds. *)
Fixpoint search (prog : regexp) (s : string) (prev : option ascii)
    (pos : nat) : option (gmap nat nat) :=
  match exec prog s prev pos {[0 := pos]} with
  | Some cap => Some cap
  | None =>
      match s with
      | String c s' => search prog s' (Some c) (S pos)
      | EmptyString => None
      end
  end.

Definition is_open (n : node) : bool :=
  match n with
  | Open _ => true
  | _ => false
  end.

Definition NumSubexp (pat : regexp) : nat :=
  length (List.filter is_open pat).

(** The text between two recorded offsets, nil when the group took no
    part in the match. *)
Definition submatch (s : string) (cap : gmap nat nat) (g : nat) : bytes :=
  match cap !! (2 * g), cap !! (2 * g + 1) with
  | Some i, Some j => Some (substring i (j - i) s)
  | _, _ => None
  end.

(** [pat.FindSubmatch(b)]: nil without a match, else the matched text and
    the text of each group. *)
Definition FindSubmatch (pat : regexp) (b : bytes) : option (list bytes) :=
  cap ← search pat (string_of b) None 0;
  Some (submatch (string_of b) cap <$> seq 0 (S (NumSubexp pat))).

Definition space (c : ascii) : bool :=
  Ascii.eqb c "009" || Ascii.eqb c "010" || Ascii.eqb c "012"
  || Ascii.eqb c "013" || Ascii.eqb c " ".

Definition notspace (c : ascii) : bool := negb (space c).

(** [.]: any byte but the line feed. *)
Definition dot (c : ascii) : bool := negb (Ascii.eqb c "010").

Definition notcomma (c : ascii) : bool := negb (Ascii.eqb c ","%char).

Definition lits (s : string) : regexp := Lit <$> list_ascii_of_string s.

(** [([^\s]+)\s+(.+?)\s+(.+?)\s+] *)
Definition listPat : regexp :=
  [Open 1; Rep notspace 1 true; Close 1; Rep space 1 true;
   Open 2; Rep dot 1 false; Close 2; Rep space 1 true;
   Open 3; Rep dot 1 false; Close 3; Rep space 1 true].

(** [\bhost=([^,]+)] *)
Definition usbHostPat : regexp :=
  WordBoundary :: lits "host=" ++ [Open 1; Rep notcomma 1 true; Close 1].

(** [status:\s*(.+)] *)
Definition statusPat : regexp :=
  lits "status:" ++ [Rep space 0 true; Open 1; Rep dot 1 true; Close 1].

(** [(.+?):\s*(.+)] *)
Definition keyValPat : regexp :=
  [Open 1; Rep dot 1 false; Close 1; Lit ":"; Rep space 0 true;
   Open 2; Rep dot 1 true; Close 2].

(** Indexing a Go slice: a negative or too large index panics. *)
Definition index {A} (l : list A) (i : Z) : option A :=
  if (i <? 0)%Z then None else l !! Z.to_nat i.

(** ** The operating system *)

(** How one external command behaves: the errors of [StdoutPipe] and of
    [Start], the lines a [bufio.Scanner] reads from its output, the error
    that ends the reading (none at a plain end of file), and what [Wait]
    returns once the process got the kill signal with so many lines of its
    output still unread. *)
Record behaviour := {
  pipe_err : option error;
  start_err : option error;
  output : list string;
  read_err : option error;
  wait_err : nat → option error
}.

(** [command] answers for the commands that are scanned, [run_result] for
    those that [maybeRun] runs to their end. *)
Record world := {
  command : list string → behaviour;
  run_result : list string → option error
}.

(** [*exec.Cmd]: [Process] says whether the field of that name is set,
    [ProcessState] likewise (it is set by [Wait]). *)
Record Cmd := {
  Args : list string;
  Process : bool;
  ProcessState : bool
}.

Definition exec_Command (name : string) (arg : list string) : Cmd :=
  {| Args := name :: arg; Process := false; ProcessState := false |}.

(** [*bufio.Scanner] splitting lines: the lines still to come, the current
    token, and whether the input came to its end. *)
Record bufio_Scanner := {
  pending : list string;
  token : bytes;
  exhausted : bool;
  final_err : option error
}.

Definition NewScanner (b : behaviour) : bufio_Scanner :=
  {| pending := output b; token := None; exhausted := false;
     final_err := read_err b |}.

Definition Scanner_Scan (sc : bufio_Scanner) : bool * bufio_Scanner :=
  match pending sc with
  | l :: rest =>
      (true, {| pending := rest; token := Some l; exhausted := false;
                final_err := final_err sc |})
  | [] =>
      (false, {| pending := []; token := None; exhausted := true;
                 final_err := final_err sc |})
  end.

Definition Scanner_Err (sc : bufio_Scanner) : option error :=
  if exhausted sc then final_err sc else None.

Definition Scanner_Bytes (sc : bufio_Scanner) : bytes := token sc.

(** ** Scanners, matchers and recognizers *)

Record cmdScanner := {
  csc_cmd : option Cmd;
  csc_err : option error;
  csc_Scanner : option bufio_Scanner
}.

Record cmdMatcher := {
  cmm_cmdScanner : cmdScanner;
  cmm_pat : regexp;
  cmm_match : option (list bytes)
}.

Record cmdRecognizer := {
  cmr_cmdMatcher : cmdMatcher;
  cmr_rec : cmdMatcher → option string;
  cmr_label : string
}.

Record listRec := {
  rec_id : string;
  rec_name : string;
  rec_status : string
}.

Definition set_cmd (csc : cmdScanner) (c : Cmd) : cmdScanner :=
  {| csc_cmd := Some c; csc_err := csc_err csc;
     csc_Scanner := csc_Scanner csc |}.

Definition set_err (csc : cmdScanner) (e : option error) : cmdScanner :=
  {| csc_cmd := csc_cmd csc; csc_err := e; csc_Scanner := csc_Scanner csc |}.

Definition set_Scanner (csc : cmdScanner) (sc : bufio_Scanner) : cmdScanner :=
  {| csc_cmd := csc_cmd csc; csc_err := csc_err csc; csc_Scanner := Some sc |}.

Definition set_cmdScanner (cmm : cmdMatcher) (csc : cmdScanner) : cmdMatcher :=
  {| cmm_cmdScanner := csc; cmm_pat := cmm_pat cmm;
     cmm_match := cmm_match cmm |}.

Definition set_match (cmm : cmdMatcher) (m : option (list bytes)) : cmdMatcher :=
  {| cmm_cmdScanner := cmm_cmdScanner cmm; cmm_pat := cmm_pat cmm;
     cmm_match := m |}.

Definition set_cmdMatcher (cmr : cmdRecognizer) (cmm : cmdMatcher)
    : cmdRecognizer :=
  {| cmr_cmdMatcher := cmm; cmr_rec := cmr_rec cmr;
     cmr_label := cmr_label cmr |}.

Definition set_label (cmr : cmdRecognizer) (l : string) : cmdRecognizer :=
  {| cmr_cmdMatcher := cmr_cmdMatcher cmr; cmr_rec := cmr_rec cmr;
     cmr_label := l |}.

Definition scanCommand (cmd : Cmd) : cmdScanner :=
  {| csc_cmd := Some cmd; csc_err := None; csc_Scanner := None |}.

Definition matchCommand (cmd : Cmd) (pat : regexp) : cmdMatcher :=
  {| cmm_cmdScanner :=
       {| csc_cmd := Some cmd; csc_err := None; csc_Scanner := None |};
     cmm_pat := pat; cmm_match := None |}.

Definition recognizeCommand (cmd : Cmd) (pat : regexp)
    (rec : cmdMatcher → option string) : cmdRecognizer :=
  {| cmr_cmdMatcher :=
       {| cmm_cmdScanner :=
            {| csc_cmd := Some cmd; csc_err := None; csc_Scanner := None |};
          cmm_pat := pat; cmm_match := None |};
     cmr_rec := rec; cmr_label := ""%string |}.

Definition cmdRecognizer_Label (cmr : cmdRecognizer) : string := cmr_label cmr.

(** [len(cmm.match)] *)
Definition match_slots (cmm : cmdMatcher) : list bytes :=
  default [] (cmm_match cmm).

Definition cmdMatcher_Match (cmm : cmdMatcher) (i : Z) : option bytes :=
  if (i <? Z.of_nat (length (match_slots cmm)))%Z
  then index (match_slots cmm) i
  else Some None.

Definition cmdMatcher_MatchText (cmm : cmdMatcher) (i : Z) : option string :=
  if (i <? Z.of_nat (length (match_slots cmm)))%Z
  then string_of <$> index (match_slots cmm) i
  else Some ""%string.

Definition labelHostResource (cmm : cmdMatcher) : option string :=
  name ← cmdMatcher_MatchText cmm 1;
  if String.prefix "hostpci" name then
    value ← cmdMatcher_MatchText cmm 2;
    let i := IndexByte value "," in
    let value := if (0 <=? i)%Z then slice_to value i else value in
    Some ("hostpci:" +:+ value)
  else if String.prefix "usb" name then
    b ← cmdMatcher_Match cmm 2;
    let found := default [] (FindSubmatch usbHostPat b) in
    if 0 <? length found then
      token ← index found 1;
      Some ("hostusb:" +:+ string_of token)
    else Some ""%string
  else Some ""%string.

Section Program.

(** The environment, and the package variable [dryRun], which [flag.Parse]
    sets before anything runs. *)
Variable os : world.
Variable dryRun : bool.

(** *** [os/exec] *)

Definition Cmd_StdoutPipe (c : Cmd) : option error :=
  pipe_err (command os (Args c)).

Definition Cmd_Start (c : Cmd) : Eff (option error * Cmd) :=
  if Process c then ret (Some (ErrorString "exec: already started"), c)
  else
    match start_err (command os (Args c)) with
    | Some e => ret (Some e, c)
    | None =>
        'tt <- emit (EvStart (Args c));
        ret (None, {| Args := Args c; Process := true;
                      ProcessState := ProcessState c |})
    end.

Definition Process_Kill (c : Cmd) : Eff unit := emit (EvKill (Args c)).

Definition Cmd_Wait (c : Cmd) (unread : nat) : Eff (option error * Cmd) :=
  'tt <- emit (EvWait (Args c));
  if negb (Process c) then ret (Some (ErrorString "exec: not started"), c)
  else if ProcessState c
  then ret (Some (ErrorString "exec: Wait was already called"), c)
  else
    ret (wait_err (command os (Args c)) unread,
         {| Args := Args c; Process := true; ProcessState := true |}).

(** *** [cmdScanner] *)

(** The lines of output the scanner has not read yet: those pending in its
    [bufio.Scanner], or the whole output when there is none so far. *)
Definition unread_lines (csc : cmdScanner) : list string :=
  match csc_Scanner csc with
  | Some sc => pending sc
  | None =>
      match csc_cmd csc with
      | Some c => output (command os (Args c))
      | None => []
      end
  end.

Definition unread (csc : cmdScanner) : nat := length (unread_lines csc).

Definition cmdScanner_Err (csc : cmdScanner) : option error * cmdScanner :=
  match csc_err csc, csc_Scanner csc with
  | None, Some sc =>
      match Scanner_Err sc with
      | Some e =>
          let err := Wrapf "io error: %w" [] e in
          (Some err, set_err csc (Some err))
      | None => (None, csc)
      end
  | err, _ => (err, csc)
  end.

(** [csc.err = csc.cmd.Start()] and the test that follows it. *)
Definition start_cmd (csc : cmdScanner) (c : Cmd) : Eff (bool * cmdScanner) :=
  '(err, c) <- Cmd_Start c;
  ret (bool_decide (err = None), set_err (set_cmd csc c) err).

(** The block under [if csc.cmd.Process == nil]; the boolean tells whether
    [Scan] goes on after it. *)
Definition ensure_started (csc : cmdScanner) (c : Cmd)
    : Eff (bool * cmdScanner) :=
  if Process c then ret (true, csc)
  else
    match csc_Scanner csc with
    | None =>
        match Cmd_StdoutPipe c with
        | Some e => ret (false, set_err csc (Some e))
        | None => start_cmd (set_Scanner csc (NewScanner (command os (Args c)))) c
        end
    | Some _ => start_cmd csc c
    end.

Definition cmdScanner_Scan (csc : cmdScanner) : Eff (bool * cmdScanner) :=
  match csc_err csc with
  | Some _ => ret (false, csc)
  | None =>
      match csc_cmd csc with
      | None => ret (false, csc)
      | Some c =>
          '(go_on, csc) <- ensure_started csc c;
          if go_on then
            match csc_Scanner csc with
            | None => ret (false, csc)
            | Some sc =>
                let '(ok, sc) := Scanner_Scan sc in
                ret (ok, set_Scanner csc sc)
            end
          else ret (false, csc)
      end
  end.

(** [csc.Bytes()], promoted from the embedded [*bufio.Scanner]. *)
Definition cmdScanner_Bytes (csc : cmdScanner) : option bytes :=
  Scanner_Bytes <$> csc_Scanner csc.

(** [errp] is a pointer to an error variable: [None] the nil pointer,
    [Some v] a pointer to a variable that holds [v].  The result gives the
    scanner and the variable afterwards. *)
Definition cmdScanner_Cleanup (csc : cmdScanner) (errp : option (option error))
    : Eff (cmdScanner * option (option error)) :=
  c <- lift (csc_cmd csc);
  csc <- (if Process c then
            'tt <- Process_Kill c;
            '(werr, c) <- Cmd_Wait c (unread csc);
            let werr := if isKillError werr then None else werr in
            let csc := set_cmd csc c in
            let '(err, csc) := cmdScanner_Err csc in
            ret (match err with
                 | None => set_err csc werr
                 | Some _ => csc
                 end)
          else ret csc);
  let '(err, csc) := cmdScanner_Err csc in
  match err, errp with
  | Some e, Some None =>
      ret (csc, Some (Some (Wrapf "command %q failed: %w" [FStrs (Args c)] e)))
  | _, _ => ret (csc, errp)
  end.

(** *** [cmdMatcher] *)

Fixpoint cmdMatcher_Scan_loop (fuel : nat) (cmm : cmdMatcher)
    : Eff (bool * cmdMatcher) :=
  match fuel with
  | 0 => None
  | S fuel =>
      '(ok, csc) <- cmdScanner_Scan (cmm_cmdScanner cmm);
      let cmm := set_cmdScanner cmm csc in
      if ok then
        b <- lift (cmdScanner_Bytes csc);
        let cmm := set_match cmm (FindSubmatch (cmm_pat cmm) b) in
        if cmm_match cmm is Some _ then ret (true, cmm)
        else cmdMatcher_Scan_loop fuel cmm
      else ret (false, cmm)
  end.

Definition cmdMatcher_Scan (cmm : cmdMatcher) : Eff (bool * cmdMatcher) :=
  cmdMatcher_Scan_loop (S (unread (cmm_cmdScanner cmm))) (set_match cmm None).

Definition cmdMatcher_Err (cmm : cmdMatcher) : option error * cmdMatcher :=
  let '(err, csc) := cmdScanner_Err (cmm_cmdScanner cmm) in
  (err, set_cmdScanner cmm csc).

(** *** [cmdRecognizer] *)

Fixpoint cmdRecognizer_Scan_loop (fuel : nat) (cmr : cmdRecognizer)
    : Eff (bool * cmdRecognizer) :=
  match fuel with
  | 0 => None
  | S fuel =>
      '(ok, cmm) <- cmdMatcher_Scan (cmr_cmdMatcher cmr);
      let cmr := set_cmdMatcher cmr cmm in
      if ok then
        label <- lift (cmr_rec cmr cmm);
        let cmr := set_label cmr label in
        if negb (String.eqb label "") then ret (true, cmr)
        else cmdRecognizer_Scan_loop fuel cmr
      else ret (false, cmr)
  end.

Definition cmdRecognizer_Scan (cmr : cmdRecognizer) : Eff (bool * cmdRecognizer) :=
  cmdRecognizer_Scan_loop
    (S (unread (cmm_cmdScanner (cmr_cmdMatcher cmr)))) (set_label cmr "").

Definition cmdRecognizer_Cleanup (cmr : cmdRecognizer)
    (errp : option (option error))
    : Eff (cmdRecognizer * option (option error)) :=
  '(csc, errp) <- cmdScanner_Cleanup (cmm_cmdScanner (cmr_cmdMatcher cmr)) errp;
  ret (set_cmdMatcher cmr (set_cmdScanner (cmr_cmdMatcher cmr) csc), errp).

(** The value of the error variable a pointer refers to. *)
Definition deref (errp : option (option error)) : option error :=
  default None errp.

(** *** Resources and mutuals *)

Fixpoint hostResources_loop (fuel : nat) (rec : cmdRecognizer)
    (reses : gset string) : Eff (gset string * cmdRecognizer) :=
  match fuel with
  | 0 => None
  | S fuel =>
      '(ok, rec) <- cmdRecognizer_Scan rec;
      if ok
      then hostResources_loop fuel rec ({[cmdRecognizer_Label rec]} ∪ reses)
      else ret (reses, rec)
  end.

Definition hostResources (id : string) : Eff (gset string * option error) :=
  let rec :=
    recognizeCommand (exec_Command "qm" ["config"; id]) keyValPat
      labelHostResource in
  '(reses, rec) <-
    hostResources_loop
      (S (unread (cmm_cmdScanner (cmr_cmdMatcher rec)))) rec ∅;
  '(_, rerr) <- cmdRecognizer_Cleanup rec (Some None);
  ret (reses, deref rerr).

Fixpoint sharesHostResources_loop (fuel : nat) (rec : cmdRecognizer)
    (reses : gset string) : Eff (bool * cmdRecognizer) :=
  match fuel with
  | 0 => None
  | S fuel =>
      '(ok, rec) <- cmdRecognizer_Scan rec;
      if ok then
        if bool_decide (cmdRecognizer_Label rec ∈ reses) then ret (true, rec)
        else sharesHostResources_loop fuel rec reses
      else ret (false, rec)
  end.

Definition sharesHostResources (id : string) (reses : gset string)
    : Eff (bool * option error) :=
  let rec :=
    recognizeCommand (exec_Command "qm" ["config"; id]) keyValPat
      labelHostResource in
  '(hasAny, rec) <-
    sharesHostResources_loop
      (S (unread (cmm_cmdScanner (cmr_cmdMatcher rec)))) rec reses;
  '(_, rerr) <- cmdRecognizer_Cleanup rec (Some None);
  ret (hasAny, deref rerr).

Fixpoint mutuals_loop (fuel : nat) (cmm : cmdMatcher) (id : string)
    (res : gset string) (mutualIds : list listRec)
    : Eff (list listRec * option error) :=
  match fuel with
  | 0 => None
  | S fuel =>
      '(ok, cmm) <- cmdMatcher_Scan cmm;
      if ok then
        otherId <- lift (cmdMatcher_MatchText cmm 1);
        if String.eqb otherId id then mutuals_loop fuel cmm id res mutualIds
        else
          '(shares, err) <- sharesHostResources otherId res;
          match err with
          | Some e => ret ([], Some e)
          | None =>
              otherName <- lift (cmdMatcher_MatchText cmm 2);
              otherStatus <- lift (cmdMatcher_MatchText cmm 3);
              mutuals_loop fuel cmm id res
                (if shares
                 then mutualIds ++
                      [{| rec_id := otherId; rec_name := otherName;
                          rec_status := otherStatus |}]
                 else mutualIds)
          end
      else
        let '(err, cmm) := cmdMatcher_Err cmm in
        match err with
        | Some e => ret ([], Some e)
        | None => ret (mutualIds, None)
        end
  end.

Definition mutuals (id : string) : Eff (list listRec * option error) :=
  '(res, err) <- hostResources id;
  match err with
  | Some e => ret ([], Some e)
  | None =>
      let cmm := matchCommand (exec_Command "qm" ["list"]) listPat in
      '(_, cmm) <- cmdMatcher_Scan cmm;
      mutuals_loop (S (unread (cmm_cmdScanner cmm))) cmm id res []
  end.

(** *** Running commands that change something *)

(** [maybeRun] up to the moment the command is started; [true] when a
    command now runs, [false] when the call is over (dry run). *)
Definition maybeRun_start (args : list string) : Eff bool :=
  if dryRun then
    'tt <- emit (EvLog "would run %q" [FStrs args]);
    ret false
  else
    'tt <- emit (EvLog "run %q" [FStrs args]);
    _ <- lift (index args 0);
    'tt <- emit (EvRun args);
    ret true.

(** The end of [cmd.Run()]. *)
Definition maybeRun_finish (args : list string) : Eff (option error) :=
  'tt <- emit (EvRunDone args (run_result os args));
  ret (run_result os args).

Definition maybeRun (args : list string) : Eff (option error) :=
  running <- maybeRun_start args;
  if running then maybeRun_finish args else ret None.

(** *** [stopMutuals]

    The goroutines that [g.Go] starts run [maybeRun "qm" "shutdown" id];
    each is [Spawned], then [Running] while its command runs, then
    [Returning r] once [maybeRun] has returned [r] to it, and [Finished]
    once it has handed [r] to the group.  Between the end of the command
    and that last step the other goroutines go on, so that a shutdown that
    ended later can reach the group earlier.  The main goroutine ranges
    over the records and then blocks in [g.Wait] until every goroutine is
    finished.  [st_err] is the field [err] of the [errgroup.Group], written
    under its [sync.Once]: only the first error that arrives is stored (the
    earlier version of the program kept it in a channel of capacity one, by
    a send that does not block, to the same effect).  The group has neither
    a limit nor a context, so no goroutine is held back or cancelled. *)
Inductive phase := Spawned | Running | Returning (r : option error) | Finished.

Record task := {
  task_id : string;
  task_phase : phase
}.

Record stop_state := {
  st_todo : list listRec;
  st_tasks : list task;
  st_err : option error
}.

Inductive thread := Main | Task (i : nat).

Definition is_finished (t : task) : bool :=
  match task_phase t with
  | Finished => true
  | _ => false
  end.

(** The goroutines that can take a step. *)
Definition unfinished (ts : list task) : list nat :=
  List.filter
    (λ i, if ts !! i is Some t then negb (is_finished t) else false)
    (seq 0 (length ts)).

Definition enabled (st : stop_state) : list thread :=
  match st_todo st, unfinished (st_tasks st) with
  | [], _ :: _ => Task <$> unfinished (st_tasks st)
  | _, _ => Main :: (Task <$> unfinished (st_tasks st))
  end.

(** The main goroutine: one turn of the loop, or the return of [g.Wait]
    ([inr]) once the loop is over. *)
Definition step_main (st : stop_state) : Eff (stop_state + option error) :=
  match st_todo st with
  | mutual :: rest =>
      if String.eqb (rec_status mutual) "running" then
        ret (inl {| st_todo := rest;
                    st_tasks := st_tasks st ++
                                [{| task_id := rec_id mutual;
                                    task_phase := Spawned |}];
                    st_err := st_err st |})
      else if String.eqb (rec_status mutual) "stopped" then
        ret (inl {| st_todo := rest; st_tasks := st_tasks st;
                    st_err := st_err st |})
      else
        'tt <- emit (EvLog "not stopping mutual %q in unknown state %q"
                       [FStr (rec_id mutual); FStr (rec_status mutual)]);
        ret (inl {| st_todo := rest; st_tasks := st_tasks st;
                    st_err := st_err st |})
  | [] => ret (inr (st_err st))
  end.

Definition set_phase (st : stop_state) (i : nat) (t : task) (p : phase)
    : stop_state :=
  {| st_todo := st_todo st;
     st_tasks := <[i:={| task_id := task_id t; task_phase := p |}]> (st_tasks st);
     st_err := st_err st |}.

(** A goroutine hands [r] to the group, which keeps it if it is the first
    error, and is done. *)
Definition finish (st : stop_state) (i : nat) (t : task) (r : option error)
    : stop_state :=
  {| st_todo := st_todo st;
     st_tasks := <[i:={| task_id := task_id t; task_phase := Finished |}]>
                   (st_tasks st);
     st_err := match st_err st with
               | Some e => Some e
               | None => r
               end |}.

Definition step_task (st : stop_state) (i : nat) : Eff stop_state :=
  t <- lift (st_tasks st !! i);
  match task_phase t with
  | Spawned =>
      running <- maybeRun_start ["qm"; "shutdown"; task_id t];
      if running then ret (set_phase st i t Running)
      else ret (set_phase st i t (Returning None))
  | Running =>
      r <- maybeRun_finish ["qm"; "shutdown"; task_id t];
      ret (set_phase st i t (Returning r))
  | Returning r =>
      'tt <- emit (EvReturn r);
      ret (finish st i t r)
  | Finished => ret st
  end.

(** The schedule picks the thread that moves: its head, modulo the number
    of enabled threads; the first enabled thread once it is used up. *)
Fixpoint run_group (fuel : nat) (sched : list nat) (st : stop_state)
    : Eff (option error) :=
  match fuel with
  | 0 => None
  | S fuel =>
      th <- lift (enabled st !! (hd 0 sched `mod` length (enabled st)));
      match th with
      | Main =>
          next <- step_main st;
          match next with
          | inl st => run_group fuel (tl sched) st
          | inr err => ret err
          end
      | Task i =>
          st <- step_task st i;
          run_group fuel (tl sched) st
      end
  end.

(** [stopMutuals] once [mutuals] has given its records. *)
Definition stop_records (sched : list nat) (mutualRecs : list listRec)
    : Eff (option error) :=
  run_group (4 * length mutualRecs + 1) sched
    {| st_todo := mutualRecs; st_tasks := []; st_err := None |}.

Definition stopMutuals (sched : list nat) (vmid : string) : Eff (option error) :=
  '(mutualRecs, err) <- mutuals vmid;
  match err with
  | Some e => ret (Some e)
  | None => stop_records sched mutualRecs
  end.

(** *** The hook *)

Definition runHook (sched : list nat) (progName : string) (args : list string)
    : Eff (option error) :=
  if (Z.of_nat (length args) <? 2)%Z then
    ret (Some (Errorf "usage: %s <vmid> <phase>" [FStr progName]))
  else
    vmid <- lift (index args 0);
    phase <- lift (index args 1);
    if String.eqb phase "pre-start" then stopMutuals sched vmid
    else if String.eqb phase "post-start" then ret None
    else if String.eqb phase "pre-stop" then ret None
    else if String.eqb phase "post-stop" then ret None
    else ret (Some (Errorf "got unknown phase %q" [FStr phase])).

End Program.

(** ** The classification rule, stated on the key and the value *)

(** The text of [s] before its first comma, all of [s] when it has none. *)
Fixpoint until_comma (s : string) : string :=
  match s with
  | EmptyString => EmptyString
  | String a s' => if Ascii.eqb a "," then EmptyString else String a (until_comma s')
  end.

(** [strip_prefix p s] is what follows [p] in [s] when [s] begins with [p]. *)
Fixpoint strip_prefix (p s : string) : option string :=
  match p with
  | EmptyString => Some s
  | String a p' =>
      match s with
      | String b s' => if Ascii.eqb a b then strip_prefix p' s' else None
      | EmptyString => None
      end
  end.

(** The rule as the specification words it: the first [host=] anywhere in
    the value, its token running to the next comma or to the end. *)
Fixpoint find_host_anywhere (s : string) : option string :=
  match strip_prefix "host=" s with
  | Some rest => Some (until_comma rest)
  | None =>
      match s with
      | String _ s' => find_host_anywhere s'
      | EmptyString => None
      end
  end.

Definition classify_as_specified (key value : string) : string :=
  if String.prefix "hostpci" key then "hostpci:" +:+ until_comma value
  else if String.prefix "usb" key then
    match find_host_anywhere value with
    | Some tok => "hostusb:" +:+ tok
    | None => ""
    end
  else "".

(** The rule as the program applies it: [host=] counts only where no
    letter, digit or underscore stands before it, and only with a token
    that is not empty; the leftmost such place gives the token. *)
Definition host_token (s : string) : option string :=
  match strip_prefix "host=" s with
  | Some rest =>
      if String.eqb (until_comma rest) "" then None else Some (until_comma rest)
  | None => None
  end.

Fixpoint find_host (prev : option ascii) (s : string) : option string :=
  match (if is_word_at prev then None else host_token s) with
  | Some tok => Some tok
  | None =>
      match s with
      | String c s' => find_host (Some c) s'
      | EmptyString => None
      end
  end.

Definition classify (key value : string) : string :=
  if String.prefix "hostpci" key then "hostpci:" +:+ until_comma value
  else if String.prefix "usb" key then
    match find_host None value with
    | Some tok => "hostusb:" +:+ tok
    | None => ""
    end
  else "".

(** A matcher that holds the match of [keyValPat] on one line. *)
Definition line_matcher (line : string) : cmdMatcher :=
  set_match (matchCommand (exec_Command "qm" ["config"; "100"]) keyValPat)
    (FindSubmatch keyValPat (Some line)).

(** The length of the longest prefix of [s] within the class. *)
Fixpoint span (cls : ascii → bool) (s : string) : nat :=
  match s with
  | String c s' => if cls c then S (span cls s') else 0
  | EmptyString => 0
  end.

(** The bytes before the rest of the input once [p] has been read. *)
Fixpoint prev_after (prev : option ascii) (p : string) : option ascii :=
  match p with
  | EmptyString => prev
  | String a p' => prev_after (Some a) p'
  end.

(** The offsets recorded by a match of [usbHostPat] that starts at [p] and
    whose token has length [n]. *)
Definition host_caps (p n : nat) : gmap nat nat :=
  <[1:=p + 5 + n]> (<[3:=p + 5 + n]> (<[2:=p + 5]> {[0 := p]})).


(** ** Concrete worlds *)

(** A command that starts, prints [lines] and exits with status zero. *)
Definition prints (lines : list string) : behaviour :=
  {| pipe_err := None; start_err := None; output := lines;
     read_err := None; wait_err := λ _, None |}.

(** The listing of three guests under the header of [qm list]; guests 101
    and 102 are given the same PCI device, 101 and 103 the same USB port. *)
Definition three_guests : world :=
  {| command := λ args,
       if bool_decide (args = ["qm"; "list"]) then
         prints
           ["      VMID NAME                 STATUS     MEM(MB)    BOOTDISK(GB) PID       ";
            "       101 winvm                running    4096              32.00 1234      ";
            "       102 linvm                stopped    4096              32.00 0         ";
            "       103 other                running    2048              16.00 999       "]
       else if bool_decide (args = ["qm"; "config"; "101"]) then
         prints ["boot: order=scsi0"; "hostpci0: 0000:01:00.0,pcie=1";
                 "usb0: host=1-1.2"]
       else if bool_decide (args = ["qm"; "config"; "102"]) then
         prints ["hostpci0: 0000:01:00.0"; "usb0: spice"]
       else if bool_decide (args = ["qm"; "config"; "103"]) then
         prints ["memory: 2048"; "usb1: host=1-1.2,usb3=1"]
       else prints [];
     run_result := λ _, None |}.

(** ** Traces *)

(** The events of scanning a command. *)
Definition scan_event (e : event) : Prop :=
  match e with
  | EvStart _ | EvKill _ | EvWait _ => True
  | _ => False
  end.

(** ** Commands that succeed *)

(** Every command starts, is read to its end without an error, and, once
    killed and reaped, reports either a normal exit or its death by the kill
    signal. *)
Definition succeeds (os : world) : Prop :=
  ∀ args,
    pipe_err (command os args) = None
    ∧ start_err (command os args) = None
    ∧ read_err (command os args) = None
    ∧ ∀ n, wait_err (command os args) n = None
           ∨ isKillError (wait_err (command os args) n) = true.

(** A scanner without a recorded error whose command is either not started
    or started, not reaped, and read through a scanner that will meet no
    error. *)
Definition good (csc : cmdScanner) : Prop :=
  csc_err csc = None
  ∧ ∃ c, csc_cmd csc = Some c
         ∧ ProcessState c = false
         ∧ match csc_Scanner csc with
           | None => Process c = false
           | Some sc => Process c = true ∧ final_err sc = None
           end.

(** The matches of a pattern on the lines that have one. *)
Definition matches (pat : regexp) (lines : list string) : list (list bytes) :=
  omap (λ l, FindSubmatch pat (Some l)) lines.

(** The text of slot [i] of a match, as [MatchText] gives it. *)
Definition slot_text (m : list bytes) (i : nat) : string :=
  match m !! i with
  | Some b => string_of b
  | None => ""%string
  end.

(** The guests that the listing reports: the ids of the lines that
    [listPat] matches, the first of them, the header, left out. *)
Definition listed (os : world) (id : string) : Prop :=
  ∃ m, m ∈ tail (matches listPat (output (command os ["qm"; "list"])))
       ∧ slot_text m 1 = id.

(** A record of another guest than [id]. *)
Definition not_self (id : string) (r : listRec) : Prop := rec_id r ≠ id.

(** ** The events of [stopMutuals] *)

Definition shutdown_args (id : string) : list string := ["qm"; "shutdown"; id].

(** What the goroutine of [maybeRun "qm" "shutdown" id] causes up to the
    start of the command, and what it causes after that: the end of the
    command and the handing of its result to the group. *)
Definition start_events (dryRun : bool) (id : string) : list event :=
  if dryRun then [EvLog "would run %q" [FStrs (shutdown_args id)]]
  else [EvLog "run %q" [FStrs (shutdown_args id)]; EvRun (shutdown_args id)].

Definition finish_events (os : world) (dryRun : bool) (id : string)
    : list event :=
  if dryRun then [EvReturn None]
  else [EvRunDone (shutdown_args id) (run_result os (shutdown_args id));
        EvReturn (run_result os (shutdown_args id))].

(** All that one record causes: a shutdown by a goroutine of its own, which
    then reports to the group, when its status is [running], nothing when
    it is [stopped], one line of log otherwise. *)
Definition record_events (os : world) (dryRun : bool) (r : listRec)
    : list event :=
  if String.eqb (rec_status r) "running" then
    start_events dryRun (rec_id r) ++ finish_events os dryRun (rec_id r)
  else if String.eqb (rec_status r) "stopped" then []
  else [EvLog "not stopping mutual %q in unknown state %q"
          [FStr (rec_id r); FStr (rec_status r)]].

(** What a goroutine has still to do. *)
Definition task_events (os : world) (dryRun : bool) (t : task) : list event :=
  match task_phase t with
  | Spawned =>
      start_events dryRun (task_id t) ++ finish_events os dryRun (task_id t)
  | Running =>
      [EvRunDone (shutdown_args (task_id t))
         (run_result os (shutdown_args (task_id t)));
       EvReturn (run_result os (shutdown_args (task_id t)))]
  | Returning r => [EvReturn r]
  | Finished => []
  end.

Definition future (os : world) (dryRun : bool) (st : stop_state) : list event :=
  (st_todo st ≫= record_events os dryRun)
  ++ (st_tasks st ≫= task_events os dryRun).

(** A bound on the steps a state can still take. *)
Definition task_weight (t : task) : nat :=
  match task_phase t with
  | Spawned => 3
  | Running => 2
  | Returning _ => 1
  | Finished => 0
  end.

Definition weight (st : stop_state) : nat :=
  4 * length (st_todo st) + sum_list_with task_weight (st_tasks st) + 1.

(** The commands a trace starts, the commands it sees end, and what the
    goroutines handed to their group, each in the order of the trace. *)
Definition requests (t : list event) : list (list string) :=
  omap (λ e, match e with EvRun a => Some a | _ => None end) t.

Definition finished (t : list event) : list (list string) :=
  omap (λ e, match e with EvRunDone a _ => Some a | _ => None end) t.

Definition returned (t : list event) : list (option error) :=
  omap (λ e, match e with EvReturn r => Some r | _ => None end) t.

(** What the goroutine of a shutdown returns. *)
Definition shutdown_outcome (os : world) (dryRun : bool) (id : string)
    : option error :=
  if dryRun then None else run_result os (shutdown_args id).

(** The first error of a list of results. *)
Fixpoint first_error (rs : list (option error)) : option error :=
  match rs with
  | [] => None
  | Some e :: _ => Some e
  | None :: rs => first_error rs
  end.

Definition is_running (r : listRec) : bool :=
  String.eqb (rec_status r) "running".

(** ** Sequences of operations on a scanner *)

Inductive scan_op :=
| OpScan
| OpErr
| OpCleanup (errp : option (option error)).

(** The scanner after one operation, [None] when the operation panics. *)
Definition apply_op (os : world) (op : scan_op) (csc : cmdScanner)
    : option cmdScanner :=
  match op with
  | OpScan => (λ r, r.1.2) <$> cmdScanner_Scan os csc
  | OpErr => Some (cmdScanner_Err csc).2
  | OpCleanup errp => (λ r, r.1.1) <$> cmdScanner_Cleanup os csc errp
  end.

Fixpoint apply_ops (os : world) (ops : list scan_op) (csc : cmdScanner)
    : option cmdScanner :=
  match ops with
  | [] => Some csc
  | op :: ops => apply_op os op csc ≫= apply_ops os ops
  end.

(** ** More concrete worlds *)

(** A command that cannot be started. *)
Definition no_such_command : behaviour :=
  {| pipe_err := None;
     start_err := Some (ErrorString "exec: qm: executable file not found");
     output := []; read_err := None; wait_err := λ _, None |}.

(** A command whose output breaks off with a read error and which exits
    with status 1. *)
Definition broken_pipe (lines : list string) : behaviour :=
  {| pipe_err := None; start_err := None; output := lines;
     read_err := Some (ErrorString "read |0: input/output error");
     wait_err := λ _, Some (ExitError 256) |}.

Definition nothing_starts : world :=
  {| command := λ _, no_such_command; run_result := λ _, None |}.

(** Commands that die of the kill signal when they are reaped with output
    left unread. *)
Definition killed_when_unread (lines : list string) : behaviour :=
  {| pipe_err := None; start_err := None; output := lines; read_err := None;
     wait_err := λ n, if n =? 0 then None else Some (ExitError 9) |}.

Definition long_configs : world :=
  {| command := λ _, killed_when_unread
                       ["hostpci0: 0000:01:00.0"; "memory: 4096"; "cores: 4"];
     run_result := λ _, None |}.

(** A scanner of [long_configs] that has read one line. *)
Definition one_line_read : cmdScanner :=
  {| csc_cmd := Some {| Args := ["qm"; "config"; "101"]; Process := true;
                        ProcessState := false |};
     csc_err := None;
     csc_Scanner := Some {| pending := ["memory: 4096"; "cores: 4"];
                            token := Some "hostpci0: 0000:01:00.0"%string;
                            exhausted := false; final_err := None |} |}.

(** ** The end of a scanned command *)

(** An error of [Wait] that tells of a death by the kill signal: the first
    exit error on its chain of wrapped errors has a wait status with the
    number 9 in its low seven bits. *)
Definition kill_exit (werr : option error) : Prop :=
  ∃ e w, werr = Some e ∧ As_ExitError e = Some w ∧ Z.land w 0x7F = 9%Z.

(** How a process came to its end, as the specification tells the cases
    apart: by itself with an exit code, or by a signal that [Cleanup] or
    someone else sent it (the kernel short of memory, an operator). *)
Inductive ending :=
| Exited (code : Z)
| Signalled (sig : Z) (by_cleanup : bool).

(** What [Wait] returns for an ending: the wait status holds the exit code
    or the number of the signal, and nothing on who sent it. *)
Definition wait_result (e : ending) : option error :=
  match e with
  | Exited code =>
      if (code =? 0)%Z then None else Some (ExitError (code * 256))
  | Signalled sig _ => Some (ExitError sig)
  end.

(** The error of [Cleanup] on a scanner that holds none, as specified:
    nothing when the process died of the kill signal that [Cleanup] sent,
    what [Wait] returns for every other end. *)
Definition report_as_specified (e : ending) : option error :=
  match e with
  | Signalled sig true => if (sig =? 9)%Z then None else wait_result e
  | _ => wait_result e
  end.

(** A command that prints [lines] and comes to the end [e]. *)
Definition ends_by (e : ending) (lines : list string) : behaviour :=
  {| pipe_err := None; start_err := None; output := lines; read_err := None;
     wait_err := λ _, wait_result e |}.

(** Commands that the kernel kills, being short of memory, once they have
    printed their line, and commands that exit by themselves with the
    code 1. *)
Definition killed_by_kernel : world :=
  {| command := λ _, ends_by (Signalled 9 false) ["boot: order=scsi0"];
     run_result := λ _, None |}.

Definition exits_with_1 : world :=
  {| command := λ _, ends_by (Exited 1) ["boot: order=scsi0"];
     run_result := λ _, None |}.

(** A scanner that has read the one line of such a command and then met
    the end of its output. *)
Definition all_read : cmdScanner :=
  {| csc_cmd := Some {| Args := ["qm"; "config"; "101"]; Process := true;
                        ProcessState := false |};
     csc_err := None;
     csc_Scanner := Some {| pending := []; token := None; exhausted := true;
                            final_err := None |} |}.

(** Two running mutuals whose shutdowns both fail. *)
Definition two_failures : world :=
  {| command := λ _, prints [];
     run_result := λ args,
       if bool_decide (args = shutdown_args "103") then Some (ExitError 256)
       else Some (ExitError 512) |}.

Definition two_running : list listRec :=
  [{| rec_id := "103"; rec_name := "other"; rec_status := "running" |};
   {| rec_id := "104"; rec_name := "spare"; rec_status := "running" |}].

(** A scanner whose reader met an error that [Err] has recorded, on a
    command that will exit with status 1. *)
Definition read_failed : cmdScanner :=
  {| csc_cmd := Some {| Args := ["qm"; "config"; "101"]; Process := true;
                        ProcessState := false |};
     csc_err := Some (Wrapf "io error: %w" []
                        (ErrorString "read |0: input/output error"));
     csc_Scanner := Some {| pending := []; token := None; exhausted := true;
                            final_err :=
                              Some (ErrorString "read |0: input/output error") |} |}.

Definition pipes_break : world :=
  {| command := λ _, broken_pipe ["boot: order=scsi0"];
     run_result := λ _, None |}.

(** The matcher of the listing of [three_guests] once it has read the
    header, and once it has read the line of guest 101. *)
Definition listing_at_header : cmdMatcher :=
  {| cmm_cmdScanner :=
       {| csc_cmd := Some {| Args := ["qm"; "list"]; Process := true;
                             ProcessState := false |};
          csc_err := None;
          csc_Scanner :=
            Some {| pending :=
                      ["       101 winvm                running    4096              32.00 1234      ";
                       "       102 linvm                stopped    4096              32.00 0         ";
                       "       103 other                running    2048              16.00 999       "];
                    token := Some "      VMID NAME                 STATUS     MEM(MB)    BOOTDISK(GB) PID       "%string;
                    exhausted := false; final_err := None |} |};
     cmm_pat := listPat;
     cmm_match := Some [Some "VMID NAME                 STATUS     "%string;
                        Some "VMID"%string; Some "NAME"%string;
                        Some "STATUS"%string] |}.

Definition listing_at_101 : cmdMatcher :=
  {| cmm_cmdScanner :=
       {| csc_cmd := Some {| Args := ["qm"; "list"]; Process := true;
                             ProcessState := false |};
          csc_err := None;
          csc_Scanner :=
            Some {| pending :=
                      ["       102 linvm                stopped    4096              32.00 0         ";
                       "       103 other                running    2048              16.00 999       "];
                    token := Some "       101 winvm                running    4096              32.00 1234      "%string;
                    exhausted := false; final_err := None |} |};
     cmm_pat := listPat;
     cmm_match := Some [Some "101 winvm                running    "%string;
                        Some "101"%string; Some "winvm"%string;
                        Some "running"%string] |}.

(** ** The rest of the program *)

(** [hasString] *)
Fixpoint hasString (wanted : string) (ss : list string) : bool :=
  match ss with
  | [] => false
  | s :: ss => if String.eqb s wanted then true else hasString wanted ss
  end.

(** [strings.Split(s, sep)] for a separator of one byte: the pieces of [s]
    between the separators, [[""]] for the empty string. *)
Fixpoint Split (s : string) (sep : ascii) : list string :=
  match s with
  | EmptyString => [EmptyString]
  | String c s' =>
      if Ascii.eqb c sep then EmptyString :: Split s' sep
      else
        match Split s' sep with
        | piece :: pieces => String c piece :: pieces
        | [] => [String c EmptyString]
        end
  end.

(** An element of the list that [findSnippets] decodes from the output of
    [pvesh get /storage]. *)
Record storage := {
  Name : string;
  Content : string;
  Path : string
}.

(** The loop of [findSnippets] over the decoded list. *)
Fixpoint findSnippets_loop (stores : list storage) : string * string :=
  match stores with
  | [] => (""%string, ""%string)
  | st :: stores =>
      if String.eqb (Path st) "" then findSnippets_loop stores
      else if negb (hasString "snippets" (Split (Content st) ","))
      then findSnippets_loop stores
      else (Name st, Path st)
  end.

Section Callers.

Variable os : world.
Variable dryRun : bool.

(** [Err] and [Cleanup] as the matcher and the recognizer have them from the
    scanner they embed. *)
Definition cmdRecognizer_Err (cmr : cmdRecognizer)
    : option error * cmdRecognizer :=
  let '(err, cmm) := cmdMatcher_Err (cmr_cmdMatcher cmr) in
  (err, set_cmdMatcher cmr cmm).

Definition cmdMatcher_Cleanup (cmm : cmdMatcher) (errp : option (option error))
    : Eff (cmdMatcher * option (option error)) :=
  '(csc, errp) <- cmdScanner_Cleanup os (cmm_cmdScanner cmm) errp;
  ret (set_cmdScanner cmm csc, errp).

Definition shouldHook (id : string) : Eff (bool * option error) :=
  let rec :=
    recognizeCommand (exec_Command "qm" ["config"; id]) keyValPat
      labelHostResource in
  '(should, rec) <- cmdRecognizer_Scan os rec;
  let '(err, _) := cmdRecognizer_Err rec in
  ret (should, err).

Definition matchCommandOnce (cmd : Cmd) (pat : regexp)
    : Eff (string * option error) :=
  let cmm :=
    {| cmm_cmdScanner :=
         {| csc_cmd := Some cmd; csc_err := None; csc_Scanner := None |};
       cmm_pat := pat; cmm_match := None |} in
  '(_, cmm) <- cmdMatcher_Scan os cmm;
  text <- lift (cmdMatcher_MatchText cmm 1);
  '(_, rerr) <- cmdMatcher_Cleanup cmm (Some None);
  ret (text, deref rerr).

(** A caller that reads a scanner to its end,
    [for csc.Scan() { lines = append(lines, csc.Bytes()) }], and one that
    collects the matches of a matcher in the same way. *)
Fixpoint read_lines_loop (fuel : nat) (csc : cmdScanner) (lines : list bytes)
    : Eff (list bytes * cmdScanner) :=
  match fuel with
  | 0 => None
  | S fuel =>
      '(ok, csc) <- cmdScanner_Scan os csc;
      if ok then
        b <- lift (cmdScanner_Bytes csc);
        read_lines_loop fuel csc (lines ++ [b])
      else ret (lines, csc)
  end.

Definition read_lines (csc : cmdScanner) : Eff (list bytes * cmdScanner) :=
  read_lines_loop (S (unread os csc)) csc [].

Fixpoint read_matches_loop (fuel : nat) (cmm : cmdMatcher)
    (found : list (list bytes)) : Eff (list (list bytes) * cmdMatcher) :=
  match fuel with
  | 0 => None
  | S fuel =>
      '(ok, cmm) <- cmdMatcher_Scan os cmm;
      if ok then read_matches_loop fuel cmm (found ++ [match_slots cmm])
      else ret (found, cmm)
  end.

Definition read_matches (cmm : cmdMatcher)
    : Eff (list (list bytes) * cmdMatcher) :=
  read_matches_loop (S (unread os (cmm_cmdScanner cmm))) cmm [].

End Callers.

(** ** Scanners at work *)

(** A command the way [Start] leaves it. *)
Definition started (c : Cmd) : Cmd :=
  {| Args := Args c; Process := true; ProcessState := ProcessState c |}.

(** The error that keeps a command from running, if any. *)
Definition launch_err (b : behaviour) : option error :=
  match pipe_err b with
  | Some e => Some e
  | None => start_err b
  end.

(** The scanner of a running command [c] that holds [tok] and has [rest]
    still to read; [ex] tells whether it met the end of the output. *)
Definition scanning (c : Cmd) (fe : option error) (tok : bytes) (ex : bool)
    (rest : list string) : cmdScanner :=
  {| csc_cmd := Some c; csc_err := None;
     csc_Scanner := Some {| pending := rest; token := tok; exhausted := ex;
                            final_err := fe |} |}.

(** The scanner after a [Scan] that had [lines] to read. *)
Definition scanned (c : Cmd) (fe : option error) (lines : list string)
    : bool * cmdScanner :=
  match lines with
  | l :: rest => (true, scanning c fe (Some l) false rest)
  | [] => (false, scanning c fe None true [])
  end.

(** The first of [lines] that [pat] matches: its slots, the line and the
    lines after it. *)
Fixpoint next_match (pat : regexp) (lines : list string)
    : option (list bytes * string * list string) :=
  match lines with
  | [] => None
  | l :: rest =>
      match FindSubmatch pat (Some l) with
      | Some m => Some (m, l, rest)
      | None => next_match pat rest
      end
  end.

Definition matching (c : Cmd) (fe : option error) (tok : bytes) (ex : bool)
    (rest : list string) (pat : regexp) (m : option (list bytes)) : cmdMatcher :=
  {| cmm_cmdScanner := scanning c fe tok ex rest; cmm_pat := pat;
     cmm_match := m |}.

(** The matcher after a [Scan] that had [lines] to read. *)
Definition matched (c : Cmd) (fe : option error) (pat : regexp)
    (lines : list string) : bool * cmdMatcher :=
  match next_match pat lines with
  | Some (m, l, rest) => (true, matching c fe (Some l) false rest pat (Some m))
  | None => (false, matching c fe None true [] pat None)
  end.

(** The label of a line of configuration, [""] without one. *)
Definition line_label (line : string) : string :=
  match FindSubmatch keyValPat (Some line) with
  | Some m => classify (slot_text m 1) (slot_text m 2)
  | None => ""%string
  end.

Definition has_label (line : string) : bool :=
  negb (String.eqb (line_label line) "").

(** The labels of a configuration, in the order of its lines. *)
Definition config_labels (lines : list string) : list string :=
  line_label <$> List.filter has_label lines.

(** A storage that [findSnippets] accepts: it has a path, and [snippets]
    is one of the comma-separated kinds of content it takes. *)
Definition offers_snippets (st : storage) : Prop :=
  Path st ≠ ""%string ∧ "snippets"%string ∈ Split (Content st) ",".

(** What [pvesh get /storage] may list: a directory with snippets enabled
    after storages that do not qualify. *)
Definition some_storages : list storage :=
  [{| Name := "local-lvm"; Content := "rootdir,images"; Path := "" |};
   {| Name := "backup"; Content := "backup,snippets-old";
      Path := "/mnt/backup" |};
   {| Name := "local"; Content := "iso,snippets,vztmpl"; Path := "/var/lib/vz" |};
   {| Name := "nfs"; Content := "snippets"; Path := "/mnt/nfs" |}].

(** The first of [lines] that has a label, and the lines after it. *)
Fixpoint next_labelled (lines : list string) : option (string * list string) :=
  match lines with
  | [] => None
  | l :: rest => if has_label l then Some (l, rest) else next_labelled rest
  end.

Definition recognizing (c : Cmd) (fe : option error) (tok : bytes) (ex : bool)
    (rest : list string) (m : option (list bytes)) (label : string)
    : cmdRecognizer :=
  {| cmr_cmdMatcher := matching c fe tok ex rest keyValPat m;
     cmr_rec := labelHostResource; cmr_label := label |}.

(** The recognizer of host resources after a [Scan] that had [lines] to
    read. *)
Definition recognized (c : Cmd) (fe : option error) (lines : list string)
    : bool * cmdRecognizer :=
  match next_labelled lines with
  | Some (l, rest) =>
      (true, recognizing c fe (Some l) false rest
               (FindSubmatch keyValPat (Some l)) (line_label l))
  | None => (false, recognizing c fe None true [] None "")
  end.

(** What [Cleanup] finds wrong with a command that was read by a scanner
    with the final error [fe], the scanner having met the end of the output
    or not ([ex]), and [n] lines being left unread: the error of the reader,
    or else the exit error, unless that tells of the kill signal. *)
Definition cleanup_report (b : behaviour) (fe : option error) (ex : bool)
    (n : nat) : option error :=
  match (if ex then fe else None) with
  | Some e => Some (Wrapf "io error: %w" [] e)
  | None => if isKillError (wait_err b n) then None else wait_err b n
  end.

(** The error that [Cleanup] stores through its pointer. *)
Definition command_failed (args : list string) (e : error) : error :=
  Wrapf "command %q failed: %w" [FStrs args] e.

(** The first of [lines] whose label is in [reses], and the lines after
    it. *)
Fixpoint next_shared (reses : gset string) (lines : list string)
    : option (string * list string) :=
  match lines with
  | [] => None
  | l :: rest =>
      if has_label l && bool_decide (line_label l ∈ reses) then Some (l, rest)
      else next_shared reses rest
  end.

(** The resources that the configuration of a guest names. *)
Definition resources (os : world) (id : string) : gset string :=
  list_to_set (config_labels (output (command os ["qm"; "config"; id]))).

(** The record that [mutuals] makes of a line of the listing, if any: none
    for the guest [id] itself and for a guest that shares nothing with
    it. *)
Definition mutual_of (os : world) (id : string) (m : list bytes)
    : option listRec :=
  if String.eqb (slot_text m 1) id then None
  else if bool_decide (resources os (slot_text m 1) ∩ resources os id ≠ ∅)
  then Some {| rec_id := slot_text m 1; rec_name := slot_text m 2;
               rec_status := slot_text m 3 |}
  else None.

(** Two guests that are given the same PCI device, the configuration of
    the second one being out of reach. *)
Definition config_unreadable : world :=
  {| command := λ args,
       if bool_decide (args = ["qm"; "list"]) then
         prints
           ["      VMID NAME                 STATUS     MEM(MB)    BOOTDISK(GB) PID       ";
            "       101 winvm                running    4096              32.00 1234      ";
            "       102 linvm                running    4096              32.00 777       "]
       else if bool_decide (args = ["qm"; "config"; "102"]) then no_such_command
       else prints ["hostpci0: 0000:01:00.0"];
     run_result := λ _, None |}.

(** ** Lines in columns *)

(** Every byte of [s] is in the class; the first byte of [s] is. *)
Fixpoint all_in (cls : ascii → bool) (s : string) : bool :=
  match s with
  | EmptyString => true
  | String c s' => cls c && all_in cls s'
  end.

Definition starts_in (cls : ascii → bool) (s : string) : bool :=
  match s with
  | String c _ => cls c
  | EmptyString => false
  end.

(** A byte of a key: any byte but the colon and the line feed. *)
Definition key_byte (c : ascii) : bool := dot c && negb (Ascii.eqb c ":").

(** The events of reading the configuration of a guest. *)
Definition config_event (e : event) : Prop :=
  match e with
  | EvStart a | EvKill a | EvWait a => ∃ id, a = ["qm"; "config"; id]
  | _ => False
  end.

(** ** Setting the hookscript

    The part of [runInit] that follows the copy of the executable: a
    goroutine lists the guests and starts, for each line of the listing
    after the first, a goroutine that sets the hookscript of the guest if
    [shouldHook] says so; [g.Wait] returns once all of them have returned,
    with the first error that one of them handed to the group.  A goroutine
    is
    [ToCheck] before its call of [shouldHook], [ToSet] before it calls
    [maybeRun], [Setting] while the command runs, [Leaving r] once its
    function is about to return [r], and [Returned] once it has handed [r]
    to the group; the lister is [Unborn] before [g.Go] has started it,
    [AtHeader] before the call of [Scan] that skips the header, [InLoop]
    before a call of [Scan] of its loop, [Ending err] once [cmm.Err()] has
    given it the [err] it returns, and [Over] once it has handed that to
    the group.  The other goroutines go on between the moment a goroutine
    has its result and the moment the group gets it. *)
Inductive hook_phase :=
| ToCheck
| ToSet
| Setting
| Leaving (r : option error)
| Returned.

Record hook_task := {
  hook_id : string;
  hook_phase_of : hook_phase
}.

Inductive lister :=
| Unborn
| AtHeader (cmm : cmdMatcher)
| InLoop (cmm : cmdMatcher)
| Ending (err : option error)
| Over.

Record init_state := {
  in_lister : lister;
  in_tasks : list hook_task;
  in_err : option error
}.

Inductive init_thread := InitMain | Lister | Hook (i : nat).

Definition is_returned (t : hook_task) : bool :=
  match hook_phase_of t with
  | Returned => true
  | _ => false
  end.

(** The error of the group once a goroutine has handed it [r]. *)
Definition keep_first (err r : option error) : option error :=
  match err with
  | Some e => Some e
  | None => r
  end.

Section Init.

Variable os : world.
Variable dryRun : bool.
Variable hookScript : string.

Definition hookscript_args (id : string) : list string :=
  ["qm"; "set"; id; "--hookscript"; hookScript].

Definition unreturned (ts : list hook_task) : list nat :=
  List.filter
    (λ i, if ts !! i is Some t then negb (is_returned t) else false)
    (seq 0 (length ts)).

(** The goroutines that can take a step: the main one starts the lister
    and then is blocked in [g.Wait] until all the others have returned. *)
Definition init_enabled (st : init_state) : list init_thread :=
  match in_lister st with
  | Unborn => [InitMain]
  | AtHeader _ | InLoop _ | Ending _ =>
      Lister :: (Hook <$> unreturned (in_tasks st))
  | Over =>
      match unreturned (in_tasks st) with
      | [] => [InitMain]
      | _ :: _ => Hook <$> unreturned (in_tasks st)
      end
  end.

Definition init_step_main (st : init_state) : Eff (init_state + option error) :=
  match in_lister st with
  | Unborn =>
      ret (inl {| in_lister :=
                    AtHeader (matchCommand (exec_Command "qm" ["list"]) listPat);
                  in_tasks := in_tasks st; in_err := in_err st |})
  | _ => ret (inr (in_err st))
  end.

(** One step of the lister: its next state, the ids of the guests for
    which it starts a goroutine, and the error it hands to the group when
    it ends. *)
Definition lister_step (l : lister) : Eff (lister * list string * option error) :=
  match l with
  | AtHeader cmm =>
      '(_, cmm) <- cmdMatcher_Scan os cmm;
      ret (InLoop cmm, [], None)
  | InLoop cmm =>
      '(ok, cmm) <- cmdMatcher_Scan os cmm;
      if ok then
        id <- lift (cmdMatcher_MatchText cmm 1);
        ret (InLoop cmm, [id], None)
      else
        let '(err, _) := cmdMatcher_Err cmm in
        ret (Ending err, [], None)
  | Ending err =>
      'tt <- emit (EvReturn err);
      ret (Over, [], err)
  | Unborn | Over => ret (l, [], None)
  end.

Definition init_step_lister (st : init_state) : Eff init_state :=
  '(l, ids, err) <- lister_step (in_lister st);
  ret {| in_lister := l;
         in_tasks := in_tasks st
                     ++ ((λ id, {| hook_id := id; hook_phase_of := ToCheck |})
                         <$> ids);
         in_err := keep_first (in_err st) err |}.

Definition hook_set_phase (st : init_state) (i : nat) (t : hook_task)
    (p : hook_phase) : init_state :=
  {| in_lister := in_lister st;
     in_tasks := <[i:={| hook_id := hook_id t; hook_phase_of := p |}]>
                   (in_tasks st);
     in_err := in_err st |}.

Definition hook_return (st : init_state) (i : nat) (t : hook_task)
    (r : option error) : init_state :=
  {| in_lister := in_lister st;
     in_tasks := <[i:={| hook_id := hook_id t; hook_phase_of := Returned |}]>
                   (in_tasks st);
     in_err := keep_first (in_err st) r |}.

Definition init_step_hook (st : init_state) (i : nat) : Eff init_state :=
  t <- lift (in_tasks st !! i);
  match hook_phase_of t with
  | ToCheck =>
      '(should, err) <- shouldHook os (hook_id t);
      match err with
      | Some e => ret (hook_set_phase st i t (Leaving (Some e)))
      | None =>
          if should then ret (hook_set_phase st i t ToSet)
          else ret (hook_set_phase st i t (Leaving None))
      end
  | ToSet =>
      running <- maybeRun_start dryRun (hookscript_args (hook_id t));
      if running then ret (hook_set_phase st i t Setting)
      else ret (hook_set_phase st i t (Leaving None))
  | Setting =>
      r <- maybeRun_finish os (hookscript_args (hook_id t));
      ret (hook_set_phase st i t (Leaving r))
  | Leaving r =>
      'tt <- emit (EvReturn r);
      ret (hook_return st i t r)
  | Returned => ret st
  end.

Fixpoint run_init (fuel : nat) (sched : list nat) (st : init_state)
    : Eff (option error) :=
  match fuel with
  | 0 => None
  | S fuel =>
      th <- lift (init_enabled st
                  !! (hd 0 sched `mod` length (init_enabled st)));
      match th with
      | InitMain =>
          next <- init_step_main st;
          match next with
          | inl st => run_init fuel (tl sched) st
          | inr err => ret err
          end
      | Lister =>
          st <- init_step_lister st;
          run_init fuel (tl sched) st
      | Hook i =>
          st <- init_step_hook st i;
          run_init fuel (tl sched) st
      end
  end.

(** [runInit] from [g := new(errgroup.Group)] on. *)
Definition runInit_hooks (sched : list nat) : Eff (option error) :=
  run_init (5 * length (output (command os ["qm"; "list"])) + 5) sched
    {| in_lister := Unborn; in_tasks := []; in_err := None |}.

(** *** The lister and the hooks, each on its own *)

(** The lister run to its end: the ids it meets and the error it hands to
    the group. *)
Fixpoint lister_run (fuel : nat) (l : lister)
    : Eff (list string * option error) :=
  match fuel with
  | 0 => None
  | S fuel =>
      match l with
      | Unborn =>
          lister_run fuel
            (AtHeader (matchCommand (exec_Command "qm" ["list"]) listPat))
      | Over => ret ([], None)
      | _ =>
          '(l', ids, err) <- lister_step l;
          match l' with
          | Over => ret (ids, err)
          | _ =>
              '(ids', err') <- lister_run fuel l';
              ret (ids ++ ids', err')
          end
      end
  end.

(** What [shouldHook] answers and causes for a guest. *)
Definition hook_check (id : string) : bool * option error * list event :=
  match shouldHook os id with
  | Some r => r
  | None => ((false, None), [])
  end.

(** Whether the hookscript of a guest is set. *)
Definition hooked (id : string) : bool :=
  match hook_check id with
  | ((true, None), _) => true
  | _ => false
  end.

Definition set_events (id : string) : list event :=
  if dryRun then [EvLog "would run %q" [FStrs (hookscript_args id)]]
  else [EvLog "run %q" [FStrs (hookscript_args id)];
        EvRun (hookscript_args id);
        EvRunDone (hookscript_args id) (run_result os (hookscript_args id))].

Definition set_outcome (id : string) : option error :=
  if dryRun then None else run_result os (hookscript_args id).

(** The error the goroutine of a guest returns, and what it causes from
    its start to the moment the group has that error. *)
Definition guest_outcome (id : string) : option error :=
  match hook_check id with
  | ((_, Some e), _) => Some e
  | ((true, None), _) => set_outcome id
  | ((false, None), _) => None
  end.

Definition guest_events (id : string) : list event :=
  (hook_check id).2 ++ (if hooked id then set_events id else [])
  ++ [EvReturn (guest_outcome id)].

(** What a goroutine has still to cause. *)
Definition hook_events (t : hook_task) : list event :=
  match hook_phase_of t with
  | ToCheck => guest_events (hook_id t)
  | ToSet => set_events (hook_id t) ++ [EvReturn (set_outcome (hook_id t))]
  | Setting =>
      [EvRunDone (hookscript_args (hook_id t))
         (run_result os (hookscript_args (hook_id t)));
       EvReturn (run_result os (hookscript_args (hook_id t)))]
  | Leaving r => [EvReturn r]
  | Returned => []
  end.

(** A bound on the steps a state can still take. *)
Definition hook_weight (t : hook_task) : nat :=
  match hook_phase_of t with
  | ToCheck => 4
  | ToSet => 3
  | Setting => 2
  | Leaving _ => 1
  | Returned => 0
  end.

Definition lister_weight (l : lister) : nat :=
  match l with
  | Unborn => 5 * length (output (command os ["qm"; "list"])) + 4
  | AtHeader cmm => 5 * unread os (cmm_cmdScanner cmm) + 3
  | InLoop cmm => 5 * unread os (cmm_cmdScanner cmm) + 2
  | Ending _ => 1
  | Over => 0
  end.

Definition init_weight (st : init_state) : nat :=
  lister_weight (in_lister st) + sum_list_with hook_weight (in_tasks st) + 1.

(** The lister at work. *)
Definition lister_alive (l : lister) : Prop :=
  match l with
  | AtHeader _ | InLoop _ | Ending _ => True
  | Unborn | Over => False
  end.

(** The guests of the listing, as the lister meets them, the error it
    ends with, and what it causes up to the moment the group has that
    error. *)
Definition listing_ids : list string :=
  match launch_err (command os ["qm"; "list"]) with
  | Some _ => []
  | None =>
      (λ m, slot_text m 1)
      <$> tail (matches listPat (output (command os ["qm"; "list"])))
  end.

Definition listing_err : option error :=
  match launch_err (command os ["qm"; "list"]) with
  | Some e => Some e
  | None => Wrapf "io error: %w" [] <$> read_err (command os ["qm"; "list"])
  end.

Definition listing_events : list event :=
  match launch_err (command os ["qm"; "list"]) with
  | Some _ => []
  | None => [EvStart ["qm"; "list"]]
  end
  ++ [EvReturn listing_err].

End Init.

(** The events that end a scanned command. *)
Definition reaps (e : event) : Prop :=
  match e with
  | EvKill _ | EvWait _ => True
  | _ => False
  end.

(** A world in which the commands of [three_guests] are there and setting
    the hookscript of guest 103 fails. *)
Definition set_fails_for_103 : world :=
  {| command := command three_guests;
     run_result := λ args,
       if bool_decide (args = ["qm"; "set"; "103"; "--hookscript";
                               "local:snippets/qmexmut.hook"])
       then Some (ExitError 256) else None |}.

(** A world in which the commands of [three_guests] are there and setting
    the hookscript fails for guest 101 and, in another way, for guest
    103. *)
Definition two_sets_fail : world :=
  {| command := command three_guests;
     run_result := λ args,
       if bool_decide (args = ["qm"; "set"; "101"; "--hookscript";
                               "local:snippets/qmexmut.hook"])
       then Some (ExitError 256)
       else if bool_decide (args = ["qm"; "set"; "103"; "--hookscript";
                                    "local:snippets/qmexmut.hook"])
       then Some (ExitError 512) else None |}.

(** The goroutine that the lister starts for a guest. *)
Definition new_hook (id : string) : hook_task :=
  {| hook_id := id; hook_phase_of := ToCheck |}.

(** Looking up an offset among those a match has recorded. *)
Ltac lookup_caps :=
  repeat (rewrite lookup_insert_eq
          || (rewrite lookup_insert_ne by done)
          || rewrite lookup_singleton_eq).

(** * Properties *)

#[local] Set Warnings "-clear-no-such-hyp".

(** ** The effect monad *)

Lemma bind_Some {A B} (m : Eff A) (f : A → Eff B) b t :
  bind m f = Some (b, t) ↔
  ∃ a t1 t2, m = Some (a, t1) ∧ f a = Some (b, t2) ∧ t = t1 ++ t2.
Proof.
  unfold bind. split.
  - destruct m as [[a t1]|]; [|done].
    destruct (f a) as [[b' t2]|] eqn:Hf; [|done].
    intros [= <- <-]. by exists a, t1, t2.
  - intros (a & t1 & t2 & -> & -> & ->). done.
Qed.

Lemma bind_ret_l {A B} (a : A) (f : A → Eff B) : bind (ret a) f = f a.
Proof. unfold bind, ret. by destruct (f a) as [[b t]|]. Qed.

Lemma bind_Some_l {A B} (a : A) t (f : A → Eff B) :
  bind (Some (a, t)) f
  = match f a with
    | Some (b, t') => Some (b, t ++ t')
    | None => None
    end.
Proof. done. Qed.

Lemma lift_Some {A} (o : option A) a t : lift o = Some (a, t) ↔ o = Some a ∧ t = [].
Proof.
  destruct o; unfold lift, ret; (split; [intros [= -> ->]|intros [[= ->] ->]]); done.
Qed.

(** ** Strings *)

#[local] Arguments String.append !_ _ / : simpl nomatch.

Lemma IndexByte_until_comma v :
  (if (0 <=? IndexByte v ",")%Z then slice_to v (IndexByte v ",") else v)
  = until_comma v.
Proof.
  induction v as [|a v IH]; [done|].
  cbn [IndexByte until_comma]. destruct (Ascii.eqb a ","); [done|].
  destruct (Z.leb_spec 0 (IndexByte v ",")) as [Hi|Hi].
  - destruct (Z.leb_spec 0 (IndexByte v "," + 1)) as [_|?]; [|lia].
    unfold slice_to in IH |- *. rewrite Z2Nat.inj_add by lia.
    rewrite Nat.add_1_r. cbn [substring]. by rewrite IH.
  - cbn. congruence.
Qed.

Lemma strip_prefix_Some p s rest :
  strip_prefix p s = Some rest ↔ s = (p +:+ rest)%string.
Proof.
  revert s. induction p as [|a p IH]; intros s; cbn.
  - split; [by intros [= ->]|by intros ->].
  - destruct s as [|b s]; [done|].
    destruct (Ascii.eqb_spec a b) as [->|Hne].
    + rewrite IH. split; [by intros ->|by intros [= ->]].
    + split; [done|]. intros [= ? ?]. done.
Qed.

Lemma substring_app_skip pre s n m :
  substring (String.length pre + n) m (pre +:+ s) = substring n m s.
Proof.
  induction pre as [|a pre IH]; [done|].
  simpl. apply IH.
Qed.

Lemma substring_prefix_app s t :
  substring 0 (String.length s) (s +:+ t) = s.
Proof.
  induction s as [|a s IH]; [by destruct t|].
  simpl. by rewrite IH.
Qed.

(** ** The pattern [usbHostPat] *)

(** A greedy repetition in front of a rest that cannot fail takes the
    whole span. *)
Lemma rep_greedy_all cls min k G s n prev pos :
  (∀ s p q, k s p q = Some (G q)) →
  rep cls min true k s n prev pos
  = if min <=? n + span cls s then Some (G (pos + span cls s)) else None.
Proof.
  intros Hk. revert n prev pos.
  induction s as [|c s IH]; intros n prev pos; cbn [rep span].
  - rewrite Hk, !Nat.add_0_r. done.
  - destruct (cls c).
    + rewrite IH. replace (S n + span cls s) with (n + S (span cls s)) by lia.
      replace (S pos + span cls s) with (pos + S (span cls s)) by lia.
      destruct (Nat.leb_spec min (n + S (span cls s))); [done|].
      destruct (Nat.leb_spec min n); [lia|done].
    + rewrite Hk, !Nat.add_0_r. done.
Qed.

Lemma span_until_comma s : span notcomma s = String.length (until_comma s).
Proof.
  induction s as [|c s IH]; [done|]. cbn. unfold notcomma at 1.
  destruct (Ascii.eqb c ","); cbn; [done|]. by rewrite IH.
Qed.

Lemma until_comma_prefix s : ∃ rest, s = (until_comma s +:+ rest)%string.
Proof.
  induction s as [|c s [rest IH]]; [by exists ""%string|]. cbn.
  destruct (Ascii.eqb c ","); [by eexists|].
  exists rest. simpl. by rewrite <- IH.
Qed.

Lemma exec_lits p k s prev pos cap :
  exec (lits p ++ k) s prev pos cap
  = match strip_prefix p s with
    | Some rest => exec k rest (prev_after prev p) (pos + String.length p) cap
    | None => None
    end.
Proof.
  revert s prev pos. induction p as [|a p IH]; intros s prev pos.
  - cbn. by rewrite Nat.add_0_r.
  - cbn [lits list_ascii_of_string fmap list_fmap app exec strip_prefix
         prev_after String.length].
    destruct s as [|b s]; [done|].
    destruct (Ascii.eqb_spec a b) as [->|]; [|done].
    unfold lits in IH. rewrite IH.
    replace (S pos + String.length p) with (pos + S (String.length p)) by lia.
    done.
Qed.

Lemma exec_usbHostPat s prev pos :
  exec usbHostPat s prev pos {[0 := pos]}
  = (if is_word_at prev then None else host_token s) ≫= λ tok,
    Some (host_caps pos (String.length tok)).
Proof.
  unfold usbHostPat, host_token. cbn [exec].
  rewrite exec_lits.
  destruct (strip_prefix "host=" s) as [rest|] eqn:Hs.
  - apply strip_prefix_Some in Hs as ->. cbn [next_byte is_word_at "+:+"].
    replace (is_word "h") with true by done.
    destruct (is_word_at prev); cbn [xorb negb]; [done|].
    cbn [exec].
    rewrite (rep_greedy_all _ _ _
      (λ q, <[1:=q]> (<[3:=q]> (<[2:=pos + 5]> {[0 := pos]})))) by done.
    rewrite span_until_comma. cbn [String.length].
    destruct (until_comma rest) as [|c tok]; cbn; [done|].
    unfold host_caps. cbn [String.length]. done.
  - destruct (xorb _ _), (is_word_at prev); done.
Qed.

Lemma search_usbHostPat s prev pos :
  match find_host prev s with
  | None => search usbHostPat s prev pos = None
  | Some tok =>
      ∃ off, search usbHostPat s prev pos
             = Some (host_caps (pos + off) (String.length tok))
        ∧ substring off (5 + String.length tok) s = ("host=" +:+ tok)%string
        ∧ substring (off + 5) (String.length tok) s = tok
  end.
Proof.
  revert prev pos. induction s as [|c s IH]; intros prev pos.
  - cbn [find_host search]. rewrite exec_usbHostPat.
    destruct (is_word_at prev); cbn; done.
  - cbn [find_host search]. rewrite exec_usbHostPat.
    destruct (if is_word_at prev then None else host_token (String c s))
      as [tok|] eqn:Htok; cbn [mbind option_bind].
    + exists 0. rewrite Nat.add_0_r. split; [done|].
      destruct (is_word_at prev); [done|]. unfold host_token in Htok.
      destruct (strip_prefix "host=" (String c s)) as [rest|] eqn:Hs; [|done].
      apply strip_prefix_Some in Hs. rewrite Hs.
      destruct (String.eqb _ _); [done|]. injection Htok as <-.
      destruct (until_comma_prefix rest) as [rest' Hrest].
      split.
      * rewrite Hrest at 2.
        change ("host=" +:+ until_comma rest +:+ rest')%string
          with (String "h" (String "o" (String "s" (String "t" (String "="
                 (until_comma rest +:+ rest')))))).
        cbn [substring Nat.add]. by rewrite substring_prefix_app.
      * rewrite Hrest at 2.
        change (0 + 5) with (String.length "host=" + 0).
        rewrite (substring_app_skip "host="). apply substring_prefix_app.
    + specialize (IH (Some c) (S pos)).
      destruct (find_host (Some c) s) as [tok|].
      * destruct IH as (off & -> & H1 & H2). exists (S off).
        replace (pos + S off) with (S pos + off) by lia. done.
      * done.
Qed.

Lemma host_caps_lookup p n :
  host_caps p n !! 0 = Some p ∧ host_caps p n !! 1 = Some (p + 5 + n)
  ∧ host_caps p n !! 2 = Some (p + 5) ∧ host_caps p n !! 3 = Some (p + 5 + n).
Proof.
  unfold host_caps.
  repeat split;
    repeat (rewrite lookup_insert_eq || rewrite lookup_insert_ne by done);
    try apply lookup_singleton_eq; done.
Qed.

Lemma FindSubmatch_usbHostPat (b : bytes) :
  FindSubmatch usbHostPat b
  = (λ tok, [Some ("host=" +:+ tok)%string; Some tok])
    <$> find_host None (string_of b).
Proof.
  unfold FindSubmatch.
  pose proof (search_usbHostPat (string_of b) None 0) as H.
  destruct (find_host None (string_of b)) as [tok|].
  - destruct H as (off & -> & H1 & H2).
    cbn [mbind option_bind fmap option_fmap option_map].
    f_equal. change (NumSubexp usbHostPat) with 1.
    cbn [seq fmap list_fmap]. unfold submatch.
    cbn [Nat.mul Nat.add].
    destruct (host_caps_lookup off (String.length tok)) as (-> & -> & -> & ->).
    replace (off + 5 + String.length tok - off) with (5 + String.length tok) by lia.
    replace (off + 5 + String.length tok - (off + 5)) with (String.length tok) by lia.
    by rewrite H1, H2.
  - by rewrite H.
Qed.

(** What [find_host] finds is a fragment [host=<token>] of the text that
    stands at a word boundary, with a token that is not empty and runs to
    the next comma or to the end; and it finds one whenever there is one. *)
Lemma find_host_sound prev s tok :
  find_host prev s = Some tok →
  ∃ pre rest,
    s = (pre +:+ "host=" +:+ tok +:+ rest)%string
    ∧ tok ≠ ""%string
    ∧ until_comma (tok +:+ rest) = tok
    ∧ is_word_at (prev_after prev pre) = false.
Proof.
  revert prev. induction s as [|a s IH]; intros prev; cbn [find_host].
  - by destruct (is_word_at prev).
  - destruct (if is_word_at prev then None else host_token (String a s))
      as [tok'|] eqn:Hhere.
    + intros [= <-]. destruct (is_word_at prev) eqn:Hw; [done|].
      unfold host_token in Hhere.
      destruct (strip_prefix "host=" (String a s)) as [rest0|] eqn:Hs; [|done].
      apply strip_prefix_Some in Hs.
      destruct (String.eqb_spec (until_comma rest0) "") as [|Hne]; [done|].
      injection Hhere as <-.
      destruct (until_comma_prefix rest0) as [r Hr].
      exists ""%string, r. split_and!; try done.
      * rewrite Hs. simpl. by rewrite <- Hr.
      * by rewrite <- Hr.
    + intros Hf. destruct (IH _ Hf) as (pre & rest & -> & ? & ? & ?).
      by exists (String a pre), rest.
Qed.

Lemma find_host_complete prev pre tok rest :
  until_comma (tok +:+ rest) ≠ ""%string →
  is_word_at (prev_after prev pre) = false →
  is_Some (find_host prev (pre +:+ "host=" +:+ tok +:+ rest)).
Proof.
  intros Htok. revert prev. induction pre as [|a pre IH]; intros prev Hw.
  - cbn [prev_after] in Hw. simpl. rewrite Hw. unfold host_token.
    change (strip_prefix "host=" _) with (Some (tok +:+ rest)%string).
    cbv beta iota. destruct (String.eqb_spec (until_comma (tok +:+ rest)) "");
      [done|by eexists].
  - simpl.
    destruct (if is_word_at prev then None else host_token _); [by eexists|].
    by apply IH.
Qed.

(** ** Reading the slots of a match *)

Lemma index_lookup {A} (l : list A) (i : Z) :
  (0 ≤ i)%Z → index l i = l !! Z.to_nat i.
Proof. intros Hi. unfold index. by destruct (Z.ltb_spec i 0); [lia|]. Qed.

Lemma match_slots_Some cmm slots :
  cmm_match cmm = Some slots → match_slots cmm = slots.
Proof. unfold match_slots. by intros ->. Qed.

Lemma Match_in_range cmm slots (i : Z) b :
  cmm_match cmm = Some slots → (0 ≤ i)%Z → slots !! Z.to_nat i = Some b →
  cmdMatcher_Match cmm i = Some b.
Proof.
  intros Hm Hi Hb. unfold cmdMatcher_Match.
  rewrite (match_slots_Some _ _ Hm). apply lookup_lt_Some in Hb as Hlt.
  destruct (Z.ltb_spec i (Z.of_nat (length slots))); [|lia].
  by rewrite index_lookup.
Qed.

Lemma MatchText_in_range cmm slots (i : Z) b :
  cmm_match cmm = Some slots → (0 ≤ i)%Z → slots !! Z.to_nat i = Some b →
  cmdMatcher_MatchText cmm i = Some (string_of b).
Proof.
  intros Hm Hi Hb. unfold cmdMatcher_MatchText.
  rewrite (match_slots_Some _ _ Hm). apply lookup_lt_Some in Hb as Hlt.
  destruct (Z.ltb_spec i (Z.of_nat (length slots))); [|lia].
  by rewrite index_lookup, Hb.
Qed.

Lemma Match_out_of_range cmm (i : Z) :
  (Z.of_nat (length (match_slots cmm)) ≤ i)%Z → cmdMatcher_Match cmm i = Some None.
Proof.
  intros Hi. unfold cmdMatcher_Match.
  by destruct (Z.ltb_spec i (Z.of_nat (length (match_slots cmm)))); [lia|].
Qed.

Lemma MatchText_out_of_range cmm (i : Z) :
  (Z.of_nat (length (match_slots cmm)) ≤ i)%Z →
  cmdMatcher_MatchText cmm i = Some ""%string.
Proof.
  intros Hi. unfold cmdMatcher_MatchText.
  by destruct (Z.ltb_spec i (Z.of_nat (length (match_slots cmm)))); [lia|].
Qed.

(** From index zero on, neither accessor panics. *)
Lemma MatchText_total cmm (i : Z) :
  (0 ≤ i)%Z → is_Some (cmdMatcher_MatchText cmm i).
Proof.
  intros Hi. unfold cmdMatcher_MatchText.
  destruct (Z.ltb_spec i (Z.of_nat (length (match_slots cmm)))); [|done].
  rewrite index_lookup by done.
  destruct (lookup_lt_is_Some_2 (match_slots cmm) (Z.to_nat i)) as [b ->]; [lia|].
  done.
Qed.

Lemma Match_total cmm (i : Z) : (0 ≤ i)%Z → is_Some (cmdMatcher_Match cmm i).
Proof.
  intros Hi. unfold cmdMatcher_Match.
  destruct (Z.ltb_spec i (Z.of_nat (length (match_slots cmm)))); [|done].
  rewrite index_lookup by done.
  apply lookup_lt_is_Some_2. lia.
Qed.

(** ** The classification of configuration lines *)

(** C1, as stated, fails: on the line [usb0: ghost=1-1.2], which
    [keyValPat] parses as the key [usb0] and the value [ghost=1-1.2], the
    value contains the fragment [host=1-1.2], so the rule as specified gives
    [hostusb:1-1.2], while [labelHostResource] gives no label, the pattern
    asking for a word boundary before [host=]. *)
Lemma labelHostResource_not_as_specified :
  cmm_match (line_matcher "usb0: ghost=1-1.2")
  = Some [Some "usb0: ghost=1-1.2"; Some "usb0"; Some "ghost=1-1.2"]
  ∧ labelHostResource (line_matcher "usb0: ghost=1-1.2") = Some ""
  ∧ classify_as_specified "usb0" "ghost=1-1.2" = "hostusb:1-1.2".
Proof. refine (conj _ (conj _ _)); vm_compute; reflexivity. Qed.

(** C1, amended: for every line parsed as a key and a value,
    [labelHostResource] returns [classify key value]: ["hostpci:"] and the
    value up to its first comma when the key begins with [hostpci];
    otherwise, when the key begins with [usb], ["hostusb:"] and the token of
    the leftmost [host=<token>] that stands at a word boundary and has a
    token that is not empty, the token running to the next comma or to the
    end; otherwise the empty string. *)
Theorem labelHostResource_classify cmm whole key value :
  cmm_match cmm = Some [whole; Some key; Some value] →
  labelHostResource cmm = Some (classify key value).
Proof.
  intros Hm. unfold labelHostResource, classify.
  rewrite (MatchText_in_range cmm _ 1 (Some key) Hm) by done.
  cbn [mbind option_bind string_of].
  destruct (String.prefix "hostpci" key).
  { rewrite (MatchText_in_range cmm _ 2 (Some value) Hm) by done.
    cbn [mbind option_bind string_of].
    by rewrite IndexByte_until_comma. }
  destruct (String.prefix "usb" key); [|done].
  rewrite (Match_in_range cmm _ 2 (Some value) Hm) by done.
  cbn [mbind option_bind]. rewrite FindSubmatch_usbHostPat.
  cbn [string_of].
  destruct (find_host None value) as [tok|]; done.
Qed.

(** The four lines of the specification, classified through the theorem. *)
Lemma labelHostResource_classify_witness :
  labelHostResource (line_matcher "hostpci0: 0000:01:00.0,pcie=1")
  = Some "hostpci:0000:01:00.0"
  ∧ labelHostResource (line_matcher "usb0: host=1-1.2") = Some "hostusb:1-1.2"
  ∧ labelHostResource (line_matcher "usb0: spice") = Some ""
  ∧ labelHostResource (line_matcher "ide2: local:iso/win.iso,media=cdrom")
    = Some "".
Proof.
  refine (conj _ (conj _ (conj _ _))).
  - exact (labelHostResource_classify
             (line_matcher "hostpci0: 0000:01:00.0,pcie=1")
             (Some "hostpci0: 0000:01:00.0,pcie=1") "hostpci0"
             "0000:01:00.0,pcie=1" eq_refl).
  - exact (labelHostResource_classify (line_matcher "usb0: host=1-1.2")
             (Some "usb0: host=1-1.2") "usb0" "host=1-1.2" eq_refl).
  - exact (labelHostResource_classify (line_matcher "usb0: spice")
             (Some "usb0: spice") "usb0" "spice" eq_refl).
  - exact (labelHostResource_classify
             (line_matcher "ide2: local:iso/win.iso,media=cdrom")
             (Some "ide2: local:iso/win.iso,media=cdrom") "ide2"
             "local:iso/win.iso,media=cdrom" eq_refl).
Defined.

(** ** What a match records *)

Lemma rep_post cls min greedy k (P : gmap nat nat → Prop) s n prev pos r :
  (∀ s p q r, k s p q = Some r → P r) →
  rep cls min greedy k s n prev pos = Some r → P r.
Proof.
  intros Hk. revert n prev pos.
  induction s as [|c s IH]; intros n prev pos; cbn [rep]; intros Hr;
    repeat case_match; simplify_eq; eauto.
Qed.

(** A successful run keeps the offsets it was given and records the end of
    the match in slot 1. *)
Lemma exec_keeps prog s prev pos cap r :
  exec prog s prev pos cap = Some r →
  is_Some (r !! 1) ∧ ∀ i, is_Some (cap !! i) → is_Some (r !! i).
Proof.
  revert s prev pos cap r.
  induction prog as [|nd prog IH]; intros s prev pos cap r; cbn [exec].
  - intros [= <-]. split.
    + rewrite lookup_insert_eq. by eexists.
    + intros i Hi. destruct (decide (i = 1)) as [->|].
      * rewrite lookup_insert_eq. by eexists.
      * by rewrite lookup_insert_ne.
  - destruct nd as [c|cls min greedy| |g|g].
    + destruct s as [|c' s]; [done|]. destruct (Ascii.eqb c c'); [|done].
      apply IH.
    + apply (rep_post _ _ _ _
               (λ r, is_Some (r !! 1) ∧ ∀ i, is_Some (cap !! i) → is_Some (r !! i))).
      intros s' p q r'. apply IH.
    + destruct (xorb _ _); [apply IH|done].
    + intros Hr. apply IH in Hr as [H1 H2]. split; [done|].
      intros i Hi. apply H2. destruct (decide (i = 2 * g)) as [->|].
      * rewrite lookup_insert_eq. by eexists.
      * by rewrite lookup_insert_ne.
    + intros Hr. apply IH in Hr as [H1 H2]. split; [done|].
      intros i Hi. apply H2. destruct (decide (i = 2 * g + 1)) as [->|].
      * rewrite lookup_insert_eq. by eexists.
      * by rewrite lookup_insert_ne.
Qed.

Lemma search_keeps prog s prev pos r :
  search prog s prev pos = Some r → is_Some (r !! 0) ∧ is_Some (r !! 1).
Proof.
  revert prev pos. induction s as [|c s IH]; intros prev pos; cbn [search];
    destruct (exec prog _ prev pos {[0 := pos]}) eqn:He; try done.
  - intros [= <-]. apply exec_keeps in He as [H1 H2]. split; [|done].
    apply H2. rewrite lookup_singleton_eq. by eexists.
  - intros [= <-]. apply exec_keeps in He as [H1 H2]. split; [|done].
    apply H2. rewrite lookup_singleton_eq. by eexists.
  - apply IH.
Qed.

Lemma substring_prefix m s : ∃ post, s = (substring 0 m s +:+ post)%string.
Proof.
  revert m. induction s as [|c s IH]; intros [|m]; simpl; try by eexists.
  destruct (IH m) as [post Hp]. exists post. by rewrite <- Hp.
Qed.

Lemma substring_infix n m s :
  ∃ pre post, s = (pre +:+ substring n m s +:+ post)%string.
Proof.
  revert n. induction s as [|c s IH]; intros n.
  - exists ""%string, ""%string. by destruct n, m.
  - destruct n as [|n].
    + exists ""%string. apply substring_prefix.
    + destruct (IH n) as (pre & post & Hp). exists (String c pre), post.
      simpl. by rewrite <- Hp.
Qed.

Lemma FindSubmatch_length pat b slots :
  FindSubmatch pat b = Some slots → length slots = S (NumSubexp pat).
Proof.
  unfold FindSubmatch. destruct (search _ _ _ _); [|done].
  cbn [mbind option_bind]. intros ?; simplify_eq.
  by rewrite length_fmap, length_seq.
Qed.

(** Slot 0 of a match is a piece of the text that was searched. *)
Lemma FindSubmatch_whole pat b slots :
  FindSubmatch pat b = Some slots →
  ∃ whole pre post,
    slots !! 0 = Some (Some whole)
    ∧ string_of b = (pre +:+ whole +:+ post)%string.
Proof.
  unfold FindSubmatch. destruct (search _ _ _ _) as [cap|] eqn:Hs; [|done].
  cbn [mbind option_bind]. intros ?; simplify_eq.
  apply search_keeps in Hs as [[i Hi] [j Hj]].
  cbn [seq fmap list_fmap lookup list_lookup]. unfold submatch at 1.
  cbn [Nat.mul Nat.add]. rewrite Hi, Hj.
  destruct (substring_infix i (j - i) (string_of b)) as (pre & post & Hp).
  by exists (substring i (j - i) (string_of b)), pre, post.
Qed.

(** ** Scanning *)

Section Scanning.

Context (os : world).

#[local] Arguments FindSubmatch : simpl never.
#[local] Arguments unread_lines : simpl never.

(** [Scan] never panics; when it returns true it has read the first unread
    line and holds it, and when it returns false it has read nothing. *)
Lemma cmdScanner_Scan_spec csc :
  ∃ b csc' t,
    cmdScanner_Scan os csc = Some ((b, csc'), t)
    ∧ Forall scan_event t
    ∧ Args <$> csc_cmd csc' = Args <$> csc_cmd csc
    ∧ if b then
        ∃ l, unread_lines os csc = l :: unread_lines os csc'
             ∧ cmdScanner_Bytes csc' = Some (Some l)
             ∧ csc_err csc' = None
      else unread_lines os csc' = unread_lines os csc.
Proof.
  destruct csc as [[[args pr ps]|] [e|] [[pend tok ex fin]|]];
    unfold cmdScanner_Scan, ensure_started, start_cmd, Cmd_Start,
      Cmd_StdoutPipe, Scanner_Scan, unread_lines, NewScanner; cbn;
    try destruct pr; cbn;
    try destruct (pipe_err (command os args)); cbn;
    try destruct (start_err (command os args)); cbn;
    try destruct pend; cbn;
    try (destruct (output (command os args)) eqn:Ho; cbn);
    eexists _, _, _; (split; [reflexivity|]); cbn; rewrite ?Ho;
    (split; [by repeat constructor|split; [done|]]); eauto.
Qed.

Lemma good_Err csc : good csc → cmdScanner_Err csc = (None, csc).
Proof.
  intros (He & c & Hc & Hps & Hsc). unfold cmdScanner_Err, Scanner_Err.
  rewrite He. destruct (csc_Scanner csc) as [sc|]; [|done].
  destruct Hsc as [_ ->]. by destruct (exhausted sc).
Qed.

Lemma cmdScanner_Scan_good csc b csc' t :
  succeeds os → good csc →
  cmdScanner_Scan os csc = Some ((b, csc'), t) →
  good csc' ∧ (b = false → unread_lines os csc' = []).
Proof.
  intros Hs (He & c & Hc & Hps & Hsc).
  destruct csc as [c0 e [[pend tok ex fin]|]]; cbn in *; subst;
    destruct c as [args pr ps]; cbn in *; subst;
    destruct (Hs args) as (Hp & Hst & Hrd & _);
    unfold cmdScanner_Scan, ensure_started, start_cmd, Cmd_Start,
      Cmd_StdoutPipe, Scanner_Scan, unread_lines, NewScanner, good; cbn.
  - destruct Hsc as [-> ->]. cbn. destruct pend; cbn; intros ?; simplify_eq;
      (split; [|done]); cbn; eauto 10.
  - rewrite Hp, Hst. cbn.
    destruct (output (command os args)); cbn; intros ?; simplify_eq;
      (split; [|done]); cbn; eauto 10.
Qed.

(** The loop of [cmdMatcher.Scan], with more fuel than there are unread
    lines: it does not panic, and it stops at the first unread line that
    the pattern matches. *)
Lemma cmdMatcher_Scan_loop_spec fuel cmm :
  unread os (cmm_cmdScanner cmm) < fuel →
  ∃ b cmm' t,
    cmdMatcher_Scan_loop os fuel cmm = Some ((b, cmm'), t)
    ∧ Forall scan_event t
    ∧ cmm_pat cmm' = cmm_pat cmm
    ∧ Args <$> csc_cmd (cmm_cmdScanner cmm') = Args <$> csc_cmd (cmm_cmdScanner cmm)
    ∧ (succeeds os → good (cmm_cmdScanner cmm) →
       good (cmm_cmdScanner cmm')
       ∧ (b = false → unread_lines os (cmm_cmdScanner cmm') = []))
    ∧ if b then
        ∃ l m, cmm_match cmm' = Some m
               ∧ FindSubmatch (cmm_pat cmm) (Some l) = Some m
               ∧ cmdScanner_Bytes (cmm_cmdScanner cmm') = Some (Some l)
               ∧ matches (cmm_pat cmm) (unread_lines os (cmm_cmdScanner cmm))
                 = m :: matches (cmm_pat cmm) (unread_lines os (cmm_cmdScanner cmm'))
               ∧ unread os (cmm_cmdScanner cmm') < unread os (cmm_cmdScanner cmm)
      else
        (cmm_match cmm = None → cmm_match cmm' = None)
        ∧ matches (cmm_pat cmm) (unread_lines os (cmm_cmdScanner cmm))
          = matches (cmm_pat cmm) (unread_lines os (cmm_cmdScanner cmm'))
        ∧ unread os (cmm_cmdScanner cmm') ≤ unread os (cmm_cmdScanner cmm).
Proof.
  revert cmm. induction fuel as [|fuel IH]; intros cmm Hfuel; [lia|].
  cbn [cmdMatcher_Scan_loop].
  destruct (cmdScanner_Scan_spec (cmm_cmdScanner cmm))
    as (b & csc' & t & Hscan & Ht & Hargs & Hb).
  rewrite Hscan. cbn [bind]. destruct b.
  - destruct Hb as (l & Hl & Hbytes & Herr). rewrite Hbytes. cbn [lift ret].
    destruct (FindSubmatch (cmm_pat cmm) (Some l)) as [m|] eqn:Hm.
    + cbn. rewrite Hm. cbn. eexists true, _, _. split; [reflexivity|].
      cbn. rewrite app_nil_r. split_and!; try done.
      * intros Hs Hg. by eapply cmdScanner_Scan_good.
      * exists l, m. unfold matches, unread. rewrite Hl. cbn. rewrite Hm.
        split_and!; try done. lia.
    + cbn. rewrite Hm. cbn.
      destruct (IH (set_match (set_cmdScanner cmm csc') None))
        as (b & cmm' & t' & Hloop & Ht' & Hpat & Hargs' & Hgood & Hb').
      { cbn. unfold unread in *. rewrite Hl in Hfuel. cbn in Hfuel. lia. }
      rewrite Hloop. eexists b, cmm', _. split; [reflexivity|].
      cbn in *. split; [by apply Forall_app|]. split; [done|].
      split; [congruence|]. split.
      { intros Hs Hg. apply Hgood; [done|].
        by eapply cmdScanner_Scan_good. }
      unfold matches, unread in *. rewrite Hl. cbn. rewrite Hm.
      destruct b.
      * destruct Hb' as (l' & m' & ? & ? & ? & ? & ?). exists l', m'.
        split_and!; try done. lia.
      * destruct Hb' as (? & ? & ?). split_and!; auto; lia.
  - cbn. eexists false, _, _. split; [reflexivity|]. cbn.
    rewrite app_nil_r. split_and!; try done.
    + intros Hs Hg. by eapply cmdScanner_Scan_good.
    + by rewrite Hb.
    + unfold unread. by rewrite Hb.
Qed.

Lemma cmdMatcher_Scan_spec cmm :
  ∃ b cmm' t,
    cmdMatcher_Scan os cmm = Some ((b, cmm'), t)
    ∧ Forall scan_event t
    ∧ cmm_pat cmm' = cmm_pat cmm
    ∧ Args <$> csc_cmd (cmm_cmdScanner cmm') = Args <$> csc_cmd (cmm_cmdScanner cmm)
    ∧ (succeeds os → good (cmm_cmdScanner cmm) →
       good (cmm_cmdScanner cmm')
       ∧ (b = false → unread_lines os (cmm_cmdScanner cmm') = []))
    ∧ if b then
        ∃ l m, cmm_match cmm' = Some m
               ∧ FindSubmatch (cmm_pat cmm) (Some l) = Some m
               ∧ cmdScanner_Bytes (cmm_cmdScanner cmm') = Some (Some l)
               ∧ matches (cmm_pat cmm) (unread_lines os (cmm_cmdScanner cmm))
                 = m :: matches (cmm_pat cmm) (unread_lines os (cmm_cmdScanner cmm'))
               ∧ unread os (cmm_cmdScanner cmm') < unread os (cmm_cmdScanner cmm)
      else
        cmm_match cmm' = None
        ∧ matches (cmm_pat cmm) (unread_lines os (cmm_cmdScanner cmm))
          = matches (cmm_pat cmm) (unread_lines os (cmm_cmdScanner cmm'))
        ∧ unread os (cmm_cmdScanner cmm') ≤ unread os (cmm_cmdScanner cmm).
Proof.
  unfold cmdMatcher_Scan.
  destruct (cmdMatcher_Scan_loop_spec (S (unread os (cmm_cmdScanner cmm)))
              (set_match cmm None))
    as (b & cmm' & t & Hloop & Ht & Hpat & Hargs & Hgood & Hb);
    [cbn; lia|].
  exists b, cmm', t. cbn in *. split_and!; try done.
  destruct b; [done|]. destruct Hb as (Hn & ? & ?). split_and!; auto.
Qed.

(** The loop of [cmdRecognizer.Scan] for a recognition function that does
    not panic. *)
Lemma cmdRecognizer_Scan_loop_spec fuel cmr :
  (∀ cmm, is_Some (cmr_rec cmr cmm)) →
  unread os (cmm_cmdScanner (cmr_cmdMatcher cmr)) < fuel →
  ∃ b cmr' t,
    cmdRecognizer_Scan_loop os fuel cmr = Some ((b, cmr'), t)
    ∧ Forall scan_event t
    ∧ cmr_rec cmr' = cmr_rec cmr
    ∧ Args <$> csc_cmd (cmm_cmdScanner (cmr_cmdMatcher cmr'))
      = Args <$> csc_cmd (cmm_cmdScanner (cmr_cmdMatcher cmr))
    ∧ (succeeds os → good (cmm_cmdScanner (cmr_cmdMatcher cmr)) →
       good (cmm_cmdScanner (cmr_cmdMatcher cmr'))
       ∧ (b = false → unread_lines os (cmm_cmdScanner (cmr_cmdMatcher cmr')) = []))
    ∧ if b then
        cmr_label cmr' ≠ ""%string
        ∧ unread os (cmm_cmdScanner (cmr_cmdMatcher cmr'))
          < unread os (cmm_cmdScanner (cmr_cmdMatcher cmr))
      else
        unread os (cmm_cmdScanner (cmr_cmdMatcher cmr'))
        ≤ unread os (cmm_cmdScanner (cmr_cmdMatcher cmr)).
Proof.
  intros Hrec. revert cmr Hrec.
  induction fuel as [|fuel IH]; intros cmr Hrec Hfuel; [lia|].
  cbn [cmdRecognizer_Scan_loop].
  destruct (cmdMatcher_Scan_spec (cmr_cmdMatcher cmr))
    as (b & cmm' & t & Hscan & Ht & Hpat & Hargs & Hgood & Hb).
  rewrite Hscan. cbn [bind]. destruct b.
  - destruct Hb as (l & m & Hm & Hfind & Hbytes & Hmatches & Hlt).
    destruct (Hrec cmm') as [label Hlabel]. cbn [set_cmdMatcher cmr_rec].
    rewrite Hlabel. cbn [lift]. rewrite bind_ret_l.
    destruct (String.eqb_spec label "") as [->|Hne].
    + cbn [negb].
      destruct (IH (set_label (set_cmdMatcher cmr cmm') "")) as
        (b & cmr' & t' & Hloop & Ht' & Hrec' & Hargs' & Hgood' & Hb');
        [done|cbn; lia|].
      rewrite Hloop. eexists b, cmr', _. split; [reflexivity|].
      cbn in *. split; [by apply Forall_app|]. split; [done|].
      split; [congruence|]. split.
      { intros Hs Hg. apply Hgood'; [done|]. by apply Hgood. }
      destruct b; [destruct Hb'; split; [done|lia]|lia].
    + cbn [negb]. eexists true, _, _. split; [reflexivity|].
      cbn. rewrite app_nil_r. split_and!; try done.
  - cbn. eexists false, _, _. split; [reflexivity|]. cbn.
    rewrite app_nil_r. destruct Hb as (? & ? & ?). split_and!; try done.
Qed.

Lemma cmdRecognizer_Scan_spec cmr :
  (∀ cmm, is_Some (cmr_rec cmr cmm)) →
  ∃ b cmr' t,
    cmdRecognizer_Scan os cmr = Some ((b, cmr'), t)
    ∧ Forall scan_event t
    ∧ cmr_rec cmr' = cmr_rec cmr
    ∧ Args <$> csc_cmd (cmm_cmdScanner (cmr_cmdMatcher cmr'))
      = Args <$> csc_cmd (cmm_cmdScanner (cmr_cmdMatcher cmr))
    ∧ (succeeds os → good (cmm_cmdScanner (cmr_cmdMatcher cmr)) →
       good (cmm_cmdScanner (cmr_cmdMatcher cmr'))
       ∧ (b = false → unread_lines os (cmm_cmdScanner (cmr_cmdMatcher cmr')) = []))
    ∧ if b then
        cmr_label cmr' ≠ ""%string
        ∧ unread os (cmm_cmdScanner (cmr_cmdMatcher cmr'))
          < unread os (cmm_cmdScanner (cmr_cmdMatcher cmr))
      else
        unread os (cmm_cmdScanner (cmr_cmdMatcher cmr'))
        ≤ unread os (cmm_cmdScanner (cmr_cmdMatcher cmr)).
Proof.
  intros Hrec. unfold cmdRecognizer_Scan.
  apply (cmdRecognizer_Scan_loop_spec _ (set_label cmr "")); [done|].
  cbn. lia.
Qed.

End Scanning.

(** ** Cleanup *)

Section Cleanup.

Context (os : world).

#[local] Arguments unread_lines : simpl never.

Lemma Cleanup_started csc c errp werr c' tw :
  csc_cmd csc = Some c → Process c = true →
  Cmd_Wait os c (unread os csc) = Some ((werr, c'), tw) →
  ∃ csc' report,
    report = match (cmdScanner_Err csc).1 with
             | Some e => Some e
             | None => if isKillError werr then None else werr
             end
    ∧ cmdScanner_Cleanup os csc errp
      = Some ((csc',
               match report, errp with
               | Some e, Some None =>
                   Some (Some (Wrapf "command %q failed: %w"
                                 [FStrs (Args c)] e))
               | _, _ => errp
               end),
              [EvKill (Args c); EvWait (Args c)])
    ∧ csc_err csc' = report
    ∧ csc_cmd csc' = Some c'.
Proof.
  intros Hc Hp Hw.
  destruct csc as [c0 e sc]. cbn in Hc. subst c0.
  assert (tw = [EvWait (Args c)]) as ->.
  { unfold Cmd_Wait, bind, emit, ret in Hw. repeat case_match; by simplify_eq. }
  unfold cmdScanner_Cleanup, Process_Kill. cbn [csc_cmd lift].
  rewrite bind_ret_l, Hp.
  replace (unread os (set_cmd _ _))
    with (unread os {| csc_cmd := Some c; csc_err := e; csc_Scanner := sc |})
    in * by done.
  unfold bind at 2 3. unfold emit at 1. rewrite Hw.
  destruct e as [e|], sc as [[pend tok [] [fin|]]|];
    destruct (isKillError werr), werr as [we|], errp as [[ep|]|];
    eexists _, _; (split; [reflexivity|]); cbn; done.
Qed.

Lemma Cmd_Wait_total c n :
  ∃ werr c', Cmd_Wait os c n = Some ((werr, c'), [EvWait (Args c)])
             ∧ Args c' = Args c
             ∧ (Process c = true → ProcessState c = false →
                werr = wait_err (command os (Args c)) n).
Proof.
  unfold Cmd_Wait, bind, emit, ret. destruct c as [args [] []]; cbn;
    eexists _, _; (split; [reflexivity|]); done.
Qed.

(** [Cleanup] does not panic on a scanner that has a command, and reports
    nothing on a good scanner when the commands succeed. *)
Lemma cmdScanner_Cleanup_spec csc errp :
  is_Some (csc_cmd csc) →
  ∃ csc' errp' t,
    cmdScanner_Cleanup os csc errp = Some ((csc', errp'), t)
    ∧ Forall scan_event t
    ∧ (succeeds os → good csc → errp' = errp).
Proof.
  intros [c Hc]. destruct (Process c) eqn:Hp.
  - destruct (Cmd_Wait_total c (unread os csc)) as (werr & c' & Hw & _ & Hwerr).
    destruct (Cleanup_started csc c errp werr c' _ Hc Hp Hw)
      as (csc' & report & Hreport & Hcleanup & _).
    eexists _, _, _. split; [exact Hcleanup|].
    split; [by repeat constructor|].
    intros Hs Hg. rewrite (good_Err _ Hg) in Hreport. cbn in Hreport.
    destruct Hg as (_ & c0 & Hc0 & Hps & _). simplify_eq.
    rewrite (Hwerr Hp Hps).
    destruct (Hs (Args c)) as (_ & _ & _ & Hwait).
    destruct (Hwait (unread os csc)) as [Hnone|Hkill].
    + rewrite Hnone. by destruct (isKillError None).
    + by rewrite Hkill.
  - unfold cmdScanner_Cleanup. rewrite Hc. cbn [lift]. rewrite bind_ret_l, Hp.
    rewrite bind_ret_l.
    destruct (cmdScanner_Err csc) as [[e|] csc'] eqn:He.
    + destruct errp as [[ep|]|]; eexists _, _, _;
        (split; [reflexivity|]); (split; [constructor|]);
        intros Hs Hg; by rewrite (good_Err _ Hg) in He.
    + by eexists _, _, _.
Qed.

Lemma land_mask_mod w : Z.land w WaitStatus.mask = (w mod 128)%Z.
Proof. change WaitStatus.mask with (Z.ones 7). by rewrite Z.land_ones. Qed.

Lemma isKillError_kill_exit werr : isKillError werr = true ↔ kill_exit werr.
Proof.
  unfold isKillError, kill_exit, WaitStatus.Signal, WaitStatus.Signaled.
  change 0x7F%Z with WaitStatus.mask. split.
  - destruct werr as [e|]; [|done].
    destruct (As_ExitError e) as [w|] eqn:E; [|done].
    intros H. exists e, w. split_and!; [done..|].
    rewrite land_mask_mod in *.
    unfold WaitStatus.stopped, WaitStatus.exited, WaitStatus.SIGKILL in H.
    destruct (w mod 128 =? 127)%Z eqn:E1; [done|].
    destruct (w mod 128 =? 0)%Z eqn:E2; [done|]. simpl in H. lia.
  - intros (e & w & -> & -> & Hw). rewrite Hw. done.
Qed.

(** C7, as stated, fails: [Cleanup] cannot tell its own kill signal from
    someone else's.  A command that the kernel killed, short of memory,
    after it had printed all its output ends abnormally, and not by the
    signal of [Cleanup], which comes after its end; [Wait] returns for it
    what it returns for a process that [Cleanup] killed, the wait status
    naming the signal only; so where the specification asks for the error
    to be reported, [Cleanup] records and reports nothing. *)
Lemma Cleanup_drops_the_kill_of_others :
  wait_err (command killed_by_kernel ["qm"; "config"; "101"]) 0
  = wait_result (Signalled 9 false)
  ∧ wait_result (Signalled 9 false) = wait_result (Signalled 9 true)
  ∧ report_as_specified (Signalled 9 false) = Some (ExitError 9)
  ∧ cmdScanner_Cleanup killed_by_kernel all_read (Some None)
    = Some (({| csc_cmd := Some {| Args := ["qm"; "config"; "101"];
                                   Process := true; ProcessState := true |};
                csc_err := None;
                csc_Scanner := csc_Scanner all_read |},
             Some None),
            [EvKill ["qm"; "config"; "101"]; EvWait ["qm"; "config"; "101"]]).
Proof. split_and!; vm_compute; reflexivity. Qed.

(** C7, amended: [Cleanup] on a scanner whose command [c] was started calls
    [Kill] and [Wait] on it.  With [werr] what [Wait] returns, the error of
    the cleanup is the one the scanner already holds (recorded, or met by
    its reader and then wrapped as an I/O error) when there is one, [werr]
    being dropped then; without one it is nothing when [werr] is nil or
    tells of a death by the kill signal, whoever sent it, and [werr] in
    every other case: an exit code that is not zero, another signal, an
    error of [Wait] itself.  That error is recorded in the scanner and, when
    the pointer is not nil and holds no error yet, stored through it, wrapped
    with the arguments of the command; in every other case the variable
    keeps its value. *)
Theorem cmdScanner_Cleanup_reports csc c errp werr c' tw :
  csc_cmd csc = Some c → Process c = true →
  Cmd_Wait os c (unread os csc) = Some ((werr, c'), tw) →
  ∃ csc' report,
    cmdScanner_Cleanup os csc errp
    = Some ((csc',
             match report, errp with
             | Some e, Some None =>
                 Some (Some (Wrapf "command %q failed: %w"
                               [FStrs (Args c)] e))
             | _, _ => errp
             end),
            [EvKill (Args c); EvWait (Args c)])
    ∧ csc_err csc' = report
    ∧ csc_cmd csc' = Some c'
    ∧ (∀ e, (cmdScanner_Err csc).1 = Some e → report = Some e)
    ∧ ((cmdScanner_Err csc).1 = None →
       (werr = None → report = None)
       ∧ (kill_exit werr → report = None)
       ∧ (¬ kill_exit werr → report = werr)).
Proof.
  intros Hc Hp Hw.
  destruct (Cleanup_started csc c errp werr c' tw Hc Hp Hw)
    as (csc' & report & Hreport & Hcleanup & Herr & Hcmd).
  exists csc', report. split_and!; [done..| |].
  - intros e He. by rewrite Hreport, He.
  - intros Hnone. rewrite Hnone in Hreport. split_and!.
    + intros ->. by rewrite Hreport.
    + intros Hk%isKillError_kill_exit. by rewrite Hreport, Hk.
    + intros Hk. rewrite Hreport.
      destruct (isKillError werr) eqn:E; [|done].
      by apply isKillError_kill_exit in E.
Qed.

End Cleanup.

(** ** Resources and mutuals *)

Section Mutuals.

Context (os : world).

#[local] Arguments FindSubmatch : simpl never.
#[local] Arguments unread_lines : simpl never.
#[local] Arguments labelHostResource : simpl never.
#[local] Arguments cmdMatcher_MatchText : simpl never.
#[local] Arguments cmdRecognizer_Scan : simpl never.
#[local] Arguments cmdMatcher_Scan : simpl never.
#[local] Arguments cmdScanner_Cleanup : simpl never.

Lemma MatchText_slot_text cmm m (i : Z) :
  cmm_match cmm = Some m → (0 ≤ i)%Z →
  cmdMatcher_MatchText cmm i = Some (slot_text m (Z.to_nat i)).
Proof.
  intros Hm Hi. unfold slot_text.
  destruct (m !! Z.to_nat i) as [b|] eqn:Hb.
  - by apply MatchText_in_range with m.
  - apply MatchText_out_of_range. rewrite (match_slots_Some _ _ Hm).
    apply lookup_ge_None in Hb. lia.
Qed.

Lemma labelHostResource_total cmm : is_Some (labelHostResource cmm).
Proof.
  unfold labelHostResource.
  destruct (MatchText_total cmm 1) as [name ->]; [done|].
  cbn [mbind option_bind].
  destruct (String.prefix "hostpci" name).
  { destruct (MatchText_total cmm 2) as [value ->]; [done|]. by eexists. }
  destruct (String.prefix "usb" name); [|by eexists].
  destruct (Match_total cmm 2) as [b ->]; [done|]. cbn [mbind option_bind].
  destruct (FindSubmatch usbHostPat b) as [found|] eqn:Hf; cbn [default].
  - apply FindSubmatch_length in Hf. change (NumSubexp usbHostPat) with 1 in Hf.
    destruct found as [|f0 [|f1 found]]; try done.
  - by eexists.
Qed.

(** The two loops over one configuration: both end without a panic, the
    first with the labels it was given and those the recognizer yields, the
    second with true exactly when one of these is in [reses]. *)
Lemma config_loops_spec fuel rec acc reses :
  (∀ cmm, is_Some (cmr_rec rec cmm)) →
  unread os (cmm_cmdScanner (cmr_cmdMatcher rec)) < fuel →
  ∃ R rec1 t1 b rec2 t2 (S : gset string),
    hostResources_loop os fuel rec acc = Some ((R, rec1), t1)
    ∧ sharesHostResources_loop os fuel rec reses = Some ((b, rec2), t2)
    ∧ Forall scan_event t1 ∧ Forall scan_event t2
    ∧ R = acc ∪ S
    ∧ (b = true ↔ ∃ l, l ∈ S ∧ l ∈ reses)
    ∧ Args <$> csc_cmd (cmm_cmdScanner (cmr_cmdMatcher rec1))
      = Args <$> csc_cmd (cmm_cmdScanner (cmr_cmdMatcher rec))
    ∧ Args <$> csc_cmd (cmm_cmdScanner (cmr_cmdMatcher rec2))
      = Args <$> csc_cmd (cmm_cmdScanner (cmr_cmdMatcher rec))
    ∧ (succeeds os → good (cmm_cmdScanner (cmr_cmdMatcher rec)) →
       good (cmm_cmdScanner (cmr_cmdMatcher rec1))
       ∧ good (cmm_cmdScanner (cmr_cmdMatcher rec2))).
Proof.
  revert rec acc. induction fuel as [|fuel IH]; intros rec acc Hrec Hfuel; [lia|].
  cbn [hostResources_loop sharesHostResources_loop].
  destruct (cmdRecognizer_Scan_spec os rec Hrec)
    as (ok & rec' & t & Hscan & Ht & Hrec' & Hargs & Hgood & Hok).
  rewrite Hscan. cbn [bind]. destruct ok.
  - destruct Hok as [Hlabel Hlt].
    destruct (IH rec' ({[cmdRecognizer_Label rec']} ∪ acc))
      as (R & rec1 & t1 & b & rec2 & t2 & S & Hh & Hsh & Ht1 & Ht2 & HR & Hb
          & Ha1 & Ha2 & Hg); [by rewrite Hrec'|lia|].
    rewrite Hh. case_bool_decide as Hin.
    + eexists R, rec1, _, true, rec', _, ({[cmdRecognizer_Label rec']} ∪ S).
      split; [reflexivity|]. split; [reflexivity|].
      split_and!; try done.
      * by apply Forall_app.
      * by rewrite app_nil_r.
      * set_solver.
      * split; [|done]. intros _. exists (cmdRecognizer_Label rec'). set_solver.
      * congruence.
      * intros Hs Hgd. destruct (Hgood Hs Hgd) as [Hg' _].
        split; [|done]. by apply Hg.
    + rewrite Hsh.
      eexists R, rec1, _, b, rec2, _, ({[cmdRecognizer_Label rec']} ∪ S).
      split; [reflexivity|]. split; [reflexivity|].
      split_and!; try done.
      * by apply Forall_app.
      * by apply Forall_app.
      * set_solver.
      * rewrite Hb. set_solver.
      * congruence.
      * congruence.
      * intros Hs Hgd. destruct (Hgood Hs Hgd) as [Hg' _]. by apply Hg.
  - cbn. eexists acc, rec', _, false, rec', _, ∅.
    split; [reflexivity|]. split; [reflexivity|].
    rewrite app_nil_r. split_and!; try done.
    + set_solver.
    + set_solver.
    + intros Hs Hgd. destruct (Hgood Hs Hgd) as [Hg' _]. done.
Qed.

Lemma recognizeCommand_good args pat rec :
  good (cmm_cmdScanner (cmr_cmdMatcher
          (recognizeCommand (exec_Command "qm" args) pat rec))).
Proof. split; [done|]. by eexists. Qed.

Lemma cmdRecognizer_Cleanup_spec cmr :
  is_Some (csc_cmd (cmm_cmdScanner (cmr_cmdMatcher cmr))) →
  ∃ cmr' rerr t,
    cmdRecognizer_Cleanup os cmr (Some None) = Some ((cmr', rerr), t)
    ∧ Forall scan_event t
    ∧ (succeeds os → good (cmm_cmdScanner (cmr_cmdMatcher cmr)) →
       deref rerr = None).
Proof.
  intros Hc. unfold cmdRecognizer_Cleanup.
  destruct (cmdScanner_Cleanup_spec os _ (Some None) Hc)
    as (csc' & errp' & t & -> & Ht & Hgood).
  cbn. eexists _, _, _. split; [reflexivity|]. rewrite app_nil_r.
  split; [done|]. intros Hs Hg. by rewrite (Hgood Hs Hg).
Qed.

(** [hostResources] and [sharesHostResources] on the same guest: neither
    panics, and the second answers true exactly when the set it is given
    meets the set that the first returns. *)
Lemma config_calls_spec id reses :
  ∃ R err t b err' t',
    hostResources os id = Some ((R, err), t)
    ∧ sharesHostResources os id reses = Some ((b, err'), t')
    ∧ Forall scan_event t ∧ Forall scan_event t'
    ∧ (b = true ↔ ∃ l, l ∈ R ∧ l ∈ reses)
    ∧ (succeeds os → err = None ∧ err' = None).
Proof.
  unfold hostResources, sharesHostResources.
  set (rec := recognizeCommand (exec_Command "qm" ["config"; id]) keyValPat
                labelHostResource).
  destruct (config_loops_spec
              (S (unread os (cmm_cmdScanner (cmr_cmdMatcher rec)))) rec ∅ reses)
    as (R & rec1 & t1 & b & rec2 & t2 & S & -> & -> & Ht1 & Ht2 & -> & Hb
        & Ha1 & Ha2 & Hg);
    [intros cmm; apply labelHostResource_total|lia|].
  cbn [bind].
  destruct (cmdRecognizer_Cleanup_spec rec1) as (? & rerr1 & t1' & -> & ? & Hr1).
  { destruct (csc_cmd (cmm_cmdScanner (cmr_cmdMatcher rec1))); [done|].
    by cbn in Ha1. }
  destruct (cmdRecognizer_Cleanup_spec rec2) as (? & rerr2 & t2' & -> & ? & Hr2).
  { destruct (csc_cmd (cmm_cmdScanner (cmr_cmdMatcher rec2))); [done|].
    by cbn in Ha2. }
  cbn. eexists _, _, _, _, _, _. split; [reflexivity|]. split; [reflexivity|].
  rewrite !app_nil_r. split_and!.
  - by apply Forall_app.
  - by apply Forall_app.
  - rewrite Hb. set_solver.
  - intros Hs. destruct (Hg Hs (recognizeCommand_good _ _ _)) as [Hg1 Hg2].
    split; [by apply Hr1|by apply Hr2].
Qed.

Lemma mutuals_loop_spec fuel cmm id res acc :
  unread os (cmm_cmdScanner cmm) < fuel →
  ∃ recs err t,
    mutuals_loop os fuel cmm id res acc = Some ((recs, err), t)
    ∧ Forall scan_event t
    ∧ (Forall (not_self id) acc → Forall (not_self id) recs)
    ∧ (res = ∅ → acc = [] → recs = [])
    ∧ (succeeds os → good (cmm_cmdScanner cmm) →
       err = None
       ∧ (∀ r, r ∈ acc → r ∈ recs)
       ∧ ∀ m, m ∈ matches (cmm_pat cmm) (unread_lines os (cmm_cmdScanner cmm)) →
              slot_text m 1 ≠ id →
              (∃ e t', sharesHostResources os (slot_text m 1) res
                       = Some ((true, e), t')) →
              ∃ r, r ∈ recs ∧ rec_id r = slot_text m 1).
Proof.
  revert cmm acc. induction fuel as [|fuel IH]; intros cmm acc Hfuel; [lia|].
  cbn [mutuals_loop].
  destruct (cmdMatcher_Scan_spec os cmm)
    as (ok & cmm' & t & -> & Ht & Hpat & Hargs & Hgood & Hok).
  cbn [bind]. destruct ok.
  - destruct Hok as (l & m0 & Hm0 & Hfind & Hbytes & Hmatches & Hlt).
    rewrite (MatchText_slot_text cmm' m0 1 Hm0) by done. cbn [lift].
    rewrite bind_ret_l. change (Z.to_nat 1) with 1.
    destruct (String.eqb_spec (slot_text m0 1) id) as [Heq|Hne].
    + destruct (IH cmm' acc) as (recs & err & t' & -> & Ht' & Hself & Hempty & Hs);
        [lia|].
      eexists _, _, _. split; [reflexivity|]. split; [by apply Forall_app|].
      split; [done|]. split; [done|].
      intros Hsucc Hg. destruct (Hgood Hsucc Hg) as [Hg' _].
      destruct (Hs Hsucc Hg') as (-> & Hacc & Hall). split_and!; try done.
      intros m Hm Hmid Hshares. rewrite Hmatches in Hm.
      apply elem_of_cons in Hm as [->|Hm]; [done|].
      apply Hall; [by rewrite Hpat|done..].
    + destruct (config_calls_spec (slot_text m0 1) res)
        as (R & e0 & t0 & b & err' & t' & _ & Hsh & _ & Ht' & Hb & Herr).
      rewrite Hsh. cbn [bind]. destruct err' as [e|].
      * cbn. eexists _, _, _. split; [reflexivity|].
        split; [rewrite app_nil_r; by apply Forall_app|].
        split; [done|]. split; [done|].
        intros Hsucc _. by destruct (Herr Hsucc).
      * rewrite (MatchText_slot_text cmm' m0 2 Hm0) by done. cbn [lift].
        rewrite bind_ret_l.
        rewrite (MatchText_slot_text cmm' m0 3 Hm0) by done. cbn [lift].
        rewrite bind_ret_l.
        set (r0 := {| rec_id := slot_text m0 1;
                      rec_name := slot_text m0 (Z.to_nat 2);
                      rec_status := slot_text m0 (Z.to_nat 3) |}).
        destruct (IH cmm' (if b then acc ++ [r0] else acc))
          as (recs & err & t'' & -> & Ht'' & Hself & Hempty & Hs); [lia|].
        eexists _, _, _. split; [reflexivity|].
        split; [by rewrite !Forall_app|]. split.
        { intros Hacc. apply Hself. destruct b; [|done].
          apply Forall_app. split; [done|]. by repeat constructor. }
        split.
        { intros -> ->. apply Hempty; [done|]. destruct b; [|done].
          destruct Hb as [Hb _]. destruct (Hb eq_refl) as (l' & _ & Hl').
          set_solver. }
        intros Hsucc Hg. destruct (Hgood Hsucc Hg) as [Hg' _].
        destruct (Hs Hsucc Hg') as (-> & Hacc & Hall). split_and!; [done|..].
        { intros r Hr. apply Hacc. destruct b; [|done]. set_solver. }
        intros m Hm Hmid Hshares. rewrite Hmatches in Hm.
        apply elem_of_cons in Hm as [->|Hm].
        { destruct Hshares as (e & tt' & Hshares). rewrite Hsh in Hshares.
          simplify_eq. exists r0. split; [|done]. apply Hacc. set_solver. }
        apply Hall; [by rewrite Hpat|done..].
  - destruct Hok as (Hnone & Hmatches & Hle). unfold cmdMatcher_Err.
    destruct (cmdScanner_Err (cmm_cmdScanner cmm')) as [[e|] csc''] eqn:He.
    + cbn. eexists _, _, _. split; [reflexivity|].
      rewrite app_nil_r. split; [done|]. split; [done|]. split; [done|].
      intros Hsucc Hg. destruct (Hgood Hsucc Hg) as [Hg' _].
      by rewrite (good_Err _ Hg') in He.
    + cbn. eexists _, _, _. split; [reflexivity|].
      rewrite app_nil_r. split; [done|]. split; [done|]. split; [done|].
      intros Hsucc Hg. destruct (Hgood Hsucc Hg) as [Hg' Hnil].
      split_and!; try done.
      intros m Hm. rewrite Hmatches, (Hnil eq_refl) in Hm. by apply elem_of_nil in Hm.
Qed.

Lemma matchCommand_good args pat :
  good (cmm_cmdScanner (matchCommand (exec_Command "qm" args) pat)).
Proof. split; [done|]. by eexists. Qed.

(** [mutuals] does not panic; its records are those of other guests; it
    has none when the target has no resource; and when the commands
    succeed it returns no error and holds every listed guest, other than
    the target, whose configuration shares a label with the target's. *)
Lemma mutuals_spec id :
  ∃ R e0 t0 recs err t,
    hostResources os id = Some ((R, e0), t0)
    ∧ mutuals os id = Some ((recs, err), t)
    ∧ Forall scan_event t
    ∧ Forall (not_self id) recs
    ∧ (R = ∅ → recs = [])
    ∧ (succeeds os →
       err = None
       ∧ ∀ other, listed os other → other ≠ id →
           (∃ e t', sharesHostResources os other R = Some ((true, e), t')) →
           ∃ r, r ∈ recs ∧ rec_id r = other).
Proof.
  destruct (config_calls_spec id ∅)
    as (R & e0 & t0 & b' & e' & t' & Hh & _ & Ht0 & _ & _ & Herr).
  exists R, e0, t0. unfold mutuals. rewrite Hh. cbn [bind].
  destruct e0 as [e|].
  { cbn. eexists _, _, _. split; [done|]. split; [reflexivity|].
    rewrite app_nil_r. split_and!; try done.
    intros Hs. by destruct (Herr Hs). }
  clear b' e' t' Herr.
  set (cmm0 := matchCommand (exec_Command "qm" ["list"]) listPat).
  destruct (cmdMatcher_Scan_spec os cmm0)
    as (b0 & cmm1 & t1 & -> & Ht1 & Hpat & _ & Hgood & Hb0).
  cbn [bind].
  destruct (mutuals_loop_spec (S (unread os (cmm_cmdScanner cmm1))) cmm1 id R [])
    as (recs & err & t & -> & Ht & Hself & Hempty & Hs); [lia|].
  eexists _, _, _. split; [done|]. split; [reflexivity|].
  split; [by rewrite !Forall_app|]. split; [by apply Hself|].
  split; [by intros ->; apply Hempty|].
  intros Hsucc. destruct (Hgood Hsucc (matchCommand_good _ _)) as [Hg1 Hnil].
  destruct (Hs Hsucc Hg1) as (-> & _ & Hall). split; [done|].
  intros other (m & Hm & Hid) Hne Hshares. subst other.
  apply Hall; [|done..]. rewrite Hpat.
  change (output (command os ["qm"; "list"]))
    with (unread_lines os (cmm_cmdScanner cmm0)) in Hm.
  change listPat with (cmm_pat cmm0) in Hm.
  destruct b0.
  - destruct Hb0 as (l & m0 & _ & _ & _ & Hmatches & _).
    by rewrite Hmatches in Hm.
  - destruct Hb0 as (_ & Hmatches & _).
    rewrite Hmatches, (Hnil eq_refl) in Hm. by apply elem_of_nil in Hm.
Qed.

End Mutuals.

(** ** The goroutines of [stopMutuals] *)

Section Group.

Context (os : world) (dryRun : bool).

Lemma enabled_pick st n :
  ∃ th, enabled st !! (n `mod` length (enabled st)) = Some th
        ∧ th ∈ enabled st.
Proof.
  assert (0 < length (enabled st)) as Hlen.
  { unfold enabled. destruct (st_todo st), (unfinished (st_tasks st)); cbn; lia. }
  destruct (lookup_lt_is_Some_2 (enabled st) (n `mod` length (enabled st)))
    as [th Hth].
  { apply Nat.mod_upper_bound. lia. }
  exists th. split; [done|]. by eapply list_elem_of_lookup_2.
Qed.

Lemma unfinished_spec ts i :
  i ∈ unfinished ts ↔ ∃ t, ts !! i = Some t ∧ is_finished t = false.
Proof.
  unfold unfinished. rewrite list_elem_of_In, filter_In, in_seq. split.
  - intros [_ Hi]. destruct (ts !! i) as [t|]; [|done].
    exists t. split; [done|]. by destruct (is_finished t).
  - intros (t & Ht & Hf). rewrite Ht, Hf. split; [|done].
    apply lookup_lt_Some in Ht. lia.
Qed.

Lemma enabled_Task st i :
  Task i ∈ enabled st →
  ∃ t, st_tasks st !! i = Some t ∧ is_finished t = false.
Proof.
  intros Hin. apply unfinished_spec. unfold enabled in Hin.
  destruct (st_todo st), (unfinished (st_tasks st)) eqn:Hu;
    rewrite ?elem_of_cons in Hin;
    repeat match goal with
           | H : _ ∨ _ |- _ => destruct H as [H|H]
           end; try done;
    try (apply list_elem_of_fmap in Hin as (j & [= ->] & Hj); done);
    try (apply list_elem_of_fmap in Hin as (j & [= ->] & Hj)); try done.
Qed.

Lemma enabled_Main st :
  Main ∈ enabled st → st_todo st ≠ [] ∨ unfinished (st_tasks st) = [].
Proof.
  unfold enabled. destruct (st_todo st), (unfinished (st_tasks st)); auto.
  intros Hin. apply list_elem_of_fmap in Hin as (j & [=] & _).
Qed.

Lemma unfinished_nil ts :
  unfinished ts = [] →
  ts ≫= task_events os dryRun = [] ∧ sum_list_with task_weight ts = 0.
Proof.
  intros Hu.
  assert (Forall (λ t, is_finished t = true) ts) as Hall.
  { apply Forall_lookup. intros i t Ht.
    destruct (is_finished t) eqn:Hf; [done|].
    assert (i ∈ unfinished ts) as Hi by (apply unfinished_spec; eauto).
    rewrite Hu in Hi. by apply elem_of_nil in Hi. }
  clear Hu. induction Hall as [|t ts Ht _ [IH1 IH2]]; [done|].
  cbn. rewrite IH1, IH2. unfold is_finished in Ht.
  unfold task_events, task_weight. by destruct (task_phase t).
Qed.

(** Replacing a goroutine's state: what changes in the events to come and
    in the weight. *)
Lemma tasks_insert ts i t t' :
  ts !! i = Some t →
  ∃ rest W,
    ts ≫= task_events os dryRun ≡ₚ task_events os dryRun t ++ rest
    ∧ <[i:=t']> ts ≫= task_events os dryRun ≡ₚ task_events os dryRun t' ++ rest
    ∧ sum_list_with task_weight ts = task_weight t + W
    ∧ sum_list_with task_weight (<[i:=t']> ts) = task_weight t' + W.
Proof.
  intros Ht. apply list_elem_of_split_length in Ht as (l1 & l2 & -> & ->).
  exists ((l1 ++ l2) ≫= task_events os dryRun),
    (sum_list_with task_weight (l1 ++ l2)).
  rewrite insert_app_r_alt, Nat.sub_diag by lia. cbn [insert list_insert].
  rewrite !bind_app, !bind_cons, !sum_list_with_app. cbn [sum_list_with].
  split_and!; [solve_Permutation|solve_Permutation|lia|lia].
Qed.

Lemma returned_app t1 t2 : returned (t1 ++ t2) = returned t1 ++ returned t2.
Proof. unfold returned. apply omap_app. Qed.

Lemma maybeRun_start_shutdown id :
  maybeRun_start dryRun (shutdown_args id)
  = Some (negb dryRun, start_events dryRun id).
Proof. unfold maybeRun_start, start_events. by destruct dryRun. Qed.

Lemma maybeRun_finish_eq args :
  maybeRun_finish os args
  = Some (run_result os args, [EvRunDone args (run_result os args)]).
Proof. done. Qed.

Lemma run_group_spec fuel sched st :
  weight st ≤ fuel →
  ∃ r t,
    run_group os dryRun fuel sched st = Some (r, t)
    ∧ t ≡ₚ future os dryRun st
    ∧ r = match st_err st with
          | Some e => Some e
          | None => first_error (returned t)
          end.
Proof.
  revert sched st. induction fuel as [|fuel IH]; intros sched st Hfuel.
  { unfold weight in Hfuel. lia. }
  cbn [run_group].
  destruct (enabled_pick st (hd 0 sched)) as (th & -> & Hth).
  cbn [lift]. rewrite bind_ret_l. destruct th as [|i].
  - apply enabled_Main in Hth. unfold step_main.
    destruct (st_todo st) as [|mutual rest] eqn:Htodo.
    + destruct Hth as [?|Hu]; [done|].
      apply unfinished_nil in Hu as [Hev _].
      rewrite bind_ret_l. eexists _, _. split; [reflexivity|].
      unfold future. rewrite Htodo, Hev. cbn. split; [done|].
      by destruct (st_err st).
    + unfold weight in Hfuel. rewrite Htodo in Hfuel. cbn [length] in Hfuel.
      unfold future, record_events. rewrite Htodo. cbn [mbind list_bind].
      destruct (String.eqb (rec_status mutual) "running") eqn:Hrun.
      * rewrite bind_ret_l.
        edestruct (IH (tl sched)) as (r & t & -> & Hperm & Hr);
          [|eexists _, _; split; [reflexivity|]].
        { unfold weight. cbn [st_todo st_tasks]. rewrite sum_list_with_app.
          cbn. lia. }
        cbn [st_err] in Hr. split; [|done]. rewrite Hperm. unfold future.
        cbn [st_todo st_tasks]. rewrite bind_app. cbn.
        unfold task_events at 2. cbn [task_phase task_id].
        rewrite app_nil_r. solve_Permutation.
      * destruct (String.eqb (rec_status mutual) "stopped") eqn:Hstop.
        -- rewrite bind_ret_l.
           edestruct (IH (tl sched)) as (r & t & -> & Hperm & Hr);
             [|eexists _, _; split; [reflexivity|]].
           { unfold weight. cbn [st_todo st_tasks]. lia. }
           cbn [st_err] in Hr. split; [|done]. by rewrite Hperm.
        -- unfold bind at 2. unfold emit. cbn [ret]. cbn [bind].
           edestruct (IH (tl sched)) as (r & t & -> & Hperm & Hr);
             [|eexists _, _; split; [reflexivity|]].
           { unfold weight. cbn [st_todo st_tasks]. lia. }
           cbn [st_err] in Hr. split.
           ++ cbn. rewrite Hperm. unfold future. cbn [st_todo st_tasks]. done.
           ++ rewrite Hr. destruct (st_err st); [done|].
              by rewrite returned_app.
  - apply enabled_Task in Hth as (tk & Htk & Hfin).
    unfold step_task. rewrite Htk. cbn [lift]. rewrite bind_ret_l.
    unfold is_finished in Hfin. unfold weight in Hfuel. unfold future.
    destruct (task_phase tk) as [| |ret_r|] eqn:Hphase; [| | |done].
    + change ["qm"; "shutdown"; task_id tk] with (shutdown_args (task_id tk)).
      rewrite maybeRun_start_shutdown, bind_Some_l.
      destruct (tasks_insert (st_tasks st) i tk
                  {| task_id := task_id tk; task_phase := Returning None |} Htk)
        as (rest & W & Hp & Hp' & Hw & Hw').
      destruct (tasks_insert (st_tasks st) i tk
                  {| task_id := task_id tk; task_phase := Running |} Htk)
        as (rest1 & W1 & Hp1 & Hp1' & Hw1 & Hw1').
      destruct dryRun eqn:Hdry; cbn [negb ret].
      * edestruct (IH (tl sched) (set_phase st i tk (Returning None)))
          as (r & t & Hrun & Hperm & Hr).
        { unfold weight, set_phase. cbn [st_todo st_tasks].
          rewrite Hw'. rewrite Hw in Hfuel. unfold task_weight in Hfuel |- *.
          rewrite Hphase in Hfuel. cbn [task_phase]. lia. }
        rewrite bind_Some_l, Hrun.
        eexists _, _. split; [reflexivity|]. split.
        -- rewrite Hperm. unfold future, set_phase. cbn [st_todo st_tasks].
           rewrite Hp', Hp. unfold task_events. rewrite Hphase. cbn.
           unfold start_events, finish_events. cbn. solve_Permutation.
        -- rewrite Hr. unfold set_phase. cbn [st_err].
           destruct (st_err st); done.
      * edestruct (IH (tl sched) (set_phase st i tk Running))
          as (r & t & Hrun & Hperm & Hr).
        { unfold weight, set_phase. cbn [st_todo st_tasks].
          rewrite Hw1'. rewrite Hw1 in Hfuel. unfold task_weight in Hfuel |- *.
          rewrite Hphase in Hfuel. cbn [task_phase]. lia. }
        rewrite bind_Some_l, Hrun.
        eexists _, _. split; [reflexivity|]. split.
        -- rewrite Hperm. unfold future, set_phase. cbn [st_todo st_tasks].
           rewrite Hp1', Hp1. unfold task_events. rewrite Hphase. cbn.
           unfold start_events, finish_events. cbn. solve_Permutation.
        -- rewrite Hr. unfold set_phase. cbn [st_err].
           destruct (st_err st); done.
    + rewrite maybeRun_finish_eq, bind_Some_l. cbn [ret].
      set (res := run_result os ["qm"; "shutdown"; task_id tk]).
      destruct (tasks_insert (st_tasks st) i tk
                  {| task_id := task_id tk; task_phase := Returning res |} Htk)
        as (rest & W & Hp & Hp' & Hw & Hw').
      edestruct (IH (tl sched) (set_phase st i tk (Returning res)))
        as (r & t & Hrun & Hperm & Hr).
      { unfold weight, set_phase. cbn [st_todo st_tasks].
        rewrite Hw'. rewrite Hw in Hfuel. unfold task_weight in Hfuel |- *.
        rewrite Hphase in Hfuel. cbn [task_phase]. lia. }
      rewrite bind_Some_l, Hrun.
      eexists _, _. split; [reflexivity|]. split.
      * rewrite Hperm. unfold future, set_phase. cbn [st_todo st_tasks].
        rewrite Hp', Hp. unfold task_events. rewrite Hphase. cbn.
        solve_Permutation.
      * rewrite Hr. unfold set_phase. cbn [st_err].
        destruct (st_err st); [done|]. by rewrite returned_app.
    + unfold bind at 2. unfold emit. cbn [ret]. cbn [bind].
      destruct (tasks_insert (st_tasks st) i tk
                  {| task_id := task_id tk; task_phase := Finished |} Htk)
        as (rest & W & Hp & Hp' & Hw & Hw').
      edestruct (IH (tl sched) (finish st i tk ret_r))
        as (r & t & Hrun & Hperm & Hr).
      { unfold weight, finish. cbn [st_todo st_tasks].
        rewrite Hw'. rewrite Hw in Hfuel. unfold task_weight in Hfuel |- *.
        rewrite Hphase in Hfuel. cbn [task_phase]. lia. }
      rewrite Hrun.
      eexists _, _. split; [reflexivity|]. split.
      * cbn. rewrite Hperm. unfold future, finish. cbn [st_todo st_tasks].
        rewrite Hp', Hp. unfold task_events. rewrite Hphase. cbn.
        solve_Permutation.
      * rewrite Hr. unfold finish. cbn [st_err].
        destruct (st_err st); [done|]. cbn. by destruct ret_r.
Qed.

End Group.

(** ** Traces without requests *)

Lemma requests_app t1 t2 : requests (t1 ++ t2) = requests t1 ++ requests t2.
Proof. unfold requests. apply omap_app. Qed.

Lemma scan_events_no_requests t : Forall scan_event t → requests t = [].
Proof.
  induction 1 as [|e t He _ IH]; [done|]. unfold requests in *. cbn.
  rewrite IH. by destruct e.
Qed.

Lemma scan_events_no_returns t : Forall scan_event t → returned t = [].
Proof.
  induction 1 as [|e t He _ IH]; [done|]. unfold returned in *. cbn.
  rewrite IH. by destruct e.
Qed.

Lemma record_events_requests os dryRun recs :
  requests (recs ≫= record_events os dryRun)
  = if dryRun then []
    else (shutdown_args ∘ rec_id) <$> List.filter is_running recs.
Proof.
  induction recs as [|r recs IH].
  { by destruct dryRun. }
  rewrite bind_cons, requests_app, IH. cbn [List.filter].
  unfold record_events, is_running, start_events, finish_events.
  destruct (String.eqb (rec_status r) "running"), dryRun; try done;
    by destruct (String.eqb (rec_status r) "stopped").
Qed.

Lemma record_events_finished os dryRun recs :
  finished (recs ≫= record_events os dryRun)
  = requests (recs ≫= record_events os dryRun).
Proof.
  induction recs as [|r recs IH]; [done|].
  rewrite bind_cons, requests_app. unfold finished in *.
  rewrite omap_app, IH. f_equal.
  unfold record_events, start_events, finish_events.
  destruct (String.eqb (rec_status r) "running"), dryRun; try done;
    by destruct (String.eqb (rec_status r) "stopped").
Qed.

Lemma record_events_returned os dryRun recs :
  returned (recs ≫= record_events os dryRun)
  = (shutdown_outcome os dryRun ∘ rec_id) <$> List.filter is_running recs.
Proof.
  induction recs as [|r recs IH]; [done|].
  rewrite bind_cons, returned_app, IH. cbn [List.filter].
  unfold record_events, is_running, start_events, finish_events,
    shutdown_outcome.
  destruct (String.eqb (rec_status r) "running"), dryRun; try done;
    by destruct (String.eqb (rec_status r) "stopped").
Qed.

Lemma first_error_None outs :
  first_error outs = None ↔ Forall (λ o, o = None) outs.
Proof.
  induction outs as [|[e|] outs IH]; cbn.
  - split; [|done]. by constructor.
  - split; [done|]. by intros [? _]%Forall_cons.
  - rewrite IH, Forall_cons. tauto.
Qed.

Lemma first_error_Some outs e :
  first_error outs = Some e → Some e ∈ outs.
Proof.
  induction outs as [|[e'|] outs IH]; cbn; [done| |].
  - intros [= ->]. by left.
  - intros H. right. auto.
Qed.

Lemma stop_records_spec os dryRun sched recs :
  ∃ r t,
    stop_records os dryRun sched recs = Some (r, t)
    ∧ t ≡ₚ recs ≫= record_events os dryRun
    ∧ r = first_error (returned t).
Proof.
  unfold stop_records.
  destruct (run_group_spec os dryRun (4 * length recs + 1) sched
              {| st_todo := recs; st_tasks := []; st_err := None |})
    as (r & t & Hrun & Hperm & Hr).
  { unfold weight. cbn. lia. }
  exists r, t. split; [done|]. split; [|done].
  rewrite Hperm. unfold future. cbn. by rewrite app_nil_r.
Qed.

(** ** The claims *)

(** C2: mutuality is symmetric.  When the commands succeed and two distinct
    guests [A] and [B] of the listing have configurations whose label sets
    share a label, [mutuals A] returns a record of [B] and [mutuals B] a
    record of [A], both without error. *)
Theorem mutuals_symmetric os A B RA RB eA eB tA tB l :
  succeeds os → A ≠ B → listed os A → listed os B →
  hostResources os A = Some ((RA, eA), tA) →
  hostResources os B = Some ((RB, eB), tB) →
  l ∈ RA → l ∈ RB →
  ∃ recsA tA' recsB tB',
    mutuals os A = Some ((recsA, None), tA')
    ∧ B ∈ rec_id <$> recsA
    ∧ mutuals os B = Some ((recsB, None), tB')
    ∧ A ∈ rec_id <$> recsB.
Proof.
  intros Hs Hne HlA HlB HA HB HlRA HlRB.
  assert (∀ X Y RX RY eX eY tX tY,
            X ≠ Y → listed os Y →
            hostResources os X = Some ((RX, eX), tX) →
            hostResources os Y = Some ((RY, eY), tY) →
            l ∈ RX → l ∈ RY →
            ∃ recs t, mutuals os X = Some ((recs, None), t)
                      ∧ Y ∈ rec_id <$> recs) as Hone.
  { intros X Y RX RY eX eY tX tY HXY HlY HX HY HlX HlY'.
    destruct (mutuals_spec os X)
      as (R & e0 & t0 & recs & err & t & HX' & Hm & _ & _ & _ & Hsucc).
    rewrite HX in HX'. simplify_eq.
    destruct (Hsucc Hs) as [-> Hall]. exists recs, t. split; [done|].
    destruct (config_calls_spec os Y R)
      as (RY' & eY' & tY' & b & err' & t' & HY' & Hsh & _ & _ & Hb & _).
    rewrite HY in HY'. simplify_eq.
    destruct (Hall Y HlY) as (r & Hr & Hid); [done| |].
    - assert (b = true) as -> by (apply Hb; eauto). eauto.
    - apply list_elem_of_fmap. eauto. }
  destruct (Hone A B RA RB eA eB tA tB) as (recsA & tA' & ? & ?); try done.
  destruct (Hone B A RB RA eB eA tB tA) as (recsB & tB' & ? & ?); try done.
  by exists recsA, tA', recsB, tB'.
Qed.

(** C3: mutuality is irreflexive.  For every world (every listing and
    every configuration) [mutuals A] returns, and none of its records has
    the id [A]. *)
Theorem mutuals_irreflexive os A :
  ∃ recs err t,
    mutuals os A = Some ((recs, err), t)
    ∧ ∀ r, r ∈ recs → rec_id r ≠ A.
Proof.
  destruct (mutuals_spec os A)
    as (R & e0 & t0 & recs & err & t & _ & Hm & _ & Hself & _).
  exists recs, err, t. split; [done|].
  intros r Hr. by apply (proj1 (Forall_forall _ _) Hself).
Qed.

(** C10: a target without resource labels has no mutuals.  When
    [hostResources] gives the empty set for the target,
    [sharesHostResources] over that set answers false for every guest,
    [mutuals] returns the empty list, and [stopMutuals] starts no command
    at all, whatever the listing, the configurations, the dry-run flag and
    the schedule are. *)
Theorem no_resources_no_shutdown os target e0 t0 :
  hostResources os target = Some ((∅, e0), t0) →
  (∀ id, ∃ err t, sharesHostResources os id ∅ = Some ((false, err), t))
  ∧ (∃ err t, mutuals os target = Some (([], err), t))
  ∧ ∀ dryRun sched,
      ∃ r t, stopMutuals os dryRun sched target = Some (r, t)
             ∧ requests t = [].
Proof.
  intros Hh. split_and!.
  - intros id.
    destruct (config_calls_spec os id ∅)
      as (R & e & t & b & err' & t' & _ & Hsh & _ & _ & Hb & _).
    exists err', t'. rewrite Hsh. destruct b; [|done].
    destruct Hb as [Hb _]. destruct (Hb eq_refl) as (l & _ & Hl). set_solver.
  - destruct (mutuals_spec os target)
      as (R & e & t & recs & err & t' & HR & Hm & _ & _ & Hempty & _).
    rewrite Hh in HR. simplify_eq. exists err, t'. by rewrite Hm, Hempty.
  - intros dryRun sched.
    destruct (mutuals_spec os target)
      as (R & e & t & recs & err & t' & HR & Hm & Ht' & _ & Hempty & _).
    rewrite Hh in HR. simplify_eq. rewrite (Hempty eq_refl) in Hm.
    unfold stopMutuals. rewrite Hm, bind_Some_l. destruct err as [e'|].
    + eexists _, _. split; [reflexivity|].
      rewrite app_nil_r. by apply scan_events_no_requests.
    + destruct (stop_records_spec os dryRun sched [])
        as (r & ts & -> & Hperm & _).
      eexists _, _. split; [reflexivity|].
      apply Permutation_nil_r in Hperm as ->. rewrite app_nil_r.
      by apply scan_events_no_requests.
Qed.

(** C4: what [stopMutuals] does with its records.  For every list of
    records, every schedule and either value of the dry-run flag, the
    shutdown part of [stopMutuals] returns, and the events it caused are,
    up to their order, those of [record_events] for each record: a started
    and finished [qm shutdown id], whose result its goroutine hands to the
    group, for a record that is [running], nothing for one that is
    [stopped], one line of log for any other status.  So the
    commands it starts are one shutdown per running record, none at all in
    a dry run, where it also returns no error.  [stopMutuals] on a guest for
    which [mutuals] gave these records is [mutuals] followed by this. *)
Theorem stop_records_requests os dryRun sched recs :
  ∃ r t,
    stop_records os dryRun sched recs = Some (r, t)
    ∧ t ≡ₚ recs ≫= record_events os dryRun
    ∧ requests t
      ≡ₚ (if dryRun then []
          else (shutdown_args ∘ rec_id) <$> List.filter is_running recs)
    ∧ (dryRun = true → r = None)
    ∧ ∀ vmid t0,
        mutuals os vmid = Some ((recs, None), t0) →
        stopMutuals os dryRun sched vmid = Some (r, t0 ++ t).
Proof.
  destruct (stop_records_spec os dryRun sched recs) as (r & t & Hrun & Hperm & Hr).
  exists r, t. split_and!; try done.
  - rewrite <- (record_events_requests os). unfold requests. by rewrite Hperm.
  - intros ->. rewrite Hr. apply first_error_None.
    assert (returned t
            ≡ₚ (shutdown_outcome os true ∘ rec_id) <$> List.filter is_running recs)
      as ->.
    { rewrite <- record_events_returned. unfold returned. by rewrite Hperm. }
    by apply Forall_fmap, Forall_true.
  - intros vmid t0 Hm. unfold stopMutuals. by rewrite Hm, bind_Some_l, Hrun.
Qed.

(** The records of guest 101 among [three_guests], stopped in earnest. *)
Lemma stop_records_requests_witness :
  ∃ recs t0 r t,
    mutuals three_guests "101" = Some ((recs, None), t0)
    ∧ stopMutuals three_guests false [] "101" = Some (r, t0 ++ t)
    ∧ requests t ≡ₚ [shutdown_args "103"].
Proof.
  pose (recs := [{| rec_id := "102"; rec_name := "linvm";
                    rec_status := "stopped" |};
                 {| rec_id := "103"; rec_name := "other";
                    rec_status := "running" |}]).
  destruct (stop_records_requests three_guests false [] recs)
    as (r & t & _ & _ & Hreq & _ & Hstop).
  eexists recs, _, r, t.
  split; [vm_compute; reflexivity|]. split; [|exact Hreq].
  apply Hstop. vm_compute; reflexivity.
Defined.

(** C5: the errors of the shutdowns.  For every list of records and every
    schedule, that is every interleaving of the goroutines, the shutdown
    part of [stopMutuals] returns.  What it returns is the first error that
    reached the group, in the order in which the goroutines handed it what
    their shutdown returned, and the later ones are dropped.  Whatever the
    shutdowns return, one was started for each running record; each of them
    had ended, and each goroutine had handed over its result, when
    [stopMutuals] returned. *)
Theorem stop_records_first_error os dryRun sched recs :
  ∃ r t,
    stop_records os dryRun sched recs = Some (r, t)
    ∧ r = first_error (returned t)
    ∧ returned t
      ≡ₚ (shutdown_outcome os dryRun ∘ rec_id) <$> List.filter is_running recs
    ∧ requests t
      ≡ₚ (if dryRun then []
          else (shutdown_args ∘ rec_id) <$> List.filter is_running recs)
    ∧ finished t ≡ₚ requests t.
Proof.
  destruct (stop_records_spec os dryRun sched recs) as (r & t & Hrun & Hperm & Hr).
  exists r, t. split_and!; try done.
  - rewrite <- record_events_returned. unfold returned. by rewrite Hperm.
  - rewrite <- (record_events_requests os). unfold requests. by rewrite Hperm.
  - unfold finished, requests. rewrite Hperm.
    fold (finished (recs ≫= record_events os dryRun)).
    fold (requests (recs ≫= record_events os dryRun)).
    by rewrite record_events_finished.
Qed.

(** Which error is the first depends on the schedule, and not only on the
    order in which the shutdowns end: of two failing shutdowns, the one of
    guest 103 ending before the one of guest 104, either error can be the
    one returned, according to which goroutine reaches the group first. *)
Example first_error_follows_the_group :
  stop_records two_failures false [0; 0; 0; 1; 0; 1] two_running
  = Some (Some (ExitError 256),
          [EvLog "run %q" [FStrs (shutdown_args "103")];
           EvRun (shutdown_args "103");
           EvLog "run %q" [FStrs (shutdown_args "104")];
           EvRun (shutdown_args "104");
           EvRunDone (shutdown_args "103") (Some (ExitError 256));
           EvRunDone (shutdown_args "104") (Some (ExitError 512));
           EvReturn (Some (ExitError 256));
           EvReturn (Some (ExitError 512))])
  ∧ stop_records two_failures false [0; 0; 0; 1; 0; 1; 1] two_running
    = Some (Some (ExitError 512),
            [EvLog "run %q" [FStrs (shutdown_args "103")];
             EvRun (shutdown_args "103");
             EvLog "run %q" [FStrs (shutdown_args "104")];
             EvRun (shutdown_args "104");
             EvRunDone (shutdown_args "103") (Some (ExitError 256));
             EvRunDone (shutdown_args "104") (Some (ExitError 512));
             EvReturn (Some (ExitError 512));
             EvReturn (Some (ExitError 256))]).
Proof. split; vm_compute; reflexivity. Qed.

(** ** Sticky errors *)

Lemma apply_op_keeps_err os op csc e csc' :
  csc_err csc = Some e → apply_op os op csc = Some csc' →
  csc_err csc' = Some e.
Proof.
  intros He. destruct op as [| |errp]; cbn [apply_op].
  - unfold cmdScanner_Scan. rewrite He. cbn. by intros [= <-].
  - unfold cmdScanner_Err. rewrite He. cbn. by intros [= <-].
  - destruct (csc_cmd csc) as [c|] eqn:Hc.
    2:{ unfold cmdScanner_Cleanup. by rewrite Hc. }
    destruct (Process c) eqn:Hp.
    + destruct (Cmd_Wait_total os c (unread os csc)) as (werr & c' & Hw & _).
      destruct (Cleanup_started os csc c errp werr c' _ Hc Hp Hw)
        as (csc1 & report & Hreport & -> & Herr & _).
      cbn. intros [= <-]. rewrite Herr, Hreport.
      unfold cmdScanner_Err. by rewrite He.
    + unfold cmdScanner_Cleanup. rewrite Hc. cbn [lift].
      rewrite bind_ret_l, Hp, bind_ret_l.
      unfold cmdScanner_Err. rewrite He. cbn.
      destruct errp as [[?|]|]; cbn; by intros [= <-].
Qed.

(** C6: the error of a scanner is sticky.  Once a scanner holds an error,
    after any sequence of [Scan], [Err] and [Cleanup] (with any pointer)
    that does not panic, in any world, so whatever the reads, the start and
    the exit of the command give, it holds the same error; its [Scan]
    returns false, changes nothing in it and starts nothing; and its [Err]
    returns that error. *)
Theorem cmdScanner_err_sticky os csc e ops csc' :
  csc_err csc = Some e → apply_ops os ops csc = Some csc' →
  csc_err csc' = Some e
  ∧ cmdScanner_Scan os csc' = Some ((false, csc'), [])
  ∧ cmdScanner_Err csc' = (Some e, csc').
Proof.
  intros He Hops.
  assert (csc_err csc' = Some e) as He'.
  { revert csc He Hops. induction ops as [|op ops IH]; intros csc He.
    - by intros [= <-].
    - cbn [apply_ops]. destruct (apply_op os op csc) as [csc1|] eqn:Hop; [|done].
      cbn. apply IH. by eapply apply_op_keeps_err. }
  split; [done|]. unfold cmdScanner_Scan, cmdScanner_Err. by rewrite He'.
Qed.

(** ** The hook *)

(** C8: the dispatch of the hook.  With fewer than two arguments [runHook]
    returns the usage error and does nothing; with a second argument that
    is none of the four phases it returns the error that names it and does
    nothing; for [post-start], [pre-stop] and [post-stop] it returns nil and
    does nothing; for [pre-start], and only then, it is [stopMutuals] on its
    first argument.  Arguments after the second are not looked at. *)
Theorem runHook_dispatch os dryRun sched progName :
  (∀ args, length args < 2 →
     runHook os dryRun sched progName args
     = Some (Some (Errorf "usage: %s <vmid> <phase>" [FStr progName]), []))
  ∧ (∀ vmid phase rest,
       phase ∉ ["pre-start"; "post-start"; "pre-stop"; "post-stop"]%string →
       runHook os dryRun sched progName (vmid :: phase :: rest)
       = Some (Some (Errorf "got unknown phase %q" [FStr phase]), []))
  ∧ (∀ vmid phase rest,
       phase ∈ ["post-start"; "pre-stop"; "post-stop"]%string →
       runHook os dryRun sched progName (vmid :: phase :: rest)
       = Some (None, []))
  ∧ (∀ vmid rest,
       runHook os dryRun sched progName (vmid :: "pre-start"%string :: rest)
       = stopMutuals os dryRun sched vmid).
Proof.
  assert (∀ vmid phase rest,
            runHook os dryRun sched progName (vmid :: phase :: rest)
            = if String.eqb phase "pre-start" then stopMutuals os dryRun sched vmid
              else if String.eqb phase "post-start" then ret None
              else if String.eqb phase "pre-stop" then ret None
              else if String.eqb phase "post-stop" then ret None
              else ret (Some (Errorf "got unknown phase %q" [FStr phase])))
    as Hrun.
  { intros vmid phase rest. unfold runHook.
    destruct (Z.ltb_spec (Z.of_nat (length (vmid :: phase :: rest))) 2) as [Hl|_].
    { cbn [length] in Hl. lia. }
    change (index (vmid :: phase :: rest) 0) with (Some vmid).
    change (index (vmid :: phase :: rest) 1) with (Some phase).
    cbn [lift]. by rewrite !bind_ret_l. }
  split_and!.
  - intros args Hlen. unfold runHook.
    by destruct (Z.ltb_spec (Z.of_nat (length args)) 2); [|lia].
  - intros vmid phase rest Hphase. rewrite Hrun.
    rewrite !not_elem_of_cons in Hphase. destruct Hphase as (? & ? & ? & ? & _).
    destruct (String.eqb_spec phase "pre-start"); [done|].
    destruct (String.eqb_spec phase "post-start"); [done|].
    destruct (String.eqb_spec phase "pre-stop"); [done|].
    by destruct (String.eqb_spec phase "post-stop").
  - intros vmid phase rest Hphase. rewrite Hrun.
    rewrite !elem_of_cons in Hphase.
    destruct Hphase as [->|[->|[->|Hnil]]]; try done.
    by apply elem_of_nil in Hnil.
  - intros vmid rest. by rewrite Hrun.
Qed.

Lemma runHook_dispatch_witness :
  runHook three_guests false [] "qmexmut.hook" ["101"]
  = Some (Some (Errorf "usage: %s <vmid> <phase>" [FStr "qmexmut.hook"]), [])
  ∧ runHook three_guests false [] "qmexmut.hook" ["101"; "start"]
    = Some (Some (Errorf "got unknown phase %q" [FStr "start"]), [])
  ∧ runHook three_guests false [] "qmexmut.hook" ["101"; "post-stop"; "x"]
    = Some (None, []).
Proof.
  destruct (runHook_dispatch three_guests false [] "qmexmut.hook")
    as (Husage & Hunknown & Hnoop & _).
  split_and!.
  - apply Husage. cbn. lia.
  - apply Hunknown. rewrite !not_elem_of_cons. split_and!; try done.
    apply not_elem_of_nil.
  - apply Hnoop. rewrite !elem_of_cons. auto.
Defined.

(** ** What a matcher shows of its match *)

(** C9, as stated, fails: [MatchText 0] is not the raw line.  On the header
    of [qm list], which begins with blanks and goes on after the third
    column, the matcher of [listPat] holds in slot 0 the text of the match
    only. *)
Lemma MatchText_0_not_raw_line :
  cmdMatcher_Scan three_guests
    (matchCommand (exec_Command "qm" ["list"]) listPat)
  = Some ((true, listing_at_header), [EvStart ["qm"; "list"]])
  ∧ cmdScanner_Bytes (cmm_cmdScanner listing_at_header)
    = Some (Some "      VMID NAME                 STATUS     MEM(MB)    BOOTDISK(GB) PID       "%string)
  ∧ cmdMatcher_MatchText listing_at_header 0
    = Some "VMID NAME                 STATUS     "%string.
Proof. split_and!; vm_compute; reflexivity. Qed.

(** C9, amended: after a [Scan] of a matcher that returned true, the
    matcher holds the match of its pattern on the line just read.
    [MatchText 0] is the text that the whole pattern matched, a piece of
    that line (all of it only when the match spans the line); for an index
    from zero up to the number of slots, [MatchText] is the text of that
    slot and [Match] the slot; from the number of slots on, [MatchText] is
    the empty string and [Match] nil, without a panic; and so they are at
    every index from zero on for a matcher that holds no match. *)
Theorem MatchText_after_Scan os cmm cmm' t :
  cmdMatcher_Scan os cmm = Some ((true, cmm'), t) →
  ∃ line slots whole pre post,
    cmdScanner_Bytes (cmm_cmdScanner cmm') = Some (Some line)
    ∧ cmm_match cmm' = Some slots
    ∧ FindSubmatch (cmm_pat cmm') (Some line) = Some slots
    ∧ length slots = S (NumSubexp (cmm_pat cmm'))
    ∧ line = (pre +:+ whole +:+ post)%string
    ∧ cmdMatcher_MatchText cmm' 0 = Some whole
    ∧ (∀ i b, (0 ≤ i)%Z → slots !! Z.to_nat i = Some b →
         cmdMatcher_MatchText cmm' i = Some (string_of b)
         ∧ cmdMatcher_Match cmm' i = Some b)
    ∧ (∀ i, (Z.of_nat (length slots) ≤ i)%Z →
         cmdMatcher_MatchText cmm' i = Some ""%string
         ∧ cmdMatcher_Match cmm' i = Some None)
    ∧ ∀ cmm0 i, cmm_match cmm0 = None → (0 ≤ i)%Z →
         cmdMatcher_MatchText cmm0 i = Some ""%string
         ∧ cmdMatcher_Match cmm0 i = Some None.
Proof.
  intros Hscan.
  destruct (cmdMatcher_Scan_spec os cmm)
    as (b & cmm1 & t1 & Hscan1 & _ & Hpat & _ & _ & Hb).
  rewrite Hscan in Hscan1. simplify_eq.
  destruct Hb as (line & slots & Hm & Hfind & Hbytes & _).
  destruct (FindSubmatch_whole _ _ _ Hfind) as (whole & pre & post & H0 & Hline).
  exists line, slots, whole, pre, post. rewrite Hpat. split_and!; try done.
  - by eapply FindSubmatch_length.
  - by apply (MatchText_in_range cmm1 slots 0 (Some whole)).
  - intros i b Hi Hb. split.
    + by apply MatchText_in_range with slots.
    + by apply Match_in_range with slots.
  - intros i Hi. rewrite <- (match_slots_Some _ _ Hm) in Hi.
    split; [by apply MatchText_out_of_range|by apply Match_out_of_range].
  - intros cmm0 i Hnone Hi.
    split; [apply MatchText_out_of_range|apply Match_out_of_range];
      unfold match_slots; rewrite Hnone; cbn; lia.
Qed.

(** The line of guest 101 in the listing of [three_guests]. *)
Lemma MatchText_after_Scan_witness :
  cmdMatcher_Scan three_guests listing_at_header
  = Some ((true, listing_at_101), [])
  ∧ ∃ whole,
      cmdMatcher_MatchText listing_at_101 0 = Some whole
      ∧ (∃ pre post,
           "       101 winvm                running    4096              32.00 1234      "%string
           = (pre +:+ whole +:+ post)%string)
      ∧ cmdMatcher_MatchText listing_at_101 7 = Some ""%string
      ∧ cmdMatcher_Match listing_at_101 7 = Some None.
Proof.
  assert (cmdMatcher_Scan three_guests listing_at_header
          = Some ((true, listing_at_101), [])) as Hscan
    by (vm_compute; reflexivity).
  split; [exact Hscan|].
  destruct (MatchText_after_Scan _ _ _ _ Hscan)
    as (line & slots & whole & pre & post & Hb & Hm & _ & Hlen & Hline & H0
        & _ & Hout & _).
  injection Hb as <-. injection Hm as <-.
  exists whole. split; [exact H0|]. split; [by exists pre, post|].
  apply Hout. vm_compute. discriminate.
Defined.

(** ** The claims on concrete worlds *)

Lemma three_guests_succeeds : succeeds three_guests.
Proof.
  intros args. unfold three_guests. cbn [command].
  repeat case_bool_decide; cbn; auto.
Qed.

(** Guests 101 and 102 of [three_guests] share the PCI device. *)
Lemma mutuals_symmetric_witness :
  ∃ recsA tA recsB tB,
    mutuals three_guests "101" = Some ((recsA, None), tA)
    ∧ "102"%string ∈ rec_id <$> recsA
    ∧ mutuals three_guests "102" = Some ((recsB, None), tB)
    ∧ "101"%string ∈ rec_id <$> recsB.
Proof.
  eapply (mutuals_symmetric three_guests "101" "102" _ _ _ _ _ _
            "hostpci:0000:01:00.0").
  - exact three_guests_succeeds.
  - discriminate.
  - exists [Some "101 winvm                running    "%string; Some "101"%string;
            Some "winvm"%string; Some "running"%string].
    split; [vm_compute; repeat constructor|reflexivity].
  - exists [Some "102 linvm                stopped    "%string; Some "102"%string;
            Some "linvm"%string; Some "stopped"%string].
    split; [vm_compute; repeat constructor|reflexivity].
  - vm_compute; reflexivity.
  - vm_compute; reflexivity.
  - vm_compute; reflexivity.
  - vm_compute; reflexivity.
Defined.

(** Guest 104 of [three_guests] has an empty configuration. *)
Lemma no_resources_no_shutdown_witness :
  (∃ err t, mutuals three_guests "104" = Some (([], err), t))
  ∧ ∃ r t, stopMutuals three_guests false [] "104" = Some (r, t)
           ∧ requests t = [].
Proof.
  destruct (no_resources_no_shutdown three_guests "104" None
              [EvStart ["qm"; "config"; "104"]; EvKill ["qm"; "config"; "104"];
               EvWait ["qm"; "config"; "104"]])
    as (_ & Hm & Hstop).
  - vm_compute; reflexivity.
  - split; [exact Hm|]. apply Hstop.
Defined.

(** A scanner holding a read error keeps it through a cleanup whose
    command exits with status 1. *)
Lemma cmdScanner_err_sticky_witness :
  ∃ csc',
    apply_ops pipes_break [OpScan; OpCleanup (Some None); OpErr; OpCleanup None]
      read_failed = Some csc'
    ∧ csc_err csc'
      = Some (Wrapf "io error: %w" []
                (ErrorString "read |0: input/output error"))
    ∧ cmdScanner_Scan pipes_break csc' = Some ((false, csc'), []).
Proof.
  eexists. split; [vm_compute; reflexivity|].
  match goal with
  | |- csc_err ?c = _ ∧ _ =>
      destruct (cmdScanner_err_sticky pipes_break read_failed
                  (Wrapf "io error: %w" []
                     (ErrorString "read |0: input/output error"))
                  [OpScan; OpCleanup (Some None); OpErr; OpCleanup None] c)
        as (Herr & Hscan & _)
  end.
  - reflexivity.
  - vm_compute; reflexivity.
  - split; [exact Herr|exact Hscan].
Defined.

(** A scanner stopped after one line of three: the command dies of the
    kill signal and the cleanup reports nothing.  A command that has ended
    by itself with the exit code 1: the cleanup reports that, wrapped with
    the arguments of the command. *)
Lemma cmdScanner_Cleanup_reports_witness :
  (∃ csc',
     cmdScanner_Cleanup long_configs one_line_read (Some None)
     = Some ((csc', Some None),
             [EvKill ["qm"; "config"; "101"]; EvWait ["qm"; "config"; "101"]])
     ∧ csc_err csc' = None)
  ∧ ∃ csc',
      cmdScanner_Cleanup exits_with_1 all_read (Some None)
      = Some ((csc',
               Some (Some (Wrapf "command %q failed: %w"
                             [FStrs ["qm"; "config"; "101"]]
                             (ExitError 256)))),
              [EvKill ["qm"; "config"; "101"]; EvWait ["qm"; "config"; "101"]])
      ∧ csc_err csc' = Some (ExitError 256).
Proof.
  split.
  - destruct (cmdScanner_Cleanup_reports long_configs one_line_read
                {| Args := ["qm"; "config"; "101"]; Process := true;
                   ProcessState := false |}
                (Some None) (Some (ExitError 9))
                {| Args := ["qm"; "config"; "101"]; Process := true;
                   ProcessState := true |}
                [EvWait ["qm"; "config"; "101"]] eq_refl eq_refl eq_refl)
      as (csc' & report & Hcleanup & Herr & _ & _ & Hwait).
    destruct (Hwait eq_refl) as (_ & Hkill & _).
    assert (report = None) as ->.
    { apply Hkill. exists (ExitError 9), 9%Z. split_and!; reflexivity. }
    exists csc'. split; [exact Hcleanup|exact Herr].
  - destruct (cmdScanner_Cleanup_reports exits_with_1 all_read
                {| Args := ["qm"; "config"; "101"]; Process := true;
                   ProcessState := false |}
                (Some None) (Some (ExitError 256))
                {| Args := ["qm"; "config"; "101"]; Process := true;
                   ProcessState := true |}
                [EvWait ["qm"; "config"; "101"]] eq_refl eq_refl eq_refl)
      as (csc' & report & Hcleanup & Herr & _ & _ & Hwait).
    destruct (Hwait eq_refl) as (_ & _ & Hother).
    assert (report = Some (ExitError 256)) as ->.
    { apply Hother. intros (e & w & [= <-] & [= <-] & Hw). discriminate Hw. }
    exists csc'. split; [exact Hcleanup|exact Herr].
Defined.

(** ** The kill signal *)

(** X1. [isKillError] holds exactly of an error whose chain of wrapped errors
    leads to an exit error with the low seven bits of the wait status equal
    to 9, the number of the kill signal; the status of a process that exited
    by itself, whatever its exit code, is never one. *)
Theorem isKillError_iff :
  (∀ err,
     isKillError err = true ↔
     ∃ e w, err = Some e ∧ As_ExitError e = Some w ∧ Z.land w 0x7F = 9%Z)
  ∧ (∀ code, isKillError (Some (ExitError (code * 256))) = false)
  ∧ (∀ format args e,
       isKillError (Some (Wrapf format args e)) = isKillError (Some e))
  ∧ isKillError None = false.
Proof.
  split_and!; [| |done..].
  - intros err. unfold isKillError, WaitStatus.Signal, WaitStatus.Signaled.
    change 0x7F%Z with WaitStatus.mask.
    split.
    + destruct err as [e|]; [|done]. destruct (As_ExitError e) as [w|] eqn:E; [|done].
      intros H. exists e, w. split_and!; [done..|].
      rewrite land_mask_mod in *.
      unfold WaitStatus.stopped, WaitStatus.exited, WaitStatus.SIGKILL in H.
      destruct (w mod 128 =? 127)%Z eqn:E1; [done|].
      destruct (w mod 128 =? 0)%Z eqn:E2; [done|]. simpl in H. lia.
    + intros (e & w & -> & -> & Hw). rewrite Hw. done.
  - intros code. unfold isKillError, WaitStatus.Signal, WaitStatus.Signaled.
    simpl As_ExitError. cbv iota beta. rewrite !land_mask_mod.
    replace (code * 256)%Z with (code * 2 * 128)%Z by lia.
    by rewrite !Z.mod_mul.
Qed.

(** ** The error of a scanner *)

(** X2. [Err] returns the error the scanner holds afterwards, and a second
    call returns the same error again: the error of the reader is wrapped as
    an io error once, not once for every call.  The command and the reader
    are left as they were. *)
Theorem cmdScanner_Err_idempotent csc :
  csc_err (cmdScanner_Err csc).2 = (cmdScanner_Err csc).1
  ∧ cmdScanner_Err (cmdScanner_Err csc).2 = cmdScanner_Err csc
  ∧ csc_cmd (cmdScanner_Err csc).2 = csc_cmd csc
  ∧ csc_Scanner (cmdScanner_Err csc).2 = csc_Scanner csc
  ∧ (cmdScanner_Err csc).1
    = match csc_err csc with
      | Some e => Some e
      | None => Wrapf "io error: %w" [] <$> (csc_Scanner csc ≫= Scanner_Err)
      end.
Proof.
  destruct csc as [c [e|] [sc|]]; unfold cmdScanner_Err; simpl; try done.
  destruct (Scanner_Err sc) as [e|] eqn:E; simpl; [done|].
  by rewrite E.
Qed.

(** ** Storages with snippets *)

Lemma hasString_elem_of wanted ss : hasString wanted ss = true ↔ wanted ∈ ss.
Proof.
  induction ss as [|s ss IH]; simpl.
  - split; [done|]. by intros ?%elem_of_nil.
  - rewrite elem_of_cons. destruct (String.eqb_spec s wanted) as [->|Hne].
    + split; auto.
    + rewrite IH. split; [auto|]. intros [?|?]; [congruence|done].
Qed.

Lemma findSnippets_loop_skip st stores :
  ¬ offers_snippets st →
  findSnippets_loop (st :: stores) = findSnippets_loop stores.
Proof.
  intros Hno. simpl. destruct (String.eqb_spec (Path st) "") as [|Hp]; [done|].
  destruct (hasString _ _) eqn:Hh; [|done].
  apply hasString_elem_of in Hh. by destruct Hno.
Qed.

(** X3. [findSnippets] answers with the name and the path of the first
    storage that has a path and takes snippets, whatever comes after it;
    when no storage of the list qualifies it answers with an empty name and
    an empty path (and, in the program, without an error). *)
Theorem findSnippets_loop_first :
  (∀ pre st post,
     Forall (λ s, ¬ offers_snippets s) pre → offers_snippets st →
     findSnippets_loop (pre ++ st :: post) = (Name st, Path st))
  ∧ (∀ stores,
       Forall (λ s, ¬ offers_snippets s) stores →
       findSnippets_loop stores = (""%string, ""%string)).
Proof.
  split.
  - intros pre st post Hpre [Hp Hc].
    induction Hpre as [|s pre Hs _ IH].
    + simpl. destruct (String.eqb_spec (Path st) "") as [|_]; [done|].
      apply hasString_elem_of in Hc. by rewrite Hc.
    + simpl app. by rewrite findSnippets_loop_skip.
  - intros stores Hall. induction Hall as [|s stores Hs _ IH]; [done|].
    by rewrite findSnippets_loop_skip.
Qed.

Lemma findSnippets_loop_first_witness :
  findSnippets_loop some_storages = ("local"%string, "/var/lib/vz"%string)
  ∧ findSnippets_loop (take 2 some_storages) = (""%string, ""%string).
Proof.
  split.
  - apply (proj1 findSnippets_loop_first (take 2 some_storages)
             {| Name := "local"; Content := "iso,snippets,vztmpl";
                Path := "/var/lib/vz" |}
             (drop 3 some_storages)).
    + repeat constructor; intros [Hp Hc]; [by apply Hp|].
      vm_compute in Hc. set_solver.
    + split; [done|]. vm_compute. set_solver.
  - apply (proj2 findSnippets_loop_first).
    repeat constructor; intros [Hp Hc]; [by apply Hp|].
    vm_compute in Hc. set_solver.
Defined.

(** ** Scanners at work *)

Section Readers.

Variable os : world.

#[local] Arguments FindSubmatch : simpl never.

Lemma Scan_scanning c fe tok ex lines :
  Process c = true →
  cmdScanner_Scan os (scanning c fe tok ex lines)
  = Some (scanned c fe lines, []).
Proof.
  intros Hp. unfold cmdScanner_Scan, ensure_started, scanning; simpl.
  rewrite Hp. rewrite bind_ret_l. simpl. unfold Scanner_Scan; simpl.
  by destruct lines.
Qed.

Lemma Scan_fresh c :
  Process c = false → launch_err (command os (Args c)) = None →
  cmdScanner_Scan os (scanCommand c)
  = Some (scanned (started c) (read_err (command os (Args c)))
            (output (command os (Args c))),
          [EvStart (Args c)]).
Proof.
  intros Hp Hl. unfold launch_err in Hl.
  destruct (pipe_err (command os (Args c))) eqn:Epipe; [done|].
  unfold cmdScanner_Scan, ensure_started, scanCommand, start_cmd, Cmd_Start,
    Cmd_StdoutPipe; simpl.
  rewrite Hp, Epipe, Hl. simpl. unfold Scanner_Scan, NewScanner; simpl.
  by destruct (output (command os (Args c))).
Qed.

Lemma Scan_refused c e :
  Process c = false → launch_err (command os (Args c)) = Some e →
  ∃ csc',
    cmdScanner_Scan os (scanCommand c) = Some ((false, csc'), [])
    ∧ csc_cmd csc' = Some c ∧ csc_err csc' = Some e
    ∧ unread os csc' = unread os (scanCommand c).
Proof.
  intros Hp Hl. unfold launch_err in Hl.
  unfold cmdScanner_Scan, ensure_started, scanCommand, start_cmd, Cmd_Start,
    Cmd_StdoutPipe; simpl.
  rewrite Hp. destruct (pipe_err (command os (Args c))) eqn:Epipe.
  - simplify_eq. by eexists.
  - rewrite Hl. simpl. destruct c; simpl in *. by eexists.
Qed.

(** *** Matchers *)

Lemma next_match_Some pat lines m l rest :
  next_match pat lines = Some (m, l, rest) →
  FindSubmatch pat (Some l) = Some m
  ∧ matches pat lines = m :: matches pat rest
  ∧ length rest < length lines.
Proof.
  induction lines as [|l' lines IH]; [done|]. cbn [next_match].
  unfold matches. cbn [omap list_omap].
  destruct (FindSubmatch pat (Some l')) as [m'|] eqn:Em.
  - intros ?; simplify_eq. split_and!; [done..|simpl; lia].
  - intros H. destruct (IH H) as (? & ? & ?). split_and!; [done..|simpl; lia].
Qed.

Lemma next_match_None pat lines :
  next_match pat lines = None → matches pat lines = [].
Proof.
  induction lines as [|l' lines IH]; [done|]. cbn [next_match].
  unfold matches. cbn [omap list_omap].
  by destruct (FindSubmatch pat (Some l')).
Qed.

Lemma Scan_loop_matching fuel c fe tok ex lines pat :
  Process c = true → length lines < fuel →
  cmdMatcher_Scan_loop os fuel (matching c fe tok ex lines pat None)
  = Some (matched c fe pat lines, []).
Proof.
  intros Hp. revert fuel tok ex.
  induction lines as [|l rest IH]; intros [|fuel] tok ex Hf; simpl in Hf;
    try lia; simpl cmdMatcher_Scan_loop; rewrite Scan_scanning by done;
    simpl; [done|].
  unfold matched; simpl. destruct (FindSubmatch pat (Some l)) eqn:Em; simpl.
  - done.
  - change (set_match _ None)
      with (matching c fe (Some l) false rest pat None).
    by rewrite IH by lia.
Qed.

Lemma cmdMatcher_Scan_matching c fe tok ex lines pat m :
  Process c = true →
  cmdMatcher_Scan os (matching c fe tok ex lines pat m)
  = Some (matched c fe pat lines, []).
Proof.
  intros Hp. unfold cmdMatcher_Scan.
  change (set_match _ None) with (matching c fe tok ex lines pat None).
  apply Scan_loop_matching; [done|]. unfold unread, unread_lines; simpl. lia.
Qed.

Lemma Scan_loop_from fuel cmm c fe lines t :
  cmdScanner_Scan os (cmm_cmdScanner cmm) = Some (scanned c fe lines, t) →
  Process c = true → length lines < fuel → cmm_match cmm = None →
  cmdMatcher_Scan_loop os fuel cmm
  = Some (matched c fe (cmm_pat cmm) lines, t).
Proof.
  intros Hs Hp Hf Hm. destruct fuel as [|fuel]; [lia|].
  cbn [cmdMatcher_Scan_loop]. rewrite Hs, bind_Some_l.
  destruct cmm as [csc pat m]. simpl in Hm. subst m.
  destruct lines as [|l rest]; cbn [scanned].
  { cbn. by rewrite app_nil_r. }
  unfold matched. cbn [next_match]. cbn -[cmdMatcher_Scan_loop].
  destruct (FindSubmatch pat (Some l)) eqn:Em.
  - cbn. by rewrite app_nil_r.
  - unfold set_match, set_cmdScanner.
    cbn [cmm_cmdScanner cmm_pat cmm_match].
    change {| cmm_cmdScanner := scanning c fe (Some l) false rest;
              cmm_pat := pat; cmm_match := None |}
      with (matching c fe (Some l) false rest pat None).
    rewrite Scan_loop_matching by (done || (simpl in Hf; lia)).
    by rewrite app_nil_r.
Qed.

Lemma cmdMatcher_Scan_fresh c pat :
  Process c = false → launch_err (command os (Args c)) = None →
  cmdMatcher_Scan os (matchCommand c pat)
  = Some (matched (started c) (read_err (command os (Args c))) pat
            (output (command os (Args c))),
          [EvStart (Args c)]).
Proof.
  intros Hp Hl. unfold cmdMatcher_Scan.
  apply (Scan_loop_from _ (set_match (matchCommand c pat) None));
    [by apply Scan_fresh|done| |done].
  unfold unread, unread_lines; simpl. lia.
Qed.

Lemma cmdMatcher_Scan_refused c pat e :
  Process c = false → launch_err (command os (Args c)) = Some e →
  ∃ csc',
    cmdMatcher_Scan os (matchCommand c pat)
    = Some ((false, {| cmm_cmdScanner := csc'; cmm_pat := pat;
                       cmm_match := None |}), [])
    ∧ csc_cmd csc' = Some c ∧ csc_err csc' = Some e.
Proof.
  intros Hp Hl. unfold cmdMatcher_Scan. simpl cmdMatcher_Scan_loop.
  change (cmdScanner_Scan os _) with (cmdScanner_Scan os (scanCommand c)).
  destruct (Scan_refused c e Hp Hl) as (csc' & -> & Hc & He & _).
  exists csc'. by rewrite bind_Some_l.
Qed.

Lemma cmdMatcher_Scan_failed csc pat m e :
  csc_err csc = Some e →
  cmdMatcher_Scan os {| cmm_cmdScanner := csc; cmm_pat := pat; cmm_match := m |}
  = Some ((false, {| cmm_cmdScanner := csc; cmm_pat := pat;
                     cmm_match := None |}), []).
Proof.
  intros He. unfold cmdMatcher_Scan. cbn [cmdMatcher_Scan_loop].
  unfold cmdScanner_Scan. cbn [cmm_cmdScanner set_match]. rewrite He.
  by rewrite bind_ret_l.
Qed.

(** *** What a match of [keyValPat] holds *)

Lemma exec_groups prog s prev pos cap r :
  exec prog s prev pos cap = Some r →
  ∀ g, (Open g ∈ prog → is_Some (r !! (2 * g)))
       ∧ (Close g ∈ prog → is_Some (r !! (2 * g + 1))).
Proof.
  revert s prev pos cap r.
  induction prog as [|nd prog IH]; intros s prev pos cap r; cbn [exec].
  - intros _ g. split; by intros ?%elem_of_nil.
  - destruct nd as [c|cls min greedy| |g0|g0].
    + destruct s as [|c' s]; [done|]. destruct (Ascii.eqb c c'); [|done].
      intros Hr g. destruct (IH _ _ _ _ _ Hr g) as [H1 H2].
      split; intros [?|?]%elem_of_cons; auto; done.
    + intros Hr g. revert Hr.
      apply (rep_post _ _ _ _
               (λ r, (Open g ∈ Rep cls min greedy :: prog → is_Some (r !! (2 * g)))
                     ∧ (Close g ∈ Rep cls min greedy :: prog
                        → is_Some (r !! (2 * g + 1))))).
      intros s' p q r' Hr. destruct (IH _ _ _ _ _ Hr g) as [H1 H2].
      split; intros [?|?]%elem_of_cons; auto; done.
    + destruct (xorb _ _); [|done].
      intros Hr g. destruct (IH _ _ _ _ _ Hr g) as [H1 H2].
      split; intros [?|?]%elem_of_cons; auto; done.
    + intros Hr g. destruct (IH _ _ _ _ _ Hr g) as [H1 H2].
      apply exec_keeps in Hr as [_ Hk].
      split; intros [?|?]%elem_of_cons; auto; simplify_eq.
      apply Hk. rewrite lookup_insert_eq. by eexists.
    + intros Hr g. destruct (IH _ _ _ _ _ Hr g) as [H1 H2].
      apply exec_keeps in Hr as [_ Hk].
      split; intros [?|?]%elem_of_cons; auto; simplify_eq.
      apply Hk. rewrite lookup_insert_eq. by eexists.
Qed.

Lemma search_groups prog s prev pos r :
  search prog s prev pos = Some r →
  ∀ g, (Open g ∈ prog → is_Some (r !! (2 * g)))
       ∧ (Close g ∈ prog → is_Some (r !! (2 * g + 1))).
Proof.
  revert prev pos. induction s as [|c s IH]; intros prev pos; cbn [search];
    destruct (exec prog _ prev pos {[0 := pos]}) eqn:He; try done.
  - intros [= <-]. by eapply exec_groups.
  - intros [= <-]. by eapply exec_groups.
  - apply IH.
Qed.

Lemma FindSubmatch_keyValPat_slots b m :
  FindSubmatch keyValPat b = Some m →
  ∃ whole key value, m = [Some whole; Some key; Some value].
Proof.
  unfold FindSubmatch. destruct (search _ _ _ _) as [cap|] eqn:Hs; [|done].
  cbn [mbind option_bind]. intros ?; simplify_eq.
  pose proof (search_keeps _ _ _ _ _ Hs) as [[i0 H0] [i1 H1]].
  pose proof (search_groups _ _ _ _ _ Hs 1) as [[i2 H2] [i3 H3]];
    [unfold keyValPat; set_solver..|].
  pose proof (search_groups _ _ _ _ _ Hs 2) as [[i4 H4] [i5 H5]];
    [unfold keyValPat; set_solver..|].
  change (NumSubexp keyValPat) with 2.
  cbn [seq fmap list_fmap]. unfold submatch. cbn [Nat.mul Nat.add].
  cbn [Nat.mul Nat.add] in *.
  rewrite H0, H1, H2, H3, H4, H5. by eexists _, _, _.
Qed.

End Readers.

(** *** Recognizers *)

Section Recognizers.

Variable os : world.

#[local] Arguments FindSubmatch : simpl never.
#[local] Arguments labelHostResource : simpl never.
#[local] Arguments cmdMatcher_Scan : simpl never.

Lemma label_of_match l m cmm :
  FindSubmatch keyValPat (Some l) = Some m → cmm_match cmm = Some m →
  labelHostResource cmm = Some (line_label l).
Proof.
  intros Hf Hm. unfold line_label. rewrite Hf.
  destruct (FindSubmatch_keyValPat_slots _ _ Hf) as (whole & key & value & ->).
  unfold slot_text. cbn [lookup list_lookup string_of].
  unfold labelHostResource, classify.
  rewrite (MatchText_in_range cmm _ 1 (Some key) Hm) by done.
  cbn [mbind option_bind string_of].
  destruct (String.prefix "hostpci" key).
  { rewrite (MatchText_in_range cmm _ 2 (Some value) Hm) by done.
    cbn [mbind option_bind string_of].
    by rewrite IndexByte_until_comma. }
  destruct (String.prefix "usb" key); [|done].
  rewrite (Match_in_range cmm _ 2 (Some value) Hm) by done.
  cbn [mbind option_bind]. rewrite FindSubmatch_usbHostPat.
  cbn [string_of].
  destruct (find_host None value) as [tok|]; done.
Qed.

Lemma has_label_match l :
  has_label l = true → is_Some (FindSubmatch keyValPat (Some l)).
Proof.
  unfold has_label, line_label.
  destruct (FindSubmatch keyValPat (Some l)); [by eexists|done].
Qed.

(** The labelled line that follows is found among the matching ones. *)
Lemma next_labelled_match lines :
  match next_match keyValPat lines with
  | Some (m, l, rest) =>
      next_labelled lines
      = (if has_label l then Some (l, rest) else next_labelled rest)
      ∧ length rest < length lines
  | None => next_labelled lines = None
  end.
Proof.
  induction lines as [|l rest IH]; [done|]. cbn [next_match next_labelled].
  destruct (FindSubmatch keyValPat (Some l)) as [m|] eqn:Em.
  - split; [done|simpl; lia].
  - assert (has_label l = false) as ->.
    { unfold has_label, line_label. by rewrite Em. }
    destruct (next_match keyValPat rest) as [[[m l'] rest']|]; [|done].
    destruct IH as [-> ?]. split; [done|simpl; lia].
Qed.

Lemma Scan_loop_recognizing fuel c fe tok ex lines m :
  Process c = true → length lines < fuel →
  cmdRecognizer_Scan_loop os fuel (recognizing c fe tok ex lines m "")
  = Some (recognized c fe lines, []).
Proof.
  intros Hp. revert tok ex lines m.
  induction fuel as [|fuel IH]; intros tok ex lines m Hf; [lia|].
  cbn [cmdRecognizer_Scan_loop]. unfold recognizing at 1.
  cbn [cmr_cmdMatcher]. rewrite cmdMatcher_Scan_matching by done.
  rewrite bind_Some_l. unfold matched, recognized.
  pose proof (next_labelled_match lines) as Hn.
  destruct (next_match keyValPat lines) as [[[m' l] rest]|] eqn:En.
  - destruct Hn as [-> Hlen]. apply next_match_Some in En as (Em & _ & _).
    change (cmr_rec (set_cmdMatcher _ _)) with labelHostResource.
    rewrite (label_of_match l m' (matching c fe (Some l) false rest keyValPat
                                    (Some m')) Em eq_refl).
    cbn [lift]. rewrite bind_ret_l. unfold has_label.
    destruct (String.eqb (line_label l) "") eqn:El; cbn [negb].
    + apply String.eqb_eq in El. rewrite El.
      change (set_label _ "")
        with (recognizing c fe (Some l) false rest (Some m') "").
      rewrite IH by lia. done.
    + rewrite Em. done.
  - rewrite Hn. done.
Qed.

Lemma Scan_loop_recognizer_from fuel cmr c fe lines t :
  cmr_rec cmr = labelHostResource → cmr_label cmr = ""%string →
  cmdMatcher_Scan os (cmr_cmdMatcher cmr)
  = Some (matched c fe keyValPat lines, t) →
  Process c = true → length lines < fuel →
  cmdRecognizer_Scan_loop os fuel cmr = Some (recognized c fe lines, t).
Proof.
  intros Hrec Hlab Hs Hp Hf. destruct fuel as [|fuel]; [lia|].
  cbn [cmdRecognizer_Scan_loop]. rewrite Hs, bind_Some_l.
  destruct cmr as [cmm rec lab]. simpl in Hrec, Hlab. subst rec lab.
  unfold matched, recognized.
  pose proof (next_labelled_match lines) as Hn.
  destruct (next_match keyValPat lines) as [[[m' l] rest]|] eqn:En.
  - destruct Hn as [-> Hlen]. apply next_match_Some in En as (Em & _ & _).
    change (cmr_rec (set_cmdMatcher _ _)) with labelHostResource.
    rewrite (label_of_match l m' (matching c fe (Some l) false rest keyValPat
                                    (Some m')) Em eq_refl).
    cbn [lift]. rewrite bind_ret_l. unfold has_label.
    destruct (String.eqb (line_label l) "") eqn:El; cbn [negb].
    + apply String.eqb_eq in El. rewrite El.
      change (set_label _ "")
        with (recognizing c fe (Some l) false rest (Some m') "").
      rewrite Scan_loop_recognizing by (done || lia). by rewrite app_nil_r.
    + rewrite Em. cbn. by rewrite app_nil_r.
  - rewrite Hn. cbn. by rewrite app_nil_r.
Qed.

Lemma cmdRecognizer_Scan_recognizing c fe tok ex lines m lab :
  Process c = true →
  cmdRecognizer_Scan os (recognizing c fe tok ex lines m lab)
  = Some (recognized c fe lines, []).
Proof.
  intros Hp. unfold cmdRecognizer_Scan.
  apply Scan_loop_recognizer_from; [done..| |done|].
  - apply cmdMatcher_Scan_matching. done.
  - unfold unread, unread_lines; simpl. lia.
Qed.

Lemma cmdRecognizer_Scan_fresh c :
  Process c = false → launch_err (command os (Args c)) = None →
  cmdRecognizer_Scan os (recognizeCommand c keyValPat labelHostResource)
  = Some (recognized (started c) (read_err (command os (Args c)))
            (output (command os (Args c))),
          [EvStart (Args c)]).
Proof.
  intros Hp Hl. unfold cmdRecognizer_Scan.
  apply Scan_loop_recognizer_from; [done..| |done|].
  - by apply cmdMatcher_Scan_fresh.
  - unfold unread, unread_lines; simpl. lia.
Qed.

Lemma cmdRecognizer_Scan_refused c e :
  Process c = false → launch_err (command os (Args c)) = Some e →
  ∃ csc',
    cmdRecognizer_Scan os (recognizeCommand c keyValPat labelHostResource)
    = Some ((false,
             {| cmr_cmdMatcher :=
                  {| cmm_cmdScanner := csc'; cmm_pat := keyValPat;
                     cmm_match := None |};
                cmr_rec := labelHostResource; cmr_label := "" |}), [])
    ∧ csc_cmd csc' = Some c ∧ csc_err csc' = Some e.
Proof.
  intros Hp Hl. unfold cmdRecognizer_Scan. cbn [cmdRecognizer_Scan_loop].
  change (cmr_cmdMatcher (set_label _ _)) with (matchCommand c keyValPat).
  destruct (cmdMatcher_Scan_refused os c keyValPat e Hp Hl)
    as (csc' & -> & Hc & He).
  exists csc'. by rewrite bind_Some_l.
Qed.

End Recognizers.

(** ** Reading a command to its end *)

Section Reading.

Variable os : world.

#[local] Arguments FindSubmatch : simpl never.
#[local] Arguments labelHostResource : simpl never.
#[local] Arguments cmdMatcher_Scan : simpl never.
#[local] Arguments cmdRecognizer_Scan : simpl never.
#[local] Arguments cmdScanner_Scan : simpl never.
#[local] Arguments cmdScanner_Cleanup : simpl never.

Lemma read_lines_loop_scanning fuel c fe tok ex lines acc :
  Process c = true → length lines < fuel →
  read_lines_loop os fuel (scanning c fe tok ex lines) acc
  = Some ((acc ++ (Some <$> lines), scanning c fe None true []), []).
Proof.
  intros Hp. revert fuel tok ex acc.
  induction lines as [|l rest IH]; intros [|fuel] tok ex acc Hf;
    simpl in Hf; try lia; cbn [read_lines_loop];
    rewrite Scan_scanning by done; rewrite bind_Some_l; cbn [scanned].
  - cbn. by rewrite app_nil_r.
  - cbn -[read_lines_loop]. rewrite IH by lia.
    by rewrite <- app_assoc.
Qed.

Lemma matches_cons pat l rest :
  matches pat (l :: rest)
  = match FindSubmatch pat (Some l) with
    | Some m => m :: matches pat rest
    | None => matches pat rest
    end.
Proof. unfold matches. cbn [omap list_omap]. by destruct (FindSubmatch _ _). Qed.

Lemma read_matches_loop_from fuel cmm c fe pat lines t acc :
  cmdMatcher_Scan os cmm = Some (matched c fe pat lines, t) →
  Process c = true → length lines < fuel →
  read_matches_loop os fuel cmm acc
  = Some ((acc ++ matches pat lines, matching c fe None true [] pat None), t).
Proof.
  intros Hs Hp. revert cmm lines t acc Hs.
  induction fuel as [|fuel IH]; intros cmm lines t acc Hs Hf; [lia|].
  cbn [read_matches_loop]. rewrite Hs, bind_Some_l. unfold matched.
  destruct (next_match pat lines) as [[[m l] rest]|] eqn:En.
  - apply next_match_Some in En as (Em & -> & Hlen).
    rewrite (IH _ rest [] _ (cmdMatcher_Scan_matching os c fe _ _ rest pat _ Hp))
      by lia.
    rewrite app_nil_r, <- app_assoc. done.
  - apply next_match_None in En as ->. cbn. by rewrite !app_nil_r.
Qed.

(** X4. Reading a command that can be started: the calls of [Scan] that
    return true yield the lines of its output, each once and in their
    order, the command is started once, by the first call, and the call
    that returns false leaves the scanner at the end of the output, where
    [Err] reports the error of the reader, if it met one, as an io error. *)
Theorem read_lines_output c :
  Process c = false → launch_err (command os (Args c)) = None →
  ∃ csc',
    read_lines os (scanCommand c)
    = Some ((Some <$> output (command os (Args c)), csc'), [EvStart (Args c)])
    ∧ unread_lines os csc' = []
    ∧ csc_cmd csc' = Some (started c)
    ∧ (cmdScanner_Err csc').1
      = Wrapf "io error: %w" [] <$> read_err (command os (Args c))
    ∧ cmdScanner_Scan os csc' = Some ((false, csc'), []).
Proof.
  intros Hp Hl.
  exists (scanning (started c) (read_err (command os (Args c))) None true []).
  split_and!; [|done|done| |by rewrite Scan_scanning].
  2:{ unfold cmdScanner_Err. simpl.
      by destruct (read_err (command os (Args c))). }
  unfold read_lines.
  change (unread os _) with (length (output (command os (Args c)))).
  cbn [read_lines_loop]. rewrite Scan_fresh by done. rewrite bind_Some_l.
  destruct (output (command os (Args c))) as [|l rest]; cbn [scanned].
  - done.
  - cbn -[read_lines_loop].
    rewrite read_lines_loop_scanning by (done || simpl; lia). done.
Qed.

(** X5. A command that cannot be started, its pipe or its start failing
    with [e]: the first [Scan] returns false and records [e], nothing is
    started, killed or waited for, [Err] returns [e] as it is, and [Cleanup]
    stores [e], wrapped with the arguments of the command, through a pointer
    that holds no error, leaving any other pointer alone. *)
Theorem refused_command c e :
  Process c = false → launch_err (command os (Args c)) = Some e →
  ∃ csc',
    cmdScanner_Scan os (scanCommand c) = Some ((false, csc'), [])
    ∧ read_lines os (scanCommand c) = Some (([], csc'), [])
    ∧ cmdScanner_Err csc' = (Some e, csc')
    ∧ ∀ errp,
        cmdScanner_Cleanup os csc' errp
        = Some ((csc',
                 match errp with
                 | Some None => Some (Some (command_failed (Args c) e))
                 | _ => errp
                 end), []).
Proof.
  intros Hp Hl. destruct (Scan_refused os c e Hp Hl) as (csc' & Hs & Hc & He & _).
  exists csc'. split_and!; [done| | |].
  - unfold read_lines. cbn [read_lines_loop]. rewrite Hs. done.
  - unfold cmdScanner_Err. rewrite He. done.
  - intros errp. unfold cmdScanner_Cleanup. rewrite Hc. cbn [lift].
    rewrite bind_ret_l, Hp, bind_ret_l. unfold cmdScanner_Err. rewrite He.
    destruct errp as [[|]|]; done.
Qed.

(** X6. Collecting the matches of a matcher on a command that can be
    started gives the matches of the pattern on the lines of the output
    that have one, in the order of the lines, the other lines being passed
    over; the call of [Scan] that returns false leaves no match behind, so
    that [MatchText] then gives the empty string. *)
Theorem read_matches_output c pat :
  Process c = false → launch_err (command os (Args c)) = None →
  ∃ cmm',
    read_matches os (matchCommand c pat)
    = Some ((matches pat (output (command os (Args c))), cmm'),
            [EvStart (Args c)])
    ∧ cmm_match cmm' = None
    ∧ ∀ i, (0 ≤ i)%Z → cmdMatcher_MatchText cmm' i = Some ""%string.
Proof.
  intros Hp Hl.
  exists (matching (started c) (read_err (command os (Args c))) None true []
            pat None).
  split_and!; [|done|].
  - unfold read_matches.
    rewrite (read_matches_loop_from _ _ (started c) _ pat _ _ []
               (cmdMatcher_Scan_fresh os c pat Hp Hl)); [done..|].
    unfold unread, unread_lines; simpl. lia.
  - intros i Hi. apply MatchText_out_of_range. simpl. lia.
Qed.

End Reading.

(** ** The resources of a guest *)

Section Resources.

Variable os : world.

#[local] Arguments FindSubmatch : simpl never.
#[local] Arguments labelHostResource : simpl never.
#[local] Arguments cmdMatcher_Scan : simpl never.
#[local] Arguments cmdRecognizer_Scan : simpl never.
#[local] Arguments cmdScanner_Scan : simpl never.
#[local] Arguments cmdScanner_Cleanup : simpl never.
#[local] Arguments cmdMatcher_MatchText : simpl never.

Lemma next_labelled_Some lines l rest :
  next_labelled lines = Some (l, rest) →
  config_labels lines = line_label l :: config_labels rest
  ∧ line_label l ≠ ""%string
  ∧ length rest < length lines.
Proof.
  unfold config_labels.
  induction lines as [|l' lines IH]; [done|]. cbn [next_labelled List.filter].
  destruct (has_label l') eqn:Eh.
  - intros ?; simplify_eq. split_and!; [done| |simpl; lia].
    unfold has_label in Eh. intros Hl. by rewrite Hl in Eh.
  - intros H. destruct (IH H) as (? & ? & ?). split_and!; [done..|simpl; lia].
Qed.

Lemma next_labelled_None lines :
  next_labelled lines = None → config_labels lines = [].
Proof.
  unfold config_labels.
  induction lines as [|l' lines IH]; [done|]. cbn [next_labelled List.filter].
  by destruct (has_label l').
Qed.

Lemma Cleanup_scanning c fe tok ex lines errp :
  Process c = true → ProcessState c = false →
  ∃ csc',
    cmdScanner_Cleanup os (scanning c fe tok ex lines) errp
    = Some ((csc',
             match cleanup_report (command os (Args c)) fe ex (length lines),
                   errp with
             | Some e, Some None => Some (Some (command_failed (Args c) e))
             | _, _ => errp
             end),
            [EvKill (Args c); EvWait (Args c)]).
Proof.
  intros Hp Hps.
  destruct (Cmd_Wait_total os c (unread os (scanning c fe tok ex lines)))
    as (werr & c' & Hw & _ & Hwerr).
  destruct (Cleanup_started os (scanning c fe tok ex lines) c errp werr c' _
              eq_refl Hp Hw) as (csc' & report & Hreport & Hcleanup & _).
  exists csc'. rewrite Hcleanup. do 3 f_equal.
  assert (report = cleanup_report (command os (Args c)) fe ex (length lines))
    as ->; [|done].
  rewrite Hreport, (Hwerr Hp Hps). unfold cleanup_report, cmdScanner_Err.
  simpl. unfold Scanner_Err; simpl. destruct ex; [|done]. by destruct fe.
Qed.

Lemma hostResources_loop_from fuel rec c fe lines t acc :
  cmdRecognizer_Scan os rec = Some (recognized c fe lines, t) →
  Process c = true → length lines < fuel →
  hostResources_loop os fuel rec acc
  = Some ((list_to_set (config_labels lines) ∪ acc,
           recognizing c fe None true [] None ""), t).
Proof.
  intros Hs Hp. revert rec lines t acc Hs.
  induction fuel as [|fuel IH]; intros rec lines t acc Hs Hf; [lia|].
  cbn [hostResources_loop]. rewrite Hs, bind_Some_l. unfold recognized.
  destruct (next_labelled lines) as [[l rest]|] eqn:En.
  - apply next_labelled_Some in En as (-> & _ & Hlen).
    rewrite (IH _ rest [] _ (cmdRecognizer_Scan_recognizing os c fe _ _ rest _ _ Hp))
      by lia.
    rewrite app_nil_r. do 3 f_equal.
    unfold cmdRecognizer_Label; simpl. set_solver.
  - apply next_labelled_None in En as ->. cbn. rewrite app_nil_r.
    do 3 f_equal. set_solver.
Qed.

Lemma hostResources_eq id :
  hostResources os id
  = match launch_err (command os ["qm"; "config"; id]) with
    | Some e =>
        Some ((∅, Some (command_failed ["qm"; "config"; id] e)), [])
    | None =>
        Some ((list_to_set
                 (config_labels (output (command os ["qm"; "config"; id]))),
               command_failed ["qm"; "config"; id]
               <$> cleanup_report (command os ["qm"; "config"; id])
                     (read_err (command os ["qm"; "config"; id])) true 0),
              [EvStart ["qm"; "config"; id]; EvKill ["qm"; "config"; id];
               EvWait ["qm"; "config"; id]])
    end.
Proof.
  unfold hostResources.
  set (c := exec_Command "qm" ["config"; id]).
  change ["qm"; "config"; id]%string with (Args c).
  destruct (launch_err (command os (Args c))) as [e|] eqn:El.
  - destruct (cmdRecognizer_Scan_refused os c e eq_refl El)
      as (csc' & Hs & Hc & He).
    cbn [hostResources_loop]. rewrite Hs, !bind_Some_l. cbn [ret].
    rewrite bind_Some_l.
    unfold cmdRecognizer_Cleanup. cbn [cmr_cmdMatcher cmm_cmdScanner].
    unfold cmdScanner_Cleanup. rewrite Hc. cbn [lift].
    rewrite bind_ret_l. change (Process c) with false. cbv iota.
    rewrite bind_ret_l. unfold cmdScanner_Err. rewrite He. done.
  - rewrite (hostResources_loop_from _ _ (started c) _ _ _ ∅
               (cmdRecognizer_Scan_fresh os c eq_refl El) eq_refl).
    2:{ unfold unread, unread_lines; simpl. lia. }
    rewrite bind_Some_l. unfold cmdRecognizer_Cleanup, recognizing, matching.
    cbn [cmr_cmdMatcher cmm_cmdScanner].
    destruct (Cleanup_scanning (started c) (read_err (command os (Args c)))
                None true [] (Some None) eq_refl eq_refl) as (csc' & ->).
    rewrite bind_Some_l. cbn [ret]. rewrite bind_Some_l.
    cbn [length]. change (Args (started c)) with (Args c).
    rewrite union_empty_r_L.
    by destruct (cleanup_report _ _ _ _).
Qed.

(** X7. [hostResources] in closed form.  When the command [qm config id]
    cannot be started, the set is empty, the error is the one of the pipe or
    of the start, wrapped with the arguments, and nothing is killed or
    waited for.  Otherwise the set holds exactly the labels of the lines of
    the output that have one, the command is started, killed and waited for,
    once each and in this order, and the error is what [Cleanup] finds at
    the end of the output, the error of the reader or else an exit error
    that does not tell of the kill signal. *)
Theorem hostResources_labels id :
  hostResources os id
  = match launch_err (command os ["qm"; "config"; id]) with
    | Some e =>
        Some ((∅, Some (command_failed ["qm"; "config"; id] e)), [])
    | None =>
        Some ((list_to_set
                 (config_labels (output (command os ["qm"; "config"; id]))),
               command_failed ["qm"; "config"; id]
               <$> cleanup_report (command os ["qm"; "config"; id])
                     (read_err (command os ["qm"; "config"; id])) true 0),
              [EvStart ["qm"; "config"; id]; EvKill ["qm"; "config"; id];
               EvWait ["qm"; "config"; id]])
    end.
Proof. apply hostResources_eq. Qed.

End Resources.

(** ** Callers that scan once *)

Section Once.

Variable os : world.

#[local] Arguments FindSubmatch : simpl never.
#[local] Arguments labelHostResource : simpl never.
#[local] Arguments cmdMatcher_Scan : simpl never.
#[local] Arguments cmdRecognizer_Scan : simpl never.
#[local] Arguments cmdScanner_Scan : simpl never.
#[local] Arguments cmdScanner_Cleanup : simpl never.
#[local] Arguments cmdMatcher_MatchText : simpl never.

Lemma shouldHook_eq id :
  shouldHook os id
  = match launch_err (command os ["qm"; "config"; id]) with
    | Some e => Some ((false, Some e), [])
    | None =>
        Some (match next_labelled (output (command os ["qm"; "config"; id])) with
              | Some _ => (true, None)
              | None =>
                  (false,
                   Wrapf "io error: %w" []
                   <$> read_err (command os ["qm"; "config"; id]))
              end,
              [EvStart ["qm"; "config"; id]])
    end.
Proof.
  unfold shouldHook.
  set (c := exec_Command "qm" ["config"; id]).
  change ["qm"; "config"; id]%string with (Args c).
  destruct (launch_err (command os (Args c))) as [e|] eqn:El.
  - destruct (cmdRecognizer_Scan_refused os c e eq_refl El)
      as (csc' & -> & Hc & He).
    rewrite bind_Some_l.
    unfold cmdRecognizer_Err, cmdMatcher_Err, cmdScanner_Err; simpl.
    rewrite He. done.
  - rewrite (cmdRecognizer_Scan_fresh os c eq_refl El), bind_Some_l.
    unfold recognized.
    destruct (next_labelled (output (command os (Args c)))) as [[l rest]|];
      [done|].
    unfold cmdRecognizer_Err, cmdMatcher_Err, cmdScanner_Err; simpl.
    unfold Scanner_Err; simpl.
    by destruct (read_err _).
Qed.


Lemma head_matches pat lines :
  head (matches pat lines) = (λ x, x.1.1) <$> next_match pat lines.
Proof.
  induction lines as [|l lines IH]; [done|]. rewrite matches_cons.
  cbn [next_match]. by destruct (FindSubmatch pat (Some l)).
Qed.

Lemma matchCommandOnce_eq name arg pat :
  matchCommandOnce os (exec_Command name arg) pat
  = match launch_err (command os (name :: arg)) with
    | Some e => Some ((""%string, Some (command_failed (name :: arg) e)), [])
    | None =>
        Some ((match head (matches pat (output (command os (name :: arg)))) with
               | Some m => slot_text m 1
               | None => ""%string
               end,
               command_failed (name :: arg)
               <$> match next_match pat (output (command os (name :: arg))) with
                   | Some (_, _, rest) =>
                       cleanup_report (command os (name :: arg))
                         (read_err (command os (name :: arg))) false
                         (length rest)
                   | None =>
                       cleanup_report (command os (name :: arg))
                         (read_err (command os (name :: arg))) true 0
                   end),
              [EvStart (name :: arg); EvKill (name :: arg);
               EvWait (name :: arg)])
    end.
Proof.
  unfold matchCommandOnce.
  set (c := exec_Command name arg).
  change (name :: arg) with (Args c).
  change {| cmm_cmdScanner := _; cmm_pat := pat; cmm_match := None |}
    with (matchCommand c pat).
  destruct (launch_err (command os (Args c))) as [e|] eqn:El.
  - destruct (cmdMatcher_Scan_refused os c pat e eq_refl El)
      as (csc' & -> & Hc & He).
    rewrite bind_Some_l.
    rewrite MatchText_out_of_range by (simpl; lia). cbn [lift].
    rewrite bind_ret_l. unfold cmdMatcher_Cleanup.
    cbn [cmm_cmdScanner]. unfold cmdScanner_Cleanup. rewrite Hc. cbn [lift].
    rewrite bind_ret_l. change (Process c) with false. cbv iota.
    rewrite bind_ret_l. unfold cmdScanner_Err. rewrite He. done.
  - rewrite (cmdMatcher_Scan_fresh os c pat eq_refl El), bind_Some_l.
    rewrite head_matches. unfold matched.
    destruct (next_match pat (output (command os (Args c))))
      as [[[m l] rest]|] eqn:En; cbn [fmap option_fmap option_map fst].
    + rewrite (MatchText_slot_text
                 (matching (started c) (read_err (command os (Args c)))
                    (Some l) false rest pat (Some m)) m 1 eq_refl) by done.
      cbn [lift Z.to_nat Pos.to_nat Pos.iter_op Nat.add].
      rewrite bind_ret_l. unfold cmdMatcher_Cleanup, matching.
      cbn [cmm_cmdScanner].
      destruct (Cleanup_scanning os (started c) (read_err (command os (Args c)))
                  (Some l) false rest (Some None) eq_refl eq_refl)
        as (csc' & ->).
      rewrite bind_Some_l. cbn [ret]. rewrite bind_Some_l.
      change (Args (started c)) with (Args c).
      by destruct (cleanup_report _ _ _ _).
    + rewrite MatchText_out_of_range by (simpl; lia). cbn [lift].
      rewrite bind_ret_l. unfold cmdMatcher_Cleanup, matching.
      cbn [cmm_cmdScanner].
      destruct (Cleanup_scanning os (started c) (read_err (command os (Args c)))
                  None true [] (Some None) eq_refl eq_refl)
        as (csc' & ->).
      rewrite bind_Some_l. cbn [ret]. rewrite bind_Some_l.
      change (Args (started c)) with (Args c).
      by destruct (cleanup_report _ _ _ _).
Qed.


End Once.

(** ** Shared resources *)

Section Sharing.

Variable os : world.

#[local] Arguments FindSubmatch : simpl never.
#[local] Arguments labelHostResource : simpl never.
#[local] Arguments cmdMatcher_Scan : simpl never.
#[local] Arguments cmdRecognizer_Scan : simpl never.
#[local] Arguments cmdScanner_Scan : simpl never.
#[local] Arguments cmdScanner_Cleanup : simpl never.
#[local] Arguments cmdMatcher_MatchText : simpl never.

Lemma next_shared_labelled reses lines :
  match next_labelled lines with
  | Some (l, rest) =>
      next_shared reses lines
      = if bool_decide (line_label l ∈ reses) then Some (l, rest)
        else next_shared reses rest
  | None => next_shared reses lines = None
  end.
Proof.
  induction lines as [|l rest IH]; [done|]. cbn [next_labelled next_shared].
  destruct (has_label l); [done|]. cbn [andb]. exact IH.
Qed.

Lemma next_shared_Some reses lines :
  is_Some (next_shared reses lines)
  ↔ ∃ l, l ∈ config_labels lines ∧ l ∈ reses.
Proof.
  unfold config_labels.
  induction lines as [|l rest IH]; cbn [next_shared List.filter].
  - split; [by intros [? ?]|]. intros (? & ?%elem_of_nil & _). done.
  - destruct (has_label l); cbn [andb].
    + rewrite fmap_cons. case_bool_decide as Hin.
      * split; [|by eexists]. intros _. exists (line_label l). set_solver.
      * rewrite IH. split; intros (l' & Hl' & Hr); exists l'; set_solver.
    + exact IH.
Qed.

Lemma sharesHostResources_loop_from fuel rec c fe lines t reses :
  cmdRecognizer_Scan os rec = Some (recognized c fe lines, t) →
  Process c = true → length lines < fuel →
  sharesHostResources_loop os fuel rec reses
  = Some (match next_shared reses lines with
          | Some (l, rest) =>
              (true, recognizing c fe (Some l) false rest
                       (FindSubmatch keyValPat (Some l)) (line_label l))
          | None => (false, recognizing c fe None true [] None "")
          end, t).
Proof.
  intros Hs Hp. revert rec lines t Hs.
  induction fuel as [|fuel IH]; intros rec lines t Hs Hf; [lia|].
  cbn [sharesHostResources_loop]. rewrite Hs, bind_Some_l. unfold recognized.
  pose proof (next_shared_labelled reses lines) as Hn.
  destruct (next_labelled lines) as [[l rest]|] eqn:En.
  - rewrite Hn. apply next_labelled_Some in En as (_ & _ & Hlen).
    unfold cmdRecognizer_Label. cbn [cmr_label recognizing].
    case_bool_decide.
    + cbn. by rewrite app_nil_r.
    + rewrite (IH _ rest [] (cmdRecognizer_Scan_recognizing os c fe _ _ rest _ _ Hp))
        by lia.
      by rewrite app_nil_r.
  - rewrite Hn. cbn. by rewrite app_nil_r.
Qed.

Lemma sharesHostResources_eq id reses :
  sharesHostResources os id reses
  = match launch_err (command os ["qm"; "config"; id]) with
    | Some e =>
        Some ((false, Some (command_failed ["qm"; "config"; id] e)), [])
    | None =>
        Some (match next_shared reses
                      (output (command os ["qm"; "config"; id])) with
              | Some (_, rest) =>
                  (true,
                   command_failed ["qm"; "config"; id]
                   <$> cleanup_report (command os ["qm"; "config"; id])
                         (read_err (command os ["qm"; "config"; id])) false
                         (length rest))
              | None =>
                  (false,
                   command_failed ["qm"; "config"; id]
                   <$> cleanup_report (command os ["qm"; "config"; id])
                         (read_err (command os ["qm"; "config"; id])) true 0)
              end,
              [EvStart ["qm"; "config"; id]; EvKill ["qm"; "config"; id];
               EvWait ["qm"; "config"; id]])
    end.
Proof.
  unfold sharesHostResources.
  set (c := exec_Command "qm" ["config"; id]).
  change ["qm"; "config"; id]%string with (Args c).
  destruct (launch_err (command os (Args c))) as [e|] eqn:El.
  - destruct (cmdRecognizer_Scan_refused os c e eq_refl El)
      as (csc' & Hs & Hc & He).
    cbn [sharesHostResources_loop]. rewrite Hs, !bind_Some_l. cbn [ret].
    rewrite bind_Some_l.
    unfold cmdRecognizer_Cleanup. cbn [cmr_cmdMatcher cmm_cmdScanner].
    unfold cmdScanner_Cleanup. rewrite Hc. cbn [lift].
    rewrite bind_ret_l. change (Process c) with false. cbv iota.
    rewrite bind_ret_l. unfold cmdScanner_Err. rewrite He. done.
  - rewrite (sharesHostResources_loop_from _ _ (started c) _ _ _ reses
               (cmdRecognizer_Scan_fresh os c eq_refl El) eq_refl).
    2:{ unfold unread, unread_lines; simpl. lia. }
    rewrite bind_Some_l.
    destruct (next_shared reses (output (command os (Args c))))
      as [[l rest]|].
    + unfold cmdRecognizer_Cleanup, recognizing, matching.
      cbn [cmr_cmdMatcher cmm_cmdScanner].
      destruct (Cleanup_scanning os (started c) (read_err (command os (Args c)))
                  (Some l) false rest (Some None) eq_refl eq_refl)
        as (csc' & ->).
      rewrite bind_Some_l. cbn [ret]. rewrite bind_Some_l.
      change (Args (started c)) with (Args c).
      by destruct (cleanup_report _ _ _ _).
    + unfold cmdRecognizer_Cleanup, recognizing, matching.
      cbn [cmr_cmdMatcher cmm_cmdScanner].
      destruct (Cleanup_scanning os (started c) (read_err (command os (Args c)))
                  None true [] (Some None) eq_refl eq_refl)
        as (csc' & ->).
      rewrite bind_Some_l. cbn [ret]. rewrite bind_Some_l.
      change (Args (started c)) with (Args c).
      by destruct (cleanup_report _ _ _ _).
Qed.


End Sharing.

(** ** The records of [mutuals] *)

Section Records.

Variable os : world.

#[local] Arguments FindSubmatch : simpl never.
#[local] Arguments labelHostResource : simpl never.
#[local] Arguments cmdMatcher_Scan : simpl never.
#[local] Arguments cmdRecognizer_Scan : simpl never.
#[local] Arguments cmdScanner_Scan : simpl never.
#[local] Arguments cmdScanner_Cleanup : simpl never.
#[local] Arguments cmdMatcher_MatchText : simpl never.
#[local] Arguments sharesHostResources : simpl never.
#[local] Arguments hostResources : simpl never.

Lemma succeeds_launch args : succeeds os → launch_err (command os args) = None.
Proof.
  intros Hs. destruct (Hs args) as (Hp & Hst & _). unfold launch_err.
  by rewrite Hp, Hst.
Qed.

Lemma succeeds_cleanup_report args ex n :
  succeeds os →
  cleanup_report (command os args) (read_err (command os args)) ex n = None.
Proof.
  intros Hs. destruct (Hs args) as (_ & _ & Hr & Hw). unfold cleanup_report.
  rewrite Hr. destruct ex; destruct (Hw n) as [Hn|Hk];
    rewrite ?Hk; try done; by rewrite Hn.
Qed.

Lemma shares_resources id other :
  is_Some (next_shared (resources os id)
             (output (command os ["qm"; "config"; other])))
  ↔ resources os other ∩ resources os id ≠ ∅.
Proof.
  rewrite next_shared_Some. unfold resources. split.
  - intros (l & Hl & Hr). set_solver.
  - intros Hne. apply set_choose_L in Hne as [l Hl].
    exists l. set_solver.
Qed.

Lemma mutuals_loop_matching fuel c tok ex lines m id acc :
  succeeds os → Process c = true → length lines < fuel →
  ∃ t,
    mutuals_loop os fuel (matching c None tok ex lines listPat m) id
      (resources os id) acc
    = Some ((acc ++ omap (mutual_of os id) (matches listPat lines), None), t)
    ∧ Forall scan_event t.
Proof.
  intros Hsucc Hp. revert tok ex lines m acc.
  induction fuel as [|fuel IH]; intros tok ex lines m acc Hf; [lia|].
  cbn [mutuals_loop]. rewrite cmdMatcher_Scan_matching by done.
  rewrite bind_Some_l. unfold matched.
  destruct (next_match listPat lines) as [[[m' l] rest]|] eqn:En.
  - apply next_match_Some in En as (Em & -> & Hlen).
    rewrite (MatchText_slot_text
               (matching c None (Some l) false rest listPat (Some m')) m' 1
               eq_refl) by done.
    cbn [lift]. rewrite bind_ret_l. change (Z.to_nat 1) with 1.
    cbn [omap list_omap]. unfold mutual_of at 1.
    destruct (String.eqb (slot_text m' 1) id) eqn:Eid.
    + destruct (IH (Some l) false rest (Some m') acc) as (t & -> & Ht); [lia|].
      by exists t.
    + rewrite sharesHostResources_eq, succeeds_launch by done.
      pose proof (shares_resources id (slot_text m' 1)) as Hiff.
      destruct (next_shared _ _) as [[l1 rest1]|];
        rewrite succeeds_cleanup_report by done;
        cbn [fmap option_fmap option_map].
      * rewrite bind_Some_l.
        rewrite (MatchText_slot_text
                   (matching c None (Some l) false rest listPat (Some m')) m' 2
                   eq_refl) by done.
        cbn [lift]. rewrite bind_ret_l.
        rewrite (MatchText_slot_text
                   (matching c None (Some l) false rest listPat (Some m')) m' 3
                   eq_refl) by done.
        cbn [lift]. rewrite bind_ret_l.
        change (Z.to_nat 2) with 2. change (Z.to_nat 3) with 3.
        rewrite bool_decide_eq_true_2 by (apply Hiff; by eexists).
        destruct (IH (Some l) false rest (Some m')
                    (acc ++ [{| rec_id := slot_text m' 1;
                                rec_name := slot_text m' 2;
                                rec_status := slot_text m' 3 |}]))
          as (t & -> & Ht); [lia|].
        eexists. split; [by rewrite <- app_assoc|].
        repeat constructor. done.
      * rewrite bind_Some_l.
        rewrite (MatchText_slot_text
                   (matching c None (Some l) false rest listPat (Some m')) m' 2
                   eq_refl) by done.
        cbn [lift]. rewrite bind_ret_l.
        rewrite (MatchText_slot_text
                   (matching c None (Some l) false rest listPat (Some m')) m' 3
                   eq_refl) by done.
        cbn [lift]. rewrite bind_ret_l.
        rewrite bool_decide_eq_false_2.
        2:{ intros Hne. apply Hiff in Hne as [? ?]. done. }
        destruct (IH (Some l) false rest (Some m') acc) as (t & -> & Ht); [lia|].
        eexists. split; [done|]. repeat constructor. done.
  - apply next_match_None in En as ->. cbn. rewrite app_nil_r. by eexists.
Qed.

Lemma mutuals_exact id :
  succeeds os →
  ∃ t,
    mutuals os id
    = Some ((omap (mutual_of os id)
               (tail (matches listPat (output (command os ["qm"; "list"])))),
             None), t)
    ∧ Forall scan_event t.
Proof.
  intros Hsucc. unfold mutuals.
  rewrite hostResources_eq, succeeds_launch by done.
  rewrite succeeds_cleanup_report by done. rewrite bind_Some_l.
  cbn [fmap option_fmap option_map].
  set (c := exec_Command "qm" ["list"]).
  rewrite (cmdMatcher_Scan_fresh os c listPat eq_refl (succeeds_launch _ Hsucc)).
  rewrite bind_Some_l.
  destruct (Hsucc (Args c)) as (_ & _ & -> & _).
  unfold matched. change (Args c) with ["qm"; "list"]%string.
  destruct (next_match listPat (output (command os ["qm"; "list"])))
    as [[[m l] rest]|] eqn:En.
  - apply next_match_Some in En as (_ & -> & _).
    destruct (mutuals_loop_matching (S (length rest)) (started c) (Some l)
                false rest (Some m) id [] Hsucc eq_refl) as (t & Ht & Hev);
      [lia|].
    unfold resources in Ht at 1.
    change (unread os _) with (length rest). rewrite Ht.
    eexists. split; [done|]. by repeat constructor.
  - apply next_match_None in En as ->.
    destruct (mutuals_loop_matching 1 (started c) None true [] None id []
                Hsucc eq_refl) as (t & Ht & Hev); [simpl; lia|].
    unfold resources in Ht at 1.
    change (unread os _) with 0. rewrite Ht.
    eexists. split; [done|]. by repeat constructor.
Qed.


Lemma scan_event_config id :
  Forall scan_event
    [EvStart ["qm"; "config"; id]; EvKill ["qm"; "config"; id];
     EvWait ["qm"; "config"; id]].
Proof. by repeat constructor. Qed.

Lemma mutuals_loop_fails fuel c fe tok ex lines m id res acc other e' :
  Process c = true → length lines < fuel →
  (∃ mm, mm ∈ matches listPat lines ∧ slot_text mm 1 = other) →
  other ≠ id →
  launch_err (command os ["qm"; "config"; other]) = Some e' →
  ∃ e t,
    mutuals_loop os fuel (matching c fe tok ex lines listPat m) id res acc
    = Some (([], Some e), t)
    ∧ Forall scan_event t.
Proof.
  intros Hp Hf Hin Hne Hl. revert tok ex lines m acc Hf Hin.
  induction fuel as [|fuel IH]; intros tok ex lines m acc Hf Hin; [lia|].
  cbn [mutuals_loop]. rewrite cmdMatcher_Scan_matching by done.
  rewrite bind_Some_l. unfold matched.
  destruct Hin as (mm & Hmm & Hother).
  destruct (next_match listPat lines) as [[[m' l] rest]|] eqn:En.
  2:{ apply next_match_None in En. rewrite En in Hmm.
      by apply elem_of_nil in Hmm. }
  apply next_match_Some in En as (Em & Hms & Hlen). rewrite Hms in Hmm.
  rewrite (MatchText_slot_text
             (matching c fe (Some l) false rest listPat (Some m')) m' 1
             eq_refl) by done.
  cbn [lift]. rewrite bind_ret_l. change (Z.to_nat 1) with 1.
  destruct (String.eqb_spec (slot_text m' 1) id) as [Heq|Hneq].
  - apply elem_of_cons in Hmm as [->|Hmm]; [congruence|].
    destruct (IH (Some l) false rest (Some m') acc) as (e & t & -> & Ht);
      [lia|by eexists|].
    by eexists _, _.
  - rewrite sharesHostResources_eq.
    destruct (launch_err (command os ["qm"; "config"; slot_text m' 1]))
      as [e1|] eqn:El1.
    { rewrite bind_Some_l. cbn. eexists _, _. split; [done|]. constructor. }
    apply elem_of_cons in Hmm as [->|Hmm]; [congruence|].
    destruct (IH (Some l) false rest (Some m')
                (acc ++ [{| rec_id := slot_text m' 1;
                            rec_name := slot_text m' 2;
                            rec_status := slot_text m' 3 |}]))
      as (ea & ta & Ha & Hta); [lia|by eexists|].
    destruct (IH (Some l) false rest (Some m') acc)
      as (eb & tb & Hb & Htb); [lia|by eexists|].
    destruct (next_shared res _) as [[l1 rest1]|];
      (destruct (cleanup_report _ _ _ _) as [e1|];
       cbn [fmap option_fmap option_map]; rewrite bind_Some_l;
       [cbn; eexists _, _; split; [done|]; apply scan_event_config|]);
      rewrite (MatchText_slot_text
                 (matching c fe (Some l) false rest listPat (Some m')) m' 2
                 eq_refl) by done;
      cbn [lift]; rewrite bind_ret_l;
      rewrite (MatchText_slot_text
                 (matching c fe (Some l) false rest listPat (Some m')) m' 3
                 eq_refl) by done;
      cbn [lift]; rewrite bind_ret_l;
      change (Z.to_nat 2) with 2; change (Z.to_nat 3) with 3.
    + rewrite Ha. eexists _, _. split; [done|].
      rewrite app_nil_l. apply Forall_app. split; [apply scan_event_config|done].
    + rewrite Hb. eexists _, _. split; [done|].
      rewrite app_nil_l. apply Forall_app. split; [apply scan_event_config|done].
Qed.

Lemma mutuals_fails id other e' :
  listed os other → other ≠ id →
  launch_err (command os ["qm"; "config"; other]) = Some e' →
  ∃ e t, mutuals os id = Some (([], Some e), t) ∧ Forall scan_event t.
Proof.
  intros (mm & Hmm & Hother) Hne Hl. unfold mutuals.
  rewrite hostResources_eq.
  destruct (launch_err (command os ["qm"; "config"; id])) as [e|].
  { rewrite bind_Some_l. cbn. by eexists _, _. }
  rewrite bind_Some_l.
  destruct (cleanup_report _ _ _ _) as [e|]; cbn [fmap option_fmap option_map].
  { cbn. eexists _, _. split; [done|]. apply scan_event_config. }
  set (c := exec_Command "qm" ["list"]).
  change ["qm"; "list"]%string with (Args c) in Hmm.
  destruct (launch_err (command os (Args c))) as [e|] eqn:El.
  - destruct (cmdMatcher_Scan_refused os c listPat e eq_refl El)
      as (csc' & -> & Hc & He).
    rewrite bind_Some_l. cbn [mutuals_loop]. unfold cmdMatcher_Scan.
    cbn [cmdMatcher_Scan_loop]. unfold cmdScanner_Scan.
    cbn [cmm_cmdScanner set_match]. rewrite He. rewrite !bind_ret_l.
    unfold cmdMatcher_Err, cmdScanner_Err. cbn [cmm_cmdScanner set_cmdScanner].
    rewrite He. cbn. eexists _, _. split; [done|]. apply scan_event_config.
  - rewrite (cmdMatcher_Scan_fresh os c listPat eq_refl El), bind_Some_l.
    unfold matched.
    destruct (next_match listPat (output (command os (Args c))))
      as [[[m l] rest]|] eqn:En.
    2:{ apply next_match_None in En. rewrite En in Hmm.
        by apply elem_of_nil in Hmm. }
    apply next_match_Some in En as (_ & Hms & _). rewrite Hms in Hmm.
    cbn [tail] in Hmm.
    destruct (mutuals_loop_fails (S (length rest)) (started c)
                (read_err (command os (Args c))) (Some l) false rest (Some m)
                id (list_to_set
                      (config_labels
                         (output (command os ["qm"; "config"; id])))) []
                other e' eq_refl) as (e & t & Ht & Hev);
      [lia|by eexists|done..|].
    change (unread os _) with (length rest). rewrite Ht.
    eexists _, _. split; [done|].
    apply Forall_app. split; [apply scan_event_config|].
    by repeat constructor.
Qed.

End Records.

(** X12. When the configuration of one of the listed guests other than
    the target cannot be read, its command failing to start, [mutuals]
    returns an error and no record, and [stopMutuals] returns that error
    without requesting a single shutdown, whatever the other guests share
    with the target: nothing is stopped on incomplete knowledge. *)
Theorem unreadable_config_stops_nothing os id other e' :
  listed os other → other ≠ id →
  launch_err (command os ["qm"; "config"; other]) = Some e' →
  ∃ e t,
    mutuals os id = Some (([], Some e), t)
    ∧ requests t = []
    ∧ ∀ dryRun sched, stopMutuals os dryRun sched id = Some (Some e, t).
Proof.
  intros Hlisted Hne Hl.
  destruct (mutuals_fails os id other e' Hlisted Hne Hl) as (e & t & Hm & Ht).
  exists e, t. split_and!; [done|by apply scan_events_no_requests|].
  intros dryRun sched. unfold stopMutuals. rewrite Hm, bind_Some_l. cbn.
  by rewrite app_nil_r.
Qed.

(** ** The properties on concrete worlds *)

(** The configuration of guest 101 of [three_guests], read to its end. *)
Lemma read_lines_output_witness :
  ∃ csc',
    read_lines three_guests (scanCommand (exec_Command "qm" ["config"; "101"]))
    = Some ((Some <$> ["boot: order=scsi0"; "hostpci0: 0000:01:00.0,pcie=1";
                       "usb0: host=1-1.2"]%string, csc'),
            [EvStart ["qm"; "config"; "101"]])
    ∧ unread_lines three_guests csc' = [].
Proof.
  destruct (read_lines_output three_guests
              (exec_Command "qm" ["config"; "101"]) eq_refl eq_refl)
    as (csc' & Hread & Hunread & _).
  exists csc'. split; [exact Hread|exact Hunread].
Defined.

(** The listing where no command can be started. *)
Lemma refused_command_witness :
  ∃ csc',
    cmdScanner_Scan nothing_starts (scanCommand (exec_Command "qm" ["list"]))
    = Some ((false, csc'), [])
    ∧ cmdScanner_Cleanup nothing_starts csc' (Some None)
      = Some ((csc',
               Some (Some (command_failed ["qm"; "list"]
                             (ErrorString "exec: qm: executable file not found")))),
              []).
Proof.
  destruct (refused_command nothing_starts (exec_Command "qm" ["list"])
              (ErrorString "exec: qm: executable file not found")
              eq_refl eq_refl)
    as (csc' & Hscan & _ & _ & Hcleanup).
  exists csc'. split; [exact Hscan|exact (Hcleanup (Some None))].
Defined.

(** The ids of the listing of [three_guests], the header included. *)
Lemma read_matches_output_witness :
  ∃ found cmm',
    read_matches three_guests (matchCommand (exec_Command "qm" ["list"]) listPat)
    = Some ((found, cmm'), [EvStart ["qm"; "list"]])
    ∧ (λ m, slot_text m 1) <$> found = ["VMID"; "101"; "102"; "103"]%string.
Proof.
  destruct (read_matches_output three_guests (exec_Command "qm" ["list"])
              listPat eq_refl eq_refl)
    as (cmm' & Hread & _).
  eexists _, cmm'. split; [exact Hread|]. vm_compute. reflexivity.
Defined.


(** Guest 102 of [config_unreadable] shares the device of guest 101 and
    runs, yet it is not stopped. *)
Lemma unreadable_config_stops_nothing_witness :
  ∃ e t,
    mutuals config_unreadable "101" = Some (([], Some e), t)
    ∧ requests t = []
    ∧ stopMutuals config_unreadable false [] "101" = Some (Some e, t).
Proof.
  destruct (unreadable_config_stops_nothing config_unreadable "101" "102"
              (ErrorString "exec: qm: executable file not found"))
    as (e & t & Hm & Hr & Hs).
  - exists [Some "102 linvm                running    "%string; Some "102"%string;
            Some "linvm"%string; Some "running"%string].
    split; [vm_compute; repeat constructor|reflexivity].
  - discriminate.
  - reflexivity.
  - exists e, t. split_and!; [exact Hm|exact Hr|apply Hs].
Defined.

(** ** Lines in columns *)

Lemma length_app_string s t :
  String.length (s +:+ t) = String.length s + String.length t.
Proof. induction s as [|c s IH]; [done|]. simpl. by rewrite IH. Qed.

Lemma app_assoc_string s t u : ((s +:+ t) +:+ u = s +:+ t +:+ u)%string.
Proof. induction s as [|c s IH]; [done|]. simpl. by rewrite IH. Qed.

Lemma substring_at pre mid post :
  substring (String.length pre) (String.length mid) (pre +:+ mid +:+ post)
  = mid.
Proof.
  rewrite <- (Nat.add_0_r (String.length pre)).
  rewrite substring_app_skip. apply substring_prefix_app.
Qed.

Lemma prev_after_app prev s t :
  prev_after prev (s +:+ t) = prev_after (prev_after prev s) t.
Proof. revert prev. induction s as [|c s IH]; intros prev; [done|]. apply IH. Qed.

(** A greedy repetition takes the whole run of its class when what follows
    the run matches the rest of the pattern. *)
Lemma rep_greedy_run cls min k a rest n prev pos r :
  all_in cls a = true → starts_in cls rest = false →
  min ≤ n + String.length a →
  k rest (prev_after prev a) (pos + String.length a) = Some r →
  rep cls min true k (a +:+ rest) n prev pos = Some r.
Proof.
  revert n prev pos. induction a as [|c a IH]; intros n prev pos Ha Hrest Hmin Hk.
  - cbn in Hk, Hmin. rewrite Nat.add_0_r in Hk, Hmin. cbn [String.append].
    destruct rest as [|c rest]; cbn [rep].
    + rewrite Hk. by destruct (min <=? n) eqn:E; [|apply Nat.leb_gt in E; lia].
    + cbn in Hrest. rewrite Hrest, Hk.
      by destruct (min <=? n) eqn:E; [|apply Nat.leb_gt in E; lia].
  - cbn in Ha. apply andb_true_iff in Ha as [Hc Ha].
    cbn [String.append rep]. rewrite Hc.
    rewrite (IH (S n) (Some c) (S pos) Ha Hrest); [done|simpl in Hmin; lia|].
    cbn [prev_after String.length] in Hk.
    by replace (S pos + String.length a) with (pos + S (String.length a)) by lia.
Qed.

(** A lazy repetition stops at the first byte at which the rest of the
    pattern can go on and matches. *)
Lemma rep_lazy_run cls (delim : ascii → bool) min k a rest n prev pos r :
  (∀ c s p q, delim c = false → k (String c s) p q = None) →
  all_in (λ c, cls c && negb (delim c)) a = true →
  min ≤ n + String.length a →
  k rest (prev_after prev a) (pos + String.length a) = Some r →
  rep cls min false k (a +:+ rest) n prev pos = Some r.
Proof.
  intros Hfail. revert n prev pos.
  induction a as [|c a IH]; intros n prev pos Ha Hmin Hk.
  - cbn in Hk, Hmin. rewrite Nat.add_0_r in Hk, Hmin. cbn [String.append].
    assert ((min <=? n) = true) as Hle by (apply Nat.leb_le; lia).
    destruct rest as [|c rest]; cbn [rep]; by rewrite Hle, Hk.
  - cbn in Ha. apply andb_true_iff in Ha as [Hc Ha].
    apply andb_true_iff in Hc as [Hc Hd]. apply negb_true_iff in Hd.
    cbn [String.append rep]. rewrite (Hfail _ _ _ _ Hd), Hc.
    assert ((if min <=? n then None else None) = @None (gmap nat nat)) as ->
      by by destruct (min <=? n).
    apply IH; [done|simpl in Hmin; lia|].
    cbn [prev_after String.length] in Hk.
    by replace (S pos + String.length a) with (pos + S (String.length a)) by lia.
Qed.

Lemma all_in_impl (P Q : ascii → bool) s :
  (∀ c, P c = true → Q c = true) → all_in P s = true → all_in Q s = true.
Proof.
  intros HPQ. induction s as [|c s IH]; [done|]. cbn.
  rewrite !andb_true_iff. intros [? ?]. auto.
Qed.

Lemma starts_in_app cls a rest :
  a ≠ ""%string → starts_in cls (a +:+ rest) = starts_in cls a.
Proof. by destruct a. Qed.

Lemma starts_in_all (P Q : ascii → bool) a :
  a ≠ ""%string → all_in P a = true → (∀ c, P c = true → Q c = false) →
  starts_in Q a = false.
Proof.
  destruct a as [|c a]; [done|]. cbn. intros _ [Hc _]%andb_true_iff HPQ. auto.
Qed.

Lemma app_nil_r_string s : (s +:+ "")%string = s.
Proof. induction s as [|c s IH]; [done|]. simpl. by rewrite IH. Qed.

Lemma length_pos s : s ≠ ""%string → 1 ≤ String.length s.
Proof. destruct s; [done|]. simpl. lia. Qed.

(** *** A line of configuration *)

Lemma exec_keyValPat key sp value pos :
  key ≠ ""%string → all_in key_byte key = true →
  all_in space sp = true →
  value ≠ ""%string → all_in dot value = true → starts_in space value = false →
  exec keyValPat (key +:+ ":" +:+ sp +:+ value) None pos {[0 := pos]}
  = Some (<[1 := pos + String.length key + 1 + String.length sp
                 + String.length value]>
            (<[5 := pos + String.length key + 1 + String.length sp
                    + String.length value]>
               (<[4 := pos + String.length key + 1 + String.length sp]>
                  (<[3 := pos + String.length key]>
                     (<[2 := pos]> {[0 := pos]}))))).
Proof.
  intros Hkey Hkb Hsp Hvalue Hdot Hstart.
  unfold keyValPat. cbn [exec Nat.mul Nat.add].
  apply (rep_lazy_run dot (λ c, Ascii.eqb c ":")).
  { intros c s p q Hc. cbn [exec]. rewrite Ascii.eqb_sym, Hc. done. }
  { done. }
  { pose proof (length_pos _ Hkey). lia. }
  cbn [exec String.append Nat.mul Nat.add]. rewrite Ascii.eqb_refl.
  apply rep_greedy_run; [done|done|lia|].
  cbn [exec Nat.mul Nat.add].
  rewrite <- (app_nil_r_string value) at 1.
  apply rep_greedy_run; [done|done|pose proof (length_pos _ Hvalue); lia|].
  replace (S (pos + String.length key + String.length sp))
    with (pos + String.length key + 1 + String.length sp) by lia.
  done.
Qed.

Lemma search_exec prog s prev pos cap :
  exec prog s prev pos {[0 := pos]} = Some cap →
  search prog s prev pos = Some cap.
Proof. intros H. destruct s; cbn [search]; by rewrite H. Qed.

Lemma substring_mid pre mid post n m :
  n = String.length pre → m = String.length mid →
  substring n m (pre +:+ mid +:+ post) = mid.
Proof. intros -> ->. apply substring_at. Qed.

Lemma substring_head s t m :
  m = String.length s → substring 0 m (s +:+ t) = s.
Proof. intros ->. apply substring_prefix_app. Qed.

Lemma substring_whole s m : m = String.length s → substring 0 m s = s.
Proof.
  intros ->. rewrite <- (app_nil_r_string s) at 2. apply substring_prefix_app.
Qed.

Lemma FindSubmatch_keyValPat key sp value :
  key ≠ ""%string → all_in key_byte key = true →
  all_in space sp = true →
  value ≠ ""%string → all_in dot value = true → starts_in space value = false →
  FindSubmatch keyValPat (Some (key +:+ ":" +:+ sp +:+ value))
  = Some [Some (key +:+ ":" +:+ sp +:+ value); Some key; Some value].
Proof.
  intros Hkey Hkb Hsp Hvalue Hdot Hstart. unfold FindSubmatch.
  cbn [string_of].
  rewrite (search_exec _ _ _ _ _
             (exec_keyValPat key sp value 0 Hkey Hkb Hsp Hvalue Hdot Hstart)).
  cbn [mbind option_bind]. change (NumSubexp keyValPat) with 2.
  cbn [seq fmap list_fmap]. unfold submatch. cbn [Nat.mul Nat.add].
  lookup_caps. rewrite !Nat.sub_0_r. repeat f_equal.
  - apply substring_whole. rewrite !length_app_string. simpl. lia.
  - by apply substring_head.
  - replace (key +:+ ":" +:+ sp +:+ value)%string
      with ((key +:+ ":" +:+ sp) +:+ value +:+ "")%string
      by by rewrite app_nil_r_string, !app_assoc_string.
    apply substring_mid.
    + rewrite !length_app_string. simpl. lia.
    + lia.
Qed.

(** X13. A line of configuration of the form key, colon, blanks, value,
    where the key is not empty and has no colon, and the value is not empty
    and does not begin with a blank, is matched by [keyValPat] from its
    first to its last byte, with the key in the first group and the value,
    up to the end of the line, in the second; the label of the line is the
    classification of that key and that value. *)
Theorem keyValPat_parse key sp value :
  key ≠ ""%string → all_in key_byte key = true →
  all_in space sp = true →
  value ≠ ""%string → all_in dot value = true → starts_in space value = false →
  FindSubmatch keyValPat (Some (key +:+ ":" +:+ sp +:+ value))
  = Some [Some (key +:+ ":" +:+ sp +:+ value); Some key; Some value]
  ∧ labelHostResource (line_matcher (key +:+ ":" +:+ sp +:+ value))
    = Some (classify key value)
  ∧ line_label (key +:+ ":" +:+ sp +:+ value) = classify key value.
Proof.
  intros Hkey Hkb Hsp Hvalue Hdot Hstart.
  pose proof (FindSubmatch_keyValPat key sp value Hkey Hkb Hsp Hvalue Hdot
                Hstart) as Hf.
  split_and!; [done| |].
  - rewrite (label_of_match _ _ (line_matcher (key +:+ ":" +:+ sp +:+ value))
               Hf); [|done].
    unfold line_label. by rewrite Hf.
  - unfold line_label. by rewrite Hf.
Qed.

Lemma keyValPat_parse_witness :
  FindSubmatch keyValPat (Some "net0: virtio=AA:BB:CC:DD:EE:FF,bridge=vmbr0"%string)
  = Some [Some "net0: virtio=AA:BB:CC:DD:EE:FF,bridge=vmbr0"%string;
          Some "net0"%string;
          Some "virtio=AA:BB:CC:DD:EE:FF,bridge=vmbr0"%string]
  ∧ line_label "usb1: host=1-1.2,usb3=1" = "hostusb:1-1.2"%string.
Proof.
  split.
  - apply (keyValPat_parse "net0" " " "virtio=AA:BB:CC:DD:EE:FF,bridge=vmbr0");
      done.
  - apply (keyValPat_parse "usb1" " " "host=1-1.2,usb3=1"); done.
Defined.

(** *** A line of the listing *)

Lemma notspace_dot c : notspace c = true → dot c && negb (space c) = true.
Proof.
  unfold notspace, dot, space. intros H. rewrite H, andb_true_r.
  destruct (Ascii.eqb c "010"); [|done].
  by rewrite orb_true_r in H.
Qed.

Lemma notspace_not_space c : notspace c = true → space c = false.
Proof. unfold notspace. by intros ?%negb_true_iff. Qed.

Lemma space_not_notspace c : space c = true → notspace c = false.
Proof. unfold notspace. by intros ->. Qed.

Lemma exec_listPat_blank c s prev pos cap :
  space c = true → exec listPat (String c s) prev pos cap = None.
Proof.
  intros Hc. unfold listPat. cbn [exec rep].
  by rewrite (space_not_notspace _ Hc).
Qed.

Lemma search_listPat_blanks pre s prev pos :
  all_in space pre = true →
  search listPat (pre +:+ s) prev pos
  = search listPat s (prev_after prev pre) (pos + String.length pre).
Proof.
  revert prev pos. induction pre as [|c pre IH]; intros prev pos Hpre.
  - cbn. by rewrite Nat.add_0_r.
  - cbn in Hpre. apply andb_true_iff in Hpre as [Hc Hpre].
    cbn [String.append search]. rewrite exec_listPat_blank by done.
    rewrite IH by done. cbn [prev_after String.length].
    by replace (S pos + String.length pre) with (pos + S (String.length pre))
      by lia.
Qed.

Lemma exec_listPat_line id s1 name s2 status s3 rest prev pos :
  id ≠ ""%string → all_in notspace id = true →
  s1 ≠ ""%string → all_in space s1 = true →
  name ≠ ""%string → all_in notspace name = true →
  s2 ≠ ""%string → all_in space s2 = true →
  status ≠ ""%string → all_in notspace status = true →
  s3 ≠ ""%string → all_in space s3 = true →
  starts_in space rest = false →
  exec listPat
    (id +:+ s1 +:+ name +:+ s2 +:+ status +:+ s3 +:+ rest) prev pos
    {[0 := pos]}
  = Some (<[1 := pos + String.length id + String.length s1
                 + String.length name + String.length s2
                 + String.length status + String.length s3]>
            (<[7 := pos + String.length id + String.length s1
                    + String.length name + String.length s2
                    + String.length status]>
               (<[6 := pos + String.length id + String.length s1
                       + String.length name + String.length s2]>
                  (<[5 := pos + String.length id + String.length s1
                          + String.length name]>
                     (<[4 := pos + String.length id + String.length s1]>
                        (<[3 := pos + String.length id]>
                           (<[2 := pos]> {[0 := pos]}))))))).
Proof.
  intros Hid Aid Hs1 As1 Hname Aname Hs2 As2 Hstatus Astatus Hs3 As3 Hrest.
  assert (∀ (k : string → option ascii → nat → option (gmap nat nat)) c s p q,
            space c = false → rep space 1 true k (String c s) 0 p q = None)
    as Hfail.
  { intros k c s p q Hc. cbn [rep]. by rewrite Hc. }
  unfold listPat. cbn [exec Nat.mul Nat.add].
  apply rep_greedy_run; [done| |pose proof (length_pos _ Hid); lia|].
  { rewrite starts_in_app by done.
    apply (starts_in_all space); [done..|apply space_not_notspace]. }
  cbn [exec Nat.mul Nat.add].
  apply rep_greedy_run; [done| |pose proof (length_pos _ Hs1); lia|].
  { rewrite starts_in_app by done.
    apply (starts_in_all notspace); [done..|apply notspace_not_space]. }
  cbn [exec Nat.mul Nat.add].
  apply (rep_lazy_run dot space);
    [|by apply (all_in_impl notspace); [apply notspace_dot|]
     |pose proof (length_pos _ Hname); lia|].
  { intros c s p q Hc. cbn [exec]. by apply Hfail. }
  cbn [exec Nat.mul Nat.add].
  apply rep_greedy_run; [done| |pose proof (length_pos _ Hs2); lia|].
  { rewrite starts_in_app by done.
    apply (starts_in_all notspace); [done..|apply notspace_not_space]. }
  cbn [exec Nat.mul Nat.add].
  apply (rep_lazy_run dot space);
    [|by apply (all_in_impl notspace); [apply notspace_dot|]
     |pose proof (length_pos _ Hstatus); lia|].
  { intros c s p q Hc. cbn [exec]. by apply Hfail. }
  cbn [exec Nat.mul Nat.add].
  apply rep_greedy_run; [done|done|pose proof (length_pos _ Hs3); lia|].
  done.
Qed.

(** X14. A line of the listing made of blanks, an id, blanks, a name,
    blanks, a status, blanks and whatever follows, where the id, the name
    and the status are not empty and hold no blank, is matched by [listPat]
    from the id to the blanks after the status, with the id, the name and
    the status in the three groups; the blanks before the id and the
    columns after the status are left out. *)
Theorem listPat_parse pre id s1 name s2 status s3 rest :
  all_in space pre = true →
  id ≠ ""%string → all_in notspace id = true →
  s1 ≠ ""%string → all_in space s1 = true →
  name ≠ ""%string → all_in notspace name = true →
  s2 ≠ ""%string → all_in space s2 = true →
  status ≠ ""%string → all_in notspace status = true →
  s3 ≠ ""%string → all_in space s3 = true →
  starts_in space rest = false →
  FindSubmatch listPat
    (Some (pre +:+ id +:+ s1 +:+ name +:+ s2 +:+ status +:+ s3 +:+ rest))
  = Some [Some (id +:+ s1 +:+ name +:+ s2 +:+ status +:+ s3);
          Some id; Some name; Some status].
Proof.
  intros Apre Hid Aid Hs1 As1 Hname Aname Hs2 As2 Hstatus Astatus Hs3 As3 Hrest.
  unfold FindSubmatch. cbn [string_of].
  rewrite search_listPat_blanks by done.
  rewrite (search_exec _ _ _ _ _
             (exec_listPat_line id s1 name s2 status s3 rest _ _ Hid Aid Hs1
                As1 Hname Aname Hs2 As2 Hstatus Astatus Hs3 As3 Hrest)).
  cbn [mbind option_bind]. change (NumSubexp listPat) with 3.
  cbn [seq fmap list_fmap]. unfold submatch. cbn [Nat.mul Nat.add].
  lookup_caps. repeat f_equal.
  - replace (pre +:+ id +:+ s1 +:+ name +:+ s2 +:+ status +:+ s3 +:+ rest)%string
      with (pre +:+ (id +:+ s1 +:+ name +:+ s2 +:+ status +:+ s3) +:+ rest)%string
      by by rewrite !app_assoc_string.
    apply substring_mid; [done|]. rewrite !length_app_string. lia.
  - apply substring_mid; [done|lia].
  - replace (pre +:+ id +:+ s1 +:+ name +:+ s2 +:+ status +:+ s3 +:+ rest)%string
      with ((pre +:+ id +:+ s1) +:+ name +:+ s2 +:+ status +:+ s3 +:+ rest)%string
      by by rewrite !app_assoc_string.
    apply substring_mid; [|lia]. rewrite !length_app_string. lia.
  - replace (pre +:+ id +:+ s1 +:+ name +:+ s2 +:+ status +:+ s3 +:+ rest)%string
      with ((pre +:+ id +:+ s1 +:+ name +:+ s2) +:+ status +:+ s3 +:+ rest)%string
      by by rewrite !app_assoc_string.
    apply substring_mid; [|lia]. rewrite !length_app_string. lia.
Qed.

(** The line of guest 101 in the listing of [three_guests]. *)
Lemma listPat_parse_witness :
  FindSubmatch listPat
    (Some "       101 winvm                running    4096              32.00 1234      "%string)
  = Some [Some "101 winvm                running    "%string;
          Some "101"%string; Some "winvm"%string; Some "running"%string].
Proof.
  apply (listPat_parse "       " "101" " " "winvm" "                "
           "running" "    " "4096              32.00 1234      "); done.
Defined.

(** ** Setting the hookscript *)

Section InitGroup.

Context (os : world) (dryRun : bool) (hookScript : string).

#[local] Arguments cmdMatcher_Scan : simpl never.
#[local] Arguments cmdMatcher_MatchText : simpl never.
#[local] Arguments shouldHook : simpl never.

Lemma keep_first_None err : keep_first err None = err.
Proof. by destruct err. Qed.

Lemma keep_first_cons err o outs :
  keep_first (keep_first err o) (first_error outs)
  = keep_first err (first_error (o :: outs)).
Proof. by destruct err, o. Qed.

Lemma unreturned_spec ts i :
  i ∈ unreturned ts ↔ ∃ t, ts !! i = Some t ∧ is_returned t = false.
Proof.
  unfold unreturned. rewrite list_elem_of_In, filter_In, in_seq. split.
  - intros [_ Hi]. destruct (ts !! i) as [t|]; [|done].
    exists t. split; [done|]. by destruct (is_returned t).
  - intros (t & Ht & Hf). rewrite Ht, Hf. split; [|done].
    apply lookup_lt_Some in Ht. lia.
Qed.

Lemma init_enabled_pick st n :
  ∃ th, init_enabled st !! (n `mod` length (init_enabled st)) = Some th
        ∧ th ∈ init_enabled st.
Proof.
  assert (0 < length (init_enabled st)) as Hlen.
  { unfold init_enabled.
    destruct (in_lister st), (unreturned (in_tasks st)); cbn; lia. }
  destruct (lookup_lt_is_Some_2 (init_enabled st)
              (n `mod` length (init_enabled st))) as [th Hth].
  { apply Nat.mod_upper_bound. lia. }
  exists th. split; [done|]. by eapply list_elem_of_lookup_2.
Qed.

Lemma init_enabled_Hook st i :
  Hook i ∈ init_enabled st →
  ∃ t, in_tasks st !! i = Some t ∧ is_returned t = false.
Proof.
  intros Hin. apply unreturned_spec. unfold init_enabled in Hin.
  destruct (in_lister st).
  - apply list_elem_of_singleton in Hin. done.
  - apply elem_of_cons in Hin as [?|Hin]; [done|].
    by apply list_elem_of_fmap in Hin as (j & [= ->] & Hj).
  - apply elem_of_cons in Hin as [?|Hin]; [done|].
    by apply list_elem_of_fmap in Hin as (j & [= ->] & Hj).
  - apply elem_of_cons in Hin as [?|Hin]; [done|].
    by apply list_elem_of_fmap in Hin as (j & [= ->] & Hj).
  - destruct (unreturned (in_tasks st)) eqn:Hu.
    + apply list_elem_of_singleton in Hin. done.
    + by apply list_elem_of_fmap in Hin as (j & [= ->] & Hj).
Qed.

Lemma init_enabled_Main st :
  InitMain ∈ init_enabled st →
  in_lister st = Unborn
  ∨ (in_lister st = Over ∧ unreturned (in_tasks st) = []).
Proof.
  unfold init_enabled. destruct (in_lister st); auto.
  - intros [?|Hin]%elem_of_cons; [done|].
    by apply list_elem_of_fmap in Hin as (j & [=] & _).
  - intros [?|Hin]%elem_of_cons; [done|].
    by apply list_elem_of_fmap in Hin as (j & [=] & _).
  - intros [?|Hin]%elem_of_cons; [done|].
    by apply list_elem_of_fmap in Hin as (j & [=] & _).
  - destruct (unreturned (in_tasks st)); auto.
    intros Hin. by apply list_elem_of_fmap in Hin as (j & [=] & _).
Qed.

Lemma init_enabled_Lister st :
  Lister ∈ init_enabled st → lister_alive (in_lister st).
Proof.
  unfold init_enabled. destruct (in_lister st); try done.
  - intros Hin%list_elem_of_singleton. done.
  - destruct (unreturned (in_tasks st)).
    + intros Hin%list_elem_of_singleton. done.
    + intros Hin. by apply list_elem_of_fmap in Hin as (j & [=] & _).
Qed.

Lemma unreturned_nil ts :
  unreturned ts = [] →
  ts ≫= hook_events os dryRun hookScript = []
  ∧ sum_list_with hook_weight ts = 0.
Proof.
  intros Hu.
  assert (Forall (λ t, is_returned t = true) ts) as Hall.
  { apply Forall_lookup. intros i t Ht.
    destruct (is_returned t) eqn:Hf; [done|].
    assert (i ∈ unreturned ts) as Hi by (apply unreturned_spec; eauto).
    rewrite Hu in Hi. by apply elem_of_nil in Hi. }
  clear Hu. induction Hall as [|t ts Ht _ (IH1 & IH2)]; [done|].
  cbn. rewrite IH1, IH2. unfold is_returned in Ht.
  unfold hook_events, hook_weight.
  by destruct (hook_phase_of t).
Qed.

Lemma hooks_insert ts i t t' :
  ts !! i = Some t →
  ∃ rest W,
    ts ≫= hook_events os dryRun hookScript
    ≡ₚ hook_events os dryRun hookScript t ++ rest
    ∧ <[i:=t']> ts ≫= hook_events os dryRun hookScript
      ≡ₚ hook_events os dryRun hookScript t' ++ rest
    ∧ sum_list_with hook_weight ts = hook_weight t + W
    ∧ sum_list_with hook_weight (<[i:=t']> ts) = hook_weight t' + W.
Proof.
  intros Ht. apply list_elem_of_split_length in Ht as (l1 & l2 & -> & ->).
  exists ((l1 ++ l2) ≫= hook_events os dryRun hookScript),
    (sum_list_with hook_weight (l1 ++ l2)).
  rewrite insert_app_r_alt, Nat.sub_diag by lia. cbn [insert list_insert].
  rewrite !bind_app, !bind_cons, !sum_list_with_app. cbn [sum_list_with].
  split_and!; [solve_Permutation..|lia|lia].
Qed.

Lemma maybeRun_start_set id :
  maybeRun_start dryRun (hookscript_args hookScript id)
  = Some (negb dryRun,
          if dryRun
          then [EvLog "would run %q" [FStrs (hookscript_args hookScript id)]]
          else [EvLog "run %q" [FStrs (hookscript_args hookScript id)];
                EvRun (hookscript_args hookScript id)]).
Proof. unfold maybeRun_start. by destruct dryRun. Qed.

Lemma shouldHook_check id :
  shouldHook os id = Some (hook_check os id).
Proof.
  unfold hook_check. rewrite shouldHook_eq.
  destruct (launch_err _); [done|]. by destruct (next_labelled _).
Qed.

Lemma hook_check_events id :
  (hook_check os id).2 = []
  ∨ (hook_check os id).2 = [EvStart ["qm"; "config"; id]].
Proof.
  unfold hook_check. rewrite shouldHook_eq.
  destruct (launch_err _); [by left|]. by right.
Qed.

(** A step of the lister uses up more of the weight than the goroutines it
    starts bring in; its last step, and no other, hands an error to the
    group. *)
Lemma lister_step_weight l l' ids err t :
  lister_step os l = Some ((l', ids, err), t) →
  lister_alive l →
  lister_weight os l' + 4 * length ids < lister_weight os l
  ∧ l' ≠ Unborn
  ∧ (l' ≠ Over → err = None ∧ returned t = [])
  ∧ (l' = Over → ids = [] ∧ t = [EvReturn err]).
Proof.
  intros Hstep Hl. destruct l as [|cmm|cmm|err0|]; try done;
    cbn [lister_step] in Hstep.
  - destruct (cmdMatcher_Scan_spec os cmm)
      as (b & cmm' & t' & Hscan & Ht' & _ & _ & _ & Hb).
    rewrite Hscan, bind_Some_l in Hstep.
    cbn in Hstep. simplify_eq. cbn [lister_weight length].
    rewrite app_nil_r.
    split_and!; [|done|by intros _; split; [|apply scan_events_no_returns]
                 |done].
    destruct b.
    + destruct Hb as (? & ? & _ & _ & _ & _ & ?). lia.
    + destruct Hb as (_ & _ & ?). lia.
  - destruct (cmdMatcher_Scan_spec os cmm)
      as (b & cmm' & t' & Hscan & Ht' & _ & _ & _ & Hb).
    rewrite Hscan, bind_Some_l in Hstep.
    destruct b.
    + destruct Hb as (? & ? & _ & _ & _ & _ & ?).
      destruct (cmdMatcher_MatchText cmm' 1) as [id|]; [|done].
      cbn in Hstep. simplify_eq. cbn [lister_weight length].
      rewrite app_nil_r.
      split_and!; [lia|done
                   |by intros _; split; [|apply scan_events_no_returns]
                   |done].
    + destruct (cmdMatcher_Err cmm') as [e ?]. cbn in Hstep. simplify_eq.
      cbn [lister_weight length]. rewrite app_nil_r.
      split_and!; [lia|done
                   |by intros _; split; [|apply scan_events_no_returns]
                   |done].
  - cbn in Hstep. simplify_eq. cbn [lister_weight length].
    split_and!; [lia|done|done|done].
Qed.

(** What the run of the lister is made of. *)
Lemma lister_run_step fl l ids lerr tl :
  lister_run os fl l = Some ((ids, lerr), tl) →
  lister_alive l →
  ∃ l' ids1 err1 t1,
    lister_step os l = Some ((l', ids1, err1), t1)
    ∧ ((l' = Over ∧ ids = ids1 ∧ lerr = err1 ∧ tl = t1)
       ∨ (l' ≠ Over
          ∧ ∃ fl' ids2 t2,
              lister_run os fl' l' = Some ((ids2, lerr), t2)
              ∧ ids = ids1 ++ ids2 ∧ tl = t1 ++ t2)).
Proof.
  intros Hrun Hl. destruct fl as [|fl]; [done|].
  assert (lister_run os (S fl) l
          = ('(l', ids, err) <- lister_step os l;
             match l' with
             | Over => ret (ids, err)
             | _ =>
                 '(ids', err') <- lister_run os fl l';
                 ret (ids ++ ids', err')
             end)) as Heq.
  { by destruct l. }
  rewrite Heq in Hrun. clear Heq.
  apply bind_Some in Hrun as ([[l' ids1] err1] & t1 & t2 & Hstep & Hrest & ->).
  exists l', ids1, err1, t1. split; [done|].
  assert (l' = Over ∨ l' ≠ Over) as [->|Hne] by (destruct l'; auto).
  - left. unfold ret in Hrest. simplify_eq. by rewrite app_nil_r.
  - right. split; [done|].
    assert (('(ids', err') <- lister_run os fl l'; ret (ids1 ++ ids', err'))
            = Some ((ids, lerr), t2)) as Hrest'.
    { by destruct l'. }
    apply bind_Some in Hrest' as ([ids2 err2] & t3 & t4 & Hrun' & Hret & ->).
    unfold ret in Hret. simplify_eq. exists fl, ids2, t3. by rewrite app_nil_r.
Qed.

Lemma new_hooks ids :
  (new_hook <$> ids) ≫= hook_events os dryRun hookScript
  = ids ≫= guest_events os dryRun hookScript
  ∧ sum_list_with hook_weight (new_hook <$> ids) = 4 * length ids.
Proof.
  induction ids as [|id ids (IH1 & IH2)]; [done|].
  cbn. rewrite IH1, IH2. split_and!; [done|lia].
Qed.

(** The invariant of the group: whatever the schedule, what is still to
    happen happens, and the group ends with the first error handed to it. *)
Lemma run_init_spec fuel sched st fl ids lerr tl :
  init_weight os st ≤ fuel →
  lister_run os fl (in_lister st) = Some ((ids, lerr), tl) →
  ∃ r t,
    run_init os dryRun hookScript fuel sched st = Some (r, t)
    ∧ t ≡ₚ tl ++ (in_tasks st ≫= hook_events os dryRun hookScript)
            ++ (ids ≫= guest_events os dryRun hookScript)
    ∧ r = keep_first (in_err st) (first_error (returned t)).
Proof.
  revert sched st fl ids lerr tl.
  induction fuel as [|fuel IH]; intros sched st fl ids lerr tl Hfuel Hrun.
  { unfold init_weight in Hfuel. lia. }
  cbn [run_init].
  destruct (init_enabled_pick st (hd 0 sched)) as (th & -> & Hth).
  cbn [lift]. rewrite bind_ret_l. destruct th as [| |i].
  - (* the main goroutine *)
    apply init_enabled_Main in Hth as [Hl|[Hl Hu]];
      unfold init_step_main; rewrite Hl; rewrite bind_ret_l;
      rewrite Hl in Hrun; (destruct fl as [|fl]; [done|]);
      cbn [lister_run] in Hrun.
    + unfold init_weight in Hfuel. rewrite Hl in Hfuel.
      cbn [lister_weight] in Hfuel.
      edestruct (IH (tail sched)
                   {| in_lister :=
                        AtHeader (matchCommand (exec_Command "qm" ["list"])
                                    listPat);
                      in_tasks := in_tasks st; in_err := in_err st |})
        as (r & t & Hr & Hp & Hres); [|exact Hrun|].
      { unfold init_weight. cbn [in_lister in_tasks lister_weight].
        change (unread os _) with (length (output (command os ["qm"; "list"]))).
        lia. }
      exists r, t. by split_and!.
    + unfold ret in Hrun. simplify_eq.
      apply unreturned_nil in Hu as (Hev & _).
      exists (in_err st), []. rewrite Hev. cbn.
      split_and!; [done..|]. by rewrite keep_first_None.
  - (* the lister *)
    apply init_enabled_Lister in Hth as Hl.
    destruct (lister_run_step _ _ _ _ _ Hrun Hl)
      as (l' & ids1 & err1 & t1 & Hstep & Hnext).
    destruct (lister_step_weight _ _ _ _ _ Hstep Hl)
      as (Hw & Hborn & Hgoes & Hends).
    destruct (new_hooks ids1) as (Hn1 & Hn3).
    unfold init_step_lister. rewrite Hstep, bind_Some_l.
    change (λ id : string, {| hook_id := id; hook_phase_of := ToCheck |})
      with new_hook.
    cbn [ret]. rewrite bind_Some_l. unfold init_weight in Hfuel.
    destruct Hnext as [(-> & -> & -> & ->)|(Hne & fl' & ids2 & t2 & Hrun' & -> & ->)].
    + destruct (Hends eq_refl) as [-> ->].
      edestruct (IH (tail sched)
                   {| in_lister := Over;
                      in_tasks := in_tasks st ++ (new_hook <$> []);
                      in_err := keep_first (in_err st) err1 |} 1 [] None [])
        as (r & t & Hr & Hp & Hres); [|done|].
      { unfold init_weight. cbn [in_lister in_tasks].
        rewrite sum_list_with_app, Hn3. lia. }
      rewrite Hr. cbn [in_lister in_tasks in_err] in Hp, Hres.
      eexists r, _. split_and!; [reflexivity| |].
      * rewrite Hp, bind_app, Hn1. cbn. rewrite ?app_nil_r. done.
      * cbn. by rewrite Hres, keep_first_cons.
    + destruct (Hgoes Hne) as [-> Hquiet]. rewrite keep_first_None.
      edestruct (IH (tail sched)
                   {| in_lister := l';
                      in_tasks := in_tasks st ++ (new_hook <$> ids1);
                      in_err := in_err st |} fl' ids2 lerr t2)
        as (r & t & Hr & Hp & Hres); [|done|].
      { unfold init_weight. cbn [in_lister in_tasks].
        rewrite sum_list_with_app, Hn3. lia. }
      rewrite Hr. cbn [in_lister in_tasks in_err] in Hp, Hres.
      eexists r, _. split_and!; [reflexivity| |].
      * rewrite Hp, !bind_app, Hn1. cbn. solve_Permutation.
      * by rewrite !returned_app, Hquiet.
  - (* a goroutine of a guest *)
    apply init_enabled_Hook in Hth as (tk & Htk & Hfin).
    unfold init_step_hook. rewrite Htk. cbn [lift]. rewrite bind_ret_l.
    unfold is_returned in Hfin. unfold init_weight in Hfuel.
    assert (∀ p t1,
              hook_weight {| hook_id := hook_id tk; hook_phase_of := p |}
              < hook_weight tk →
              hook_events os dryRun hookScript tk
              = t1 ++ hook_events os dryRun hookScript
                        {| hook_id := hook_id tk; hook_phase_of := p |} →
              returned t1 = [] →
              ∃ r t,
                match
                  run_init os dryRun hookScript fuel (tail sched)
                    (hook_set_phase st i tk p)
                with
                | Some (b, t') => Some (b, t1 ++ t')
                | None => None
                end = Some (r, t)
                ∧ t ≡ₚ tl ++ (in_tasks st ≫= hook_events os dryRun hookScript)
                        ++ (ids ≫= guest_events os dryRun hookScript)
                ∧ r = keep_first (in_err st) (first_error (returned t)))
      as Hgo.
    { intros p t1 Hlt Hev Hquiet.
      destruct (hooks_insert (in_tasks st) i tk
                  {| hook_id := hook_id tk; hook_phase_of := p |} Htk)
        as (rest & W & Hp1 & Hp1' & Hw1 & Hw1').
      edestruct (IH (tail sched) (hook_set_phase st i tk p))
        as (r & t & Hr & Hp & Hres); [|exact Hrun|].
      { unfold init_weight, hook_set_phase. cbn [in_lister in_tasks].
        rewrite Hw1'. rewrite Hw1 in Hfuel. lia. }
      rewrite Hr. unfold hook_set_phase in Hp, Hres.
      cbn [in_lister in_tasks in_err] in Hp, Hres.
      eexists r, _. split_and!; [reflexivity| |].
      - rewrite Hp, Hp1', Hp1, Hev. solve_Permutation.
      - by rewrite returned_app, Hquiet. }
    destruct (hook_phase_of tk) as [| | |ret_r|] eqn:Hphase; [| | | |done].
    + (* shouldHook *)
      pose proof (shouldHook_check (hook_id tk)) as Hsh.
      pose proof (hook_check_events (hook_id tk)) as Hce.
      destruct (hook_check os (hook_id tk)) as [[should err] tc] eqn:Hc.
      rewrite Hsh, bind_Some_l. cbn [snd] in Hce.
      assert (returned tc = []) as Hquiet by (by destruct Hce as [-> | ->]).
      assert (hook_events os dryRun hookScript tk
              = tc ++ match should, err with
                      | true, None =>
                          set_events os dryRun hookScript (hook_id tk)
                          ++ [EvReturn
                                (set_outcome os dryRun hookScript (hook_id tk))]
                      | _, Some e => [EvReturn (Some e)]
                      | false, None => [EvReturn None]
                      end) as Hev.
      { unfold hook_events, guest_events, guest_outcome, hooked.
        rewrite Hphase, Hc. cbn [snd]. by destruct should, err. }
      destruct err as [e|]; [|destruct should]; cbn [ret];
        rewrite bind_Some_l, app_nil_r; apply Hgo; try done;
        try (unfold hook_weight; rewrite Hphase; cbn; lia).
      rewrite Hev. by destruct should.
    + (* the start of maybeRun *)
      rewrite maybeRun_start_set, bind_Some_l.
      assert (hook_events os dryRun hookScript tk
              = set_events os dryRun hookScript (hook_id tk)
                ++ [EvReturn (set_outcome os dryRun hookScript (hook_id tk))])
        as Hev.
      { unfold hook_events. by rewrite Hphase. }
      unfold set_events, set_outcome in Hev.
      destruct dryRun eqn:Hdry; cbn [negb ret];
        rewrite bind_Some_l, app_nil_r; apply Hgo; try done;
        unfold hook_weight; rewrite Hphase; cbn; lia.
    + (* the end of the command *)
      rewrite maybeRun_finish_eq, bind_Some_l. cbn [ret].
      rewrite bind_Some_l, app_nil_r.
      apply Hgo; try done.
      * unfold hook_weight; rewrite Hphase; cbn; lia.
      * unfold hook_events. rewrite Hphase. done.
    + (* the result reaches the group *)
      unfold bind at 2. unfold emit. cbn [ret]. cbn [bind].
      destruct (hooks_insert (in_tasks st) i tk
                  {| hook_id := hook_id tk; hook_phase_of := Returned |} Htk)
        as (rest & W & Hp1 & Hp1' & Hw1 & Hw1').
      edestruct (IH (tail sched) (hook_return st i tk ret_r))
        as (r & t & Hr & Hp & Hres); [|exact Hrun|].
      { unfold init_weight, hook_return. cbn [in_lister in_tasks].
        rewrite Hw1'. rewrite Hw1 in Hfuel. unfold hook_weight in Hfuel |- *.
        rewrite Hphase in Hfuel. cbn [hook_phase_of]. lia. }
      rewrite Hr. unfold hook_return in Hp, Hres.
      cbn [in_lister in_tasks in_err] in Hp, Hres.
      eexists r, _. split_and!; [reflexivity| |].
      * cbn. rewrite Hp, Hp1', Hp1. unfold hook_events. rewrite Hphase. cbn.
        solve_Permutation.
      * cbn. by rewrite Hres, keep_first_cons.
Qed.

End InitGroup.

(** *** The lister on its own *)

Section InitRun.

Context (os : world) (dryRun : bool) (hookScript : string).

#[local] Arguments cmdMatcher_Scan : simpl never.
#[local] Arguments cmdMatcher_MatchText : simpl never.
#[local] Arguments shouldHook : simpl never.
#[local] Arguments FindSubmatch : simpl never.

Lemma lister_run_end fl cmm cmm' t :
  cmdMatcher_Scan os cmm = Some ((false, cmm'), t) →
  lister_run os (S (S fl)) (InLoop cmm)
  = Some (([], (cmdMatcher_Err cmm').1),
          t ++ [EvReturn (cmdMatcher_Err cmm').1]).
Proof.
  intros Hs. cbn [lister_run lister_step]. rewrite Hs, bind_Some_l.
  destruct (cmdMatcher_Err cmm') as [err ?]. cbn. by rewrite app_nil_r.
Qed.

Lemma lister_run_matching fl c fe tok ex lines m :
  Process c = true → S (length lines) < fl →
  lister_run os fl (InLoop (matching c fe tok ex lines listPat m))
  = Some (((λ m, slot_text m 1) <$> matches listPat lines,
           Wrapf "io error: %w" [] <$> fe),
          [EvReturn (Wrapf "io error: %w" [] <$> fe)]).
Proof.
  intros Hp. revert tok ex lines m.
  induction fl as [|fl IH]; intros tok ex lines m Hf; [lia|].
  pose proof (cmdMatcher_Scan_matching os c fe tok ex lines listPat m Hp)
    as Hs.
  unfold matched in Hs.
  destruct (next_match listPat lines) as [[[m' l] rest]|] eqn:En.
  - cbn [lister_run lister_step]. rewrite Hs, bind_Some_l.
    apply next_match_Some in En as (_ & -> & Hlen).
    rewrite (MatchText_slot_text
               (matching c fe (Some l) false rest listPat (Some m')) m' 1
               eq_refl) by done.
    cbn [lift]. rewrite bind_ret_l. cbn [ret]. rewrite bind_Some_l.
    rewrite IH by lia. done.
  - apply next_match_None in En as ->.
    destruct fl as [|fl]; [lia|]. rewrite (lister_run_end _ _ _ _ Hs).
    unfold cmdMatcher_Err, cmdScanner_Err. cbn. unfold Scanner_Err. cbn.
    by destruct fe.
Qed.

Lemma lister_run_Unborn fl :
  lister_run os (S fl) Unborn
  = lister_run os fl
      (AtHeader (matchCommand (exec_Command "qm" ["list"]) listPat)).
Proof. done. Qed.

Lemma lister_run_AtHeader fl cmm r t :
  cmdMatcher_Scan os cmm = Some (r, t) →
  lister_run os (S fl) (AtHeader cmm)
  = match lister_run os fl (InLoop r.2) with
    | Some (x, t') => Some (x, t ++ t')
    | None => None
    end.
Proof.
  intros Hs. destruct r as [b cmm'].
  cbn [lister_run lister_step]. rewrite Hs, bind_Some_l.
  cbn [ret snd]. rewrite bind_Some_l.
  destruct (lister_run os fl (InLoop cmm')) as [[[ids err] t']|]; [|done].
  cbn. by rewrite !app_nil_r.
Qed.

Lemma lister_run_listing :
  ∃ fl, lister_run os fl Unborn
        = Some ((listing_ids os, listing_err os), listing_events os).
Proof.
  unfold listing_events, listing_ids, listing_err.
  destruct (launch_err (command os ["qm"; "list"])) as [e|] eqn:El.
  - exists 4. rewrite lister_run_Unborn.
    destruct (cmdMatcher_Scan_refused os (exec_Command "qm" ["list"]) listPat
                e eq_refl El) as (csc' & Hs & Hc & He).
    rewrite (lister_run_AtHeader _ _ _ _ Hs). cbn [snd].
    rewrite (lister_run_end _ _ _ _ (cmdMatcher_Scan_failed os _ _ _ e He)).
    unfold cmdMatcher_Err, cmdScanner_Err. cbn [cmm_cmdScanner set_cmdScanner].
    rewrite He. done.
  - exists (S (S (S (S (length (output (command os ["qm"; "list"]))))))).
    rewrite lister_run_Unborn.
    rewrite (lister_run_AtHeader _ _ _ _
               (cmdMatcher_Scan_fresh os (exec_Command "qm" ["list"]) listPat
                  eq_refl El)).
    unfold matched.
    change (Args (exec_Command "qm" ["list"])) with ["qm"; "list"]%string.
    destruct (next_match listPat (output (command os ["qm"; "list"])))
      as [[[m l] rest]|] eqn:En.
    + apply next_match_Some in En as (_ & -> & Hlen). cbn [snd].
      rewrite lister_run_matching by (done || lia). done.
    + apply next_match_None in En as ->. cbn [snd].
      rewrite lister_run_matching by (done || simpl; lia). done.
Qed.

Lemma runInit_hooks_spec sched :
  ∃ r t,
    runInit_hooks os dryRun hookScript sched = Some (r, t)
    ∧ t ≡ₚ listing_events os
            ++ (listing_ids os ≫= guest_events os dryRun hookScript)
    ∧ r = first_error (returned t).
Proof.
  destruct lister_run_listing as [fl Hrun]. unfold runInit_hooks.
  destruct (run_init_spec os dryRun hookScript
              (5 * length (output (command os ["qm"; "list"])) + 5) sched
              {| in_lister := Unborn; in_tasks := []; in_err := None |}
              fl (listing_ids os) (listing_err os) (listing_events os))
    as (r & t & Hr & Hp & Hres); [|exact Hrun|].
  { unfold init_weight. cbn [in_lister in_tasks lister_weight sum_list_with].
    lia. }
  exists r, t. split_and!; done.
Qed.

(** *** What the goroutines of the guests cause *)

Lemma guest_events_requests ids :
  requests (ids ≫= guest_events os dryRun hookScript)
  = (if dryRun then []
     else hookscript_args hookScript <$> List.filter (hooked os) ids)
  ∧ finished (ids ≫= guest_events os dryRun hookScript)
    = requests (ids ≫= guest_events os dryRun hookScript)
  ∧ returned (ids ≫= guest_events os dryRun hookScript)
    = guest_outcome os dryRun hookScript <$> ids
  ∧ Forall (λ e, ¬ reaps e) (ids ≫= guest_events os dryRun hookScript).
Proof.
  induction ids as [|id ids (IH1 & IH2 & IH3 & IH4)].
  { by destruct dryRun. }
  rewrite bind_cons, requests_app, returned_app. unfold finished in *.
  rewrite omap_app, IH3, IH2, IH1. cbn [List.filter].
  unfold guest_events, set_events.
  destruct (hook_check_events os id) as [-> | ->];
    destruct (hooked os id), dryRun; cbn;
    (split_and!; [done..|]); repeat constructor; tauto.
Qed.

(** X15. Setting the hookscript, whatever the order in which the
    goroutines run: the command [qm set id --hookscript] is started once
    for each line of the listing after the first matching one whose guest
    [shouldHook] accepts, and for no other guest; none is started in a dry
    run; each of them has ended when [g.Wait] returns; and neither the
    listing nor any [qm config] is ever killed or waited for. *)
Theorem runInit_hooks_requests sched :
  ∃ r t,
    runInit_hooks os dryRun hookScript sched = Some (r, t)
    ∧ t ≡ₚ listing_events os
            ++ (listing_ids os ≫= guest_events os dryRun hookScript)
    ∧ requests t
      ≡ₚ (if dryRun then []
          else hookscript_args hookScript
               <$> List.filter (hooked os) (listing_ids os))
    ∧ finished t ≡ₚ requests t
    ∧ Forall (λ e, ¬ reaps e) t.
Proof.
  destruct (runInit_hooks_spec sched) as (r & t & Hr & Hp & _).
  destruct (guest_events_requests (listing_ids os))
    as (Hreq & Hfin & _ & Hreap).
  assert (requests (listing_events os) = []
          ∧ finished (listing_events os) = []
          ∧ Forall (λ e, ¬ reaps e) (listing_events os)) as (Hl1 & Hl2 & Hl3).
  { unfold listing_events. destruct (launch_err _);
      (split_and!; [done..|]); repeat constructor; tauto. }
  exists r, t. split_and!; [done..| | |].
  - unfold requests in *. rewrite Hp, omap_app, Hl1, Hreq. done.
  - unfold requests, finished in *. rewrite Hp, !omap_app, Hl1, Hl2, Hfin. done.
  - rewrite Hp. by apply Forall_app.
Qed.

(** X16. The error of setting the hookscripts, whatever the order in
    which the goroutines run: [g.Wait] returns the first error that reached
    the group, in the order in which the lister and the goroutines of the
    guests handed it what they returned, as the trace has it.  What they
    hand over is, for the lister, the error of the listing and, for each
    guest of the listing, the error of its check or else of its [qm set];
    so [g.Wait] returns no error exactly when the listing ended without one
    and every guest of the listing was checked and, where it applies, set
    without one, and an error it returns is the error of the listing or of
    one of the guests. *)
Theorem runInit_hooks_result sched :
  ∃ r t,
    runInit_hooks os dryRun hookScript sched = Some (r, t)
    ∧ r = first_error (returned t)
    ∧ returned t
      ≡ₚ listing_err os
         :: (guest_outcome os dryRun hookScript <$> listing_ids os)
    ∧ (r = None ↔
       listing_err os = None
       ∧ ∀ id, id ∈ listing_ids os → guest_outcome os dryRun hookScript id = None)
    ∧ ∀ e, r = Some e →
        listing_err os = Some e
        ∨ ∃ id, id ∈ listing_ids os
                ∧ guest_outcome os dryRun hookScript id = Some e.
Proof.
  destruct (runInit_hooks_spec sched) as (r & t & Hr & Hp & Hres).
  destruct (guest_events_requests (listing_ids os)) as (_ & _ & Hret & _).
  assert (returned t
          ≡ₚ listing_err os
             :: (guest_outcome os dryRun hookScript <$> listing_ids os))
    as Ho.
  { unfold returned in *. rewrite Hp, omap_app, Hret.
    unfold listing_events. by destruct (launch_err _). }
  exists r, t. split_and!; [done..| |].
  - rewrite Hres, first_error_None, Ho, Forall_cons, Forall_fmap, Forall_forall.
    done.
  - intros e He. rewrite Hres in He. apply first_error_Some in He.
    rewrite Ho in He. apply elem_of_cons in He as [He|He]; [by left|].
    right. apply list_elem_of_fmap in He as (id & ? & ?). by exists id.
Qed.

End InitRun.

(** The three guests of [three_guests] all have a device of the host: each
    gets the hookscript, and the failure to set it for guest 103 is what
    [g.Wait] returns. *)
Example runInit_hooks_three_guests :
  ∃ t,
    runInit_hooks set_fails_for_103 false "local:snippets/qmexmut.hook" [1; 0; 2]
    = Some (Some (ExitError 256), t)
    ∧ requests t
      ≡ₚ hookscript_args "local:snippets/qmexmut.hook"
         <$> ["101"; "102"; "103"]%string.
Proof.
  eexists. split; [vm_compute; reflexivity|].
  vm_compute. solve_Permutation.
Qed.

(** Which error [g.Wait] returns depends on the order in which the
    goroutines reach the group, not on the order in which their commands
    end: with the hookscript failing to be set for guests 101 and 103, the
    command for 101 ending first in both runs, either error can be the one
    returned. *)
Example runInit_hooks_first_to_the_group :
  (∃ t,
     runInit_hooks two_sets_fail false "local:snippets/qmexmut.hook" []
     = Some (Some (ExitError 256), t)
     ∧ finished t
       = hookscript_args "local:snippets/qmexmut.hook"
         <$> ["101"; "102"; "103"]%string
     ∧ returned t = [None; Some (ExitError 256); None; Some (ExitError 512)])
  ∧ ∃ t,
      runInit_hooks two_sets_fail false "local:snippets/qmexmut.hook"
        [0; 0; 0; 0; 0; 0; 0; 0; 0; 0; 2; 2; 2; 2]
      = Some (Some (ExitError 512), t)
      ∧ finished t
        = hookscript_args "local:snippets/qmexmut.hook"
          <$> ["101"; "103"; "102"]%string
      ∧ returned t = [None; Some (ExitError 512); Some (ExitError 256); None].
Proof.
  split; (eexists; split; [vm_compute; reflexivity|]);
    split; vm_compute; reflexivity.
Qed.

(** ** The hook from end to end *)




(** ** The listing is left running *)

Section Listing.

Variable os : world.

#[local] Arguments FindSubmatch : simpl never.
#[local] Arguments cmdMatcher_Scan : simpl never.
#[local] Arguments cmdMatcher_MatchText : simpl never.
#[local] Arguments sharesHostResources : simpl never.
#[local] Arguments hostResources : simpl never.

Lemma config_events id :
  Forall config_event
    [EvStart ["qm"; "config"; id]; EvKill ["qm"; "config"; id];
     EvWait ["qm"; "config"; id]].
Proof. repeat constructor; by exists id. Qed.

Lemma sharesHostResources_events id reses :
  ∃ b err t,
    sharesHostResources os id reses = Some ((b, err), t)
    ∧ Forall config_event t.
Proof.
  rewrite sharesHostResources_eq. destruct (launch_err _).
  - eexists _, _, _. split; [done|]. constructor.
  - destruct (next_shared _ _) as [[??]|]; eexists _, _, _;
      (split; [done|apply config_events]).
Qed.

Lemma mutuals_loop_events fuel c fe tok ex lines m id res acc :
  Process c = true → length lines < fuel →
  ∃ recs err t,
    mutuals_loop os fuel (matching c fe tok ex lines listPat m) id res acc
    = Some ((recs, err), t)
    ∧ Forall config_event t.
Proof.
  intros Hp. revert tok ex lines m acc.
  induction fuel as [|fuel IH]; intros tok ex lines m acc Hf; [lia|].
  cbn [mutuals_loop]. rewrite cmdMatcher_Scan_matching by done.
  rewrite bind_Some_l. unfold matched.
  destruct (next_match listPat lines) as [[[m' l] rest]|] eqn:En.
  2:{ destruct (cmdMatcher_Err _) as [[e|] ?]; eexists _, _, _;
        (split; [done|constructor]). }
  apply next_match_Some in En as (_ & _ & Hlen).
  rewrite (MatchText_slot_text
             (matching c fe (Some l) false rest listPat (Some m')) m' 1
             eq_refl) by done.
  cbn [lift]. rewrite bind_ret_l.
  destruct (String.eqb _ id).
  - destruct (IH (Some l) false rest (Some m') acc) as (recs & err & t & -> & Ht);
      [lia|].
    by eexists _, _, _.
  - destruct (sharesHostResources_events (slot_text m' (Z.to_nat 1)) res)
      as (b & err & ts & -> & Hts).
    rewrite bind_Some_l. destruct err as [e|].
    { cbn. eexists _, _, _. split; [done|]. by rewrite app_nil_r. }
    rewrite (MatchText_slot_text
               (matching c fe (Some l) false rest listPat (Some m')) m' 2
               eq_refl) by done.
    cbn [lift]. rewrite bind_ret_l.
    rewrite (MatchText_slot_text
               (matching c fe (Some l) false rest listPat (Some m')) m' 3
               eq_refl) by done.
    cbn [lift]. rewrite bind_ret_l.
    match goal with
    | |- context [mutuals_loop os fuel ?cmm id res ?acc'] =>
        destruct (IH (Some l) false rest (Some m') acc')
          as (recs & err & t & -> & Ht); [lia|]
    end.
    eexists _, _, _. split; [done|]. rewrite app_nil_l. by apply Forall_app.
Qed.

Lemma mutuals_events id :
  ∃ recs err t,
    mutuals os id = Some ((recs, err), t)
    ∧ Forall (λ e, e = EvStart ["qm"; "list"] ∨ config_event e) t
    ∧ (succeeds os → EvStart ["qm"; "list"] ∈ t).
Proof.
  unfold mutuals. rewrite hostResources_eq.
  destruct (launch_err (command os ["qm"; "config"; id])) as [e|] eqn:Elc.
  { rewrite bind_Some_l. cbn. eexists _, _, _. split_and!; [done|constructor|].
    intros Hs. by rewrite succeeds_launch in Elc. }
  rewrite bind_Some_l.
  assert (Forall (λ e, e = EvStart ["qm"; "list"] ∨ config_event e)
            [EvStart ["qm"; "config"; id]; EvKill ["qm"; "config"; id];
             EvWait ["qm"; "config"; id]]) as Hcfg.
  { eapply Forall_impl; [apply config_events|]. auto. }
  destruct (cleanup_report _ _ _ _) as [e|] eqn:Ecr;
    cbn [fmap option_fmap option_map].
  { cbn. eexists _, _, _. split_and!; [done|done|].
    intros Hs. by rewrite succeeds_cleanup_report in Ecr. }
  destruct (launch_err (command os ["qm"; "list"])) as [e|] eqn:El.
  - destruct (cmdMatcher_Scan_refused os (exec_Command "qm" ["list"]) listPat
                e eq_refl El) as (csc' & -> & Hc & He).
    rewrite bind_Some_l. cbn [mutuals_loop].
    rewrite (cmdMatcher_Scan_failed os _ _ _ e He), bind_Some_l.
    unfold cmdMatcher_Err, cmdScanner_Err. cbn [cmm_cmdScanner set_cmdScanner].
    rewrite He. cbn. eexists _, _, _. split_and!; [done|done|].
    intros Hs. by rewrite succeeds_launch in El.
  - rewrite (cmdMatcher_Scan_fresh os (exec_Command "qm" ["list"]) listPat
               eq_refl El), bind_Some_l.
    unfold matched.
    change (Args (exec_Command "qm" ["list"])) with ["qm"; "list"]%string.
    assert (∀ tok ex lines m,
              ∃ recs err t,
                mutuals_loop os (S (length lines))
                  (matching (started (exec_Command "qm" ["list"]))
                     (read_err (command os ["qm"; "list"])) tok ex lines
                     listPat m) id
                  (list_to_set
                     (config_labels (output (command os ["qm"; "config"; id]))))
                  [] = Some ((recs, err), t)
                ∧ Forall config_event t) as Hloop.
    { intros. apply mutuals_loop_events; [done|lia]. }
    destruct (next_match listPat (output (command os ["qm"; "list"])))
      as [[[m l] rest]|].
    + destruct (Hloop (Some l) false rest (Some m)) as (recs & err & t & Ht & Hev).
      change (unread os _) with (length rest). rewrite Ht.
      eexists _, _, _. split_and!; [done| |intros _; set_solver].
      apply Forall_app. split; [done|]. constructor; [by left|].
      eapply Forall_impl; [exact Hev|]. auto.
    + destruct (Hloop None true [] None) as (recs & err & t & Ht & Hev).
      change (unread os _) with 0. change (S (length [])) with 1 in Ht.
      rewrite Ht.
      eexists _, _, _. split_and!; [done| |intros _; set_solver].
      apply Forall_app. split; [done|]. constructor; [by left|].
      eapply Forall_impl; [exact Hev|]. auto.
Qed.

End Listing.

(** X18. [mutuals] never ends the command that lists the guests: in every
    world it returns, and its events hold neither a kill of [qm list] nor a
    wait for it, while they do hold its start when the commands succeed;
    the hook at [pre-start] then leaves it behind as well. *)
Theorem mutuals_leaves_listing os id :
  ∃ recs err t,
    mutuals os id = Some ((recs, err), t)
    ∧ (EvKill ["qm"; "list"] ∉ t)
    ∧ (EvWait ["qm"; "list"] ∉ t)
    ∧ (succeeds os →
       EvStart ["qm"; "list"] ∈ t
       ∧ ∀ dryRun sched,
           ∃ r t', stopMutuals os dryRun sched id = Some (r, t')
                   ∧ EvStart ["qm"; "list"] ∈ t'
                   ∧ (EvKill ["qm"; "list"] ∉ t')
                   ∧ (EvWait ["qm"; "list"] ∉ t')).
Proof.
  destruct (mutuals_events os id) as (recs & err & t & Hm & Hev & Hstart).
  assert (∀ e, e ∈ t → e ≠ EvKill ["qm"; "list"] ∧ e ≠ EvWait ["qm"; "list"])
    as Hno.
  { intros e He. rewrite Forall_forall in Hev.
    destruct (Hev e He) as [->|Hc]; [done|].
    split; intros ->; by destruct Hc. }
  exists recs, err, t. split_and!; [done| | |].
  - intros Hin. by destruct (Hno _ Hin).
  - intros Hin. by destruct (Hno _ Hin).
  - intros Hs. split; [auto|]. intros dryRun sched.
    destruct (mutuals_exact os id Hs) as (t0 & Hm' & _).
    rewrite Hm in Hm'. simplify_eq.
    match type of Hm with
    | mutuals _ _ = Some ((?recs, _), _) =>
        destruct (stop_records_spec os dryRun sched recs)
          as (r & t' & Hst & Hp & _);
        exists r, (t0 ++ t'); unfold stopMutuals;
        rewrite Hm, bind_Some_l, Hst
    end.
    assert (∀ e, e ∈ t' → ¬ scan_event e) as Hrun.
    { intros e He. rewrite Hp in He. apply list_elem_of_bind in He
        as (rc & He & _). unfold record_events, start_events, finish_events in He.
      destruct (String.eqb (rec_status rc) "running"), dryRun;
        [| |destruct (String.eqb (rec_status rc) "stopped")..];
        set_unfold; naive_solver. }
    split_and!; [done|set_solver| |].
    + intros [Hin|Hin]%elem_of_app; [by destruct (Hno _ Hin)|].
      by apply Hrun in Hin.
    + intros [Hin|Hin]%elem_of_app; [by destruct (Hno _ Hin)|].
      by apply Hrun in Hin.
Qed.

(** ** The status of a guest *)

Lemma exec_statusPat sp value prev pos :
  all_in space sp = true →
  value ≠ ""%string → all_in dot value = true → starts_in space value = false →
  exec statusPat ("status:" +:+ sp +:+ value) prev pos {[0 := pos]}
  = Some (<[1 := pos + 7 + String.length sp + String.length value]>
            (<[3 := pos + 7 + String.length sp + String.length value]>
               (<[2 := pos + 7 + String.length sp]> {[0 := pos]}))).
Proof.
  intros Hsp Hvalue Hdot Hstart. unfold statusPat.
  rewrite exec_lits. cbn [strip_prefix String.append Ascii.eqb Bool.eqb].
  cbn [String.length]. cbn [exec Nat.mul Nat.add].
  apply rep_greedy_run; [done|done|lia|].
  cbn [exec Nat.mul Nat.add].
  rewrite <- (app_nil_r_string value) at 1.
  apply rep_greedy_run; [done|done|pose proof (length_pos _ Hvalue); lia|].
  done.
Qed.

(** X19. A line that begins with [status:], blanks and a value that is
    not empty and does not begin with a blank is matched by [statusPat] as
    a whole, with the value in its group; so [matchCommandOnce] with this
    pattern, on a command that starts and prints such a line first, returns
    the value. *)
Theorem statusPat_parse sp value :
  all_in space sp = true →
  value ≠ ""%string → all_in dot value = true → starts_in space value = false →
  FindSubmatch statusPat (Some ("status:" +:+ sp +:+ value))
  = Some [Some ("status:" +:+ sp +:+ value); Some value]
  ∧ ∀ os name arg rest,
      launch_err (command os (name :: arg)) = None →
      output (command os (name :: arg)) = ("status:" +:+ sp +:+ value) :: rest →
      ∃ err,
        matchCommandOnce os (exec_Command name arg) statusPat
        = Some ((value, err),
                [EvStart (name :: arg); EvKill (name :: arg);
                 EvWait (name :: arg)]).
Proof.
  intros Hsp Hvalue Hdot Hstart.
  assert (FindSubmatch statusPat (Some ("status:" +:+ sp +:+ value))
          = Some [Some ("status:" +:+ sp +:+ value); Some value]) as Hf.
  { unfold FindSubmatch. cbn [string_of].
    rewrite (search_exec _ _ _ _ _
               (exec_statusPat sp value None 0 Hsp Hvalue Hdot Hstart)).
    cbn [mbind option_bind]. change (NumSubexp statusPat) with 1.
    cbn [seq fmap list_fmap]. unfold submatch. cbn [Nat.mul Nat.add].
    lookup_caps. rewrite !Nat.sub_0_r. repeat f_equal.
    - apply substring_whole. rewrite !length_app_string. simpl. lia.
    - replace ("status:" +:+ sp +:+ value)%string
        with (("status:" +:+ sp) +:+ value +:+ "")%string
        by by rewrite app_nil_r_string, !app_assoc_string.
      apply substring_mid; [|lia]. rewrite !length_app_string. simpl. lia. }
  split; [done|]. intros os name arg rest Hl Hout.
  rewrite matchCommandOnce_eq, Hl, Hout. rewrite matches_cons, Hf.
  cbn [head next_match]. rewrite Hf. by eexists.
Qed.

Lemma statusPat_parse_witness :
  FindSubmatch statusPat (Some "status: running"%string)
  = Some [Some "status: running"%string; Some "running"%string].
Proof. apply (statusPat_parse " " "running"); done. Defined.

(** ** Matchers without a match *)

(** X20. [labelHostResource] never fails, whatever the matcher holds:
    slots that are absent or nil read as empty text.  It gives the empty
    label when the matcher holds no match, and whenever the text of the
    first group begins neither with [hostpci] nor with [usb]. *)
Theorem labelHostResource_total_empty cmm :
  is_Some (labelHostResource cmm)
  ∧ (cmm_match cmm = None → labelHostResource cmm = Some ""%string)
  ∧ (∀ key,
       cmdMatcher_MatchText cmm 1 = Some key →
       String.prefix "hostpci" key = false → String.prefix "usb" key = false →
       labelHostResource cmm = Some ""%string).
Proof.
  split_and!.
  - apply labelHostResource_total.
  - intros Hm. unfold labelHostResource.
    rewrite (MatchText_out_of_range cmm 1)
      by (unfold match_slots; rewrite Hm; simpl; lia).
    done.
  - intros key Hkey Hpci Husb. unfold labelHostResource.
    rewrite Hkey. cbn [mbind option_bind]. by rewrite Hpci, Husb.
Qed.
